(** * docdb: a shallow embedding of the query language, the indexer and the
      planner of the document database (the pebble-backed [main.go]).

    Go strings are byte sequences: they are modelled by [string] (a list of
    8-bit [ascii]).  A [rune] is an integer code point, modelled by [Z].
    Indices ([int], never negative here) are modelled by [nat]. *)

From Stdlib Require Import ZArith Lia Ascii String List Bool SpecFloat Sorted.
From stdpp Require Import base option list strings pretty gmap.

Set Warnings "-register-all".
Local Open Scope string_scope.

(** ** Bytes, runes and UTF-8 (the Go conversions [[]rune(s)], [string(rs)],
       [string(b)]) *)

Definition rune := Z.

Definition byteZ (a : ascii) : Z := Z.of_N (N_of_ascii a).
Definition Zbyte (z : Z) : ascii := ascii_of_N (Z.to_N z).

Definition bytes (s : string) : list Z := map byteZ (list_ascii_of_string s).
Definition ofBytes (l : list Z) : string := string_of_list_ascii (map Zbyte l).

(** The one-byte string of the double quote. *)
Definition quote : string := String (ascii_of_nat 34) EmptyString.

(** The two bytes of U+00E9 in UTF-8. *)
Definition eacute : string :=
  String (ascii_of_nat 195) (String (ascii_of_nat 169) EmptyString).

(** [len(s)] for a Go string: its number of bytes. *)
Definition len (s : string) : nat := String.length s.

(** [s[i:]] for [i <= len(s)]. *)
Fixpoint sliceFrom (s : string) (i : nat) : string :=
  match i, s with
  | O, _ => s
  | S k, String _ t => sliceFrom t k
  | S _, EmptyString => EmptyString
  end.

Definition RuneError : rune := 65533%Z.

Section Utf8.
Local Open Scope Z_scope.

Definition inRange (lo hi x : Z) : bool := (lo <=? x) && (x <=? hi).
Definition cont (x : Z) : bool := inRange 128 191 x.

(** [utf8.DecodeRuneInString] on a non-empty byte sequence [b0 :: t]:
    the rune and the number of bytes it takes.  An ill-formed or truncated
    sequence decodes to [RuneError] with width 1. *)
Definition decodeRune (b0 : Z) (t : list Z) : rune * nat :=
  if b0 <? 128 then (b0, 1%nat)
  else if inRange 194 223 b0 then
    match t with
    | b1 :: _ =>
        if cont b1 then (Z.lor (Z.shiftl (Z.land b0 31) 6) (Z.land b1 63), 2%nat)
        else (RuneError, 1%nat)
    | _ => (RuneError, 1%nat)
    end
  else if inRange 224 239 b0 then
    match t with
    | b1 :: b2 :: _ =>
        let lo := if b0 =? 224 then 160 else 128 in
        let hi := if b0 =? 237 then 159 else 191 in
        if inRange lo hi b1 && cont b2 then
          (Z.lor (Z.shiftl (Z.land b0 15) 12)
             (Z.lor (Z.shiftl (Z.land b1 63) 6) (Z.land b2 63)), 3%nat)
        else (RuneError, 1%nat)
    | _ => (RuneError, 1%nat)
    end
  else if inRange 240 244 b0 then
    match t with
    | b1 :: b2 :: b3 :: _ =>
        let lo := if b0 =? 240 then 144 else 128 in
        let hi := if b0 =? 244 then 143 else 191 in
        if inRange lo hi b1 && cont b2 && cont b3 then
          (Z.lor (Z.shiftl (Z.land b0 7) 18)
             (Z.lor (Z.shiftl (Z.land b1 63) 12)
                (Z.lor (Z.shiftl (Z.land b2 63) 6) (Z.land b3 63))), 4%nat)
        else (RuneError, 1%nat)
    | _ => (RuneError, 1%nat)
    end
  else (RuneError, 1%nat).

(** Decoding from left to right; [skip] counts the continuation bytes of
    the rune just decoded that are still to be passed over. *)
Fixpoint decodeFrom (skip : nat) (l : list Z) : list rune :=
  match l with
  | [] => []
  | b0 :: t =>
      match skip with
      | S k => decodeFrom k t
      | O => let '(r, w) := decodeRune b0 t in r :: decodeFrom (pred w) t
      end
  end.

(** [utf8.AppendRune]: surrogates and out-of-range values are written as
    [RuneError]. *)
Definition encodeRune (r : rune) : list Z :=
  if (0 <=? r) && (r <? 128) then [r]
  else if (0 <=? r) && (r <? 2048) then
    [Z.lor 192 (Z.shiftr r 6); Z.lor 128 (Z.land r 63)]
  else if (r <? 0) || (1114111 <? r) || inRange 55296 57343 r then [239; 191; 189]
  else if r <? 65536 then
    [Z.lor 224 (Z.shiftr r 12); Z.lor 128 (Z.land (Z.shiftr r 6) 63);
     Z.lor 128 (Z.land r 63)]
  else
    [Z.lor 240 (Z.shiftr r 18); Z.lor 128 (Z.land (Z.shiftr r 12) 63);
     Z.lor 128 (Z.land (Z.shiftr r 6) 63); Z.lor 128 (Z.land r 63)].
End Utf8.

(** [[]rune(s)] *)
Definition runes (s : string) : list rune := decodeFrom 0 (bytes s).

(** [string(rs)] for [rs : []rune] *)
Definition stringOfRunes (rs : list rune) : string :=
  ofBytes (concat (map encodeRune rs)).

(** [string(b)] for a byte [b]: the UTF-8 text of the code point [b]. *)
Definition stringOfByte (b : ascii) : string := ofBytes (encodeRune (byteZ b)).

(** ** The [unicode] predicates.

    Go answers for code points up to U+00FF (Latin-1) from a fixed table,
    written out here, and for the others from the Unicode range tables.  The
    range tables are parameters of the development. *)

Record UnicodeTables := {
  tableLetter : rune -> bool;
  tableDigit : rune -> bool;
  tableWhiteSpace : rune -> bool
}.

Section Unicode.
Context (U : UnicodeTables).
Local Open Scope Z_scope.

Definition isLatin1 (r : rune) : bool := (0 <=? r) && (r <=? 255).

Definition IsSpace (r : rune) : bool :=
  if isLatin1 r then
    inRange 9 13 r || (r =? 32) || (r =? 133) || (r =? 160)
  else tableWhiteSpace U r.

Definition IsDigit (r : rune) : bool :=
  if isLatin1 r then inRange 48 57 r else tableDigit U r.

Definition IsLetter (r : rune) : bool :=
  if isLatin1 r then
    inRange 65 90 r || inRange 97 122 r || (r =? 170) || (r =? 181) || (r =? 186)
    || inRange 192 214 r || inRange 216 246 r || inRange 248 255 r
  else tableLetter U r.
End Unicode.

(** ** [strings.Split] and [strings.Join] with a one-byte separator *)

(** [splitAcc sep cur s]: [cur] is the piece being read, in reverse. *)
Fixpoint splitAcc (sep : ascii) (cur : list ascii) (s : string) : list string :=
  match s with
  | EmptyString => [string_of_list_ascii (rev cur)]
  | String c t =>
      if Ascii.eqb c sep then string_of_list_ascii (rev cur) :: splitAcc sep [] t
      else splitAcc sep (c :: cur) t
  end.

Definition Split (s : string) (sep : ascii) : list string := splitAcc sep [] s.

Fixpoint Join (l : list string) (sep : string) : string :=
  match l with
  | [] => ""
  | [x] => x
  | x :: t => x ++ sep ++ Join t sep
  end.


(** ** Values

    A Go [any] holding what the program inspects: the JSON data model
    ([nil], [bool], [float64], [string], [map[string]any], [[]any]) and the
    other numeric kinds that [match] lists. *)

Definition float64 := spec_float.

Inductive intKind :=
  KUint | KUint8 | KUint16 | KUint32 | KUint64
| KInt | KInt8 | KInt16 | KInt32 | KInt64.

(** A [map[string]any] is written as the list of its entries in the order in
    which a [range] loop visits them (Go leaves that order unspecified);
    [m[k]] is the entry of key [k]. *)
Inductive any :=
| VNil
| VBool (b : bool)
| VFloat64 (f : float64)
| VFloat32 (f : spec_float)
| VInt (k : intKind) (z : Z)
| VString (s : string)
| VMap (m : list (string * any))
| VSlice (l : list any).

Definition document := list (string * any).

Fixpoint mapGet (m : document) (k : string) : option any :=
  match m with
  | [] => None
  | (k', v) :: t => if String.eqb k' k then Some v else mapGet t k
  end.

(** [float64(t)] for an integer [t]: rounding to nearest, ties to even. *)
Definition floatOfInt (z : Z) : float64 := binary_normalize 53 1024 z 0 false.

(** ** The library functions the program calls

    [strconv.ParseFloat(s, 64)] ([None] when it returns an error), the [%v]
    rendering of a floating-point number, and the Unicode range tables. *)
Record GoLib := {
  unicodeTables : UnicodeTables;
  ParseFloat : string -> option float64;
  formatFloat64 : float64 -> string;
  formatFloat32 : spec_float -> string
}.

(** Insertion of an entry in a list of entries sorted by key ([fmt] prints a
    map with its keys sorted). *)
Fixpoint insertSorted {V} (e : string * V) (l : list (string * V))
  : list (string * V) :=
  match l with
  | [] => [e]
  | e' :: t =>
      if String.leb (fst e) (fst e') then e :: l else e' :: insertSorted e t
  end.

Section Sprintf.
Context (L : GoLib).

(** [fmt.Sprintf("%v", v)] *)
Fixpoint formatV (v : any) : string :=
  match v with
  | VNil => "<nil>"
  | VBool b => if b then "true" else "false"
  | VFloat64 f => formatFloat64 L f
  | VFloat32 f => formatFloat32 L f
  | VInt _ z => pretty z
  | VString s => s
  | VMap m =>
      let entries :=
        (fix go (m : list (string * any)) : list (string * string) :=
           match m with
           | [] => []
           | (k, x) :: t => insertSorted (k, formatV x) (go t)
           end) m in
      "map[" ++ Join (map (fun e => fst e ++ ":" ++ snd e) entries) " " ++ "]"
  | VSlice l =>
      "[" ++ Join ((fix go (l : list any) : list string :=
                      match l with
                      | [] => []
                      | x :: t => formatV x :: go t
                      end) l) " " ++ "]"
  end.

(** [fmt.Sprintf("%s=%v", key, val)] *)
Definition formatPathValue (key : string) (val : any) : string :=
  key ++ "=" ++ formatV val.
End Sprintf.

(** ** The path flattener *)

Section Flatten.
Context (L : GoLib).

(** What one turn of the [range] loop of [getPathValues obj prefix]
    appends for the entry [key], [val]. *)
Fixpoint entryPathValues (prefix key : string) (val : any) : list string :=
  match val with
  | VMap t => flat_map (fun e => entryPathValues key (fst e) (snd e)) t
  | VSlice _ => []
  | _ =>
      let key := if negb (String.eqb prefix "") then prefix ++ "." ++ key else key in
      [formatPathValue L key val]
  end.

(** [getPathValues]: the [range] loop over the entries of [obj]. *)
Definition getPathValues (obj : document) (prefix : string) : list string :=
  flat_map (fun e => entryPathValues prefix (fst e) (snd e)) obj.
End Flatten.

(** ** Queries *)

Record queryComparison := {
  key : list string;
  value : string;
  op : string
}.

Record query := { ands : list queryComparison }.

(** [getPath]: the loop over [parts], [docSegment] being the value reached. *)
Fixpoint getPathFrom (docSegment : any) (parts : list string) : any * bool :=
  match parts with
  | [] => (docSegment, true)
  | part :: rest =>
      match docSegment with
      | VMap m =>
          match mapGet m part with
          | Some v => getPathFrom v rest
          | None => (VNil, false)
          end
      | _ => (VNil, false)
      end
  end.

Definition getPath (doc : document) (parts : list string) : any * bool :=
  getPathFrom (VMap doc) parts.

Section Match.
Context (L : GoLib).

(** The type switch of [match]: the left operand of a range comparison,
    [None] where the source returns [false]. *)
Definition leftOperand (v : any) : option float64 :=
  match v with
  | VFloat64 t => Some t
  | VFloat32 t => Some t
  | VInt _ t => Some (floatOfInt t)
  | VString t => ParseFloat L t
  | _ => None
  end.

(** One turn of the loop of [match]: [true] when the loop goes on to the
    next argument, [false] when the source returns [false]. *)
Definition matchArgument (argument : queryComparison) (doc : document) : bool :=
  let '(v, ok) := getPath doc (key argument) in
  if negb ok then false
  else if String.eqb (op argument) "=" then
    String.eqb (formatV L v) (value argument)
  else
    match ParseFloat L (value argument) with
    | None => false
    | Some right_ =>
        match leftOperand v with
        | None => false
        | Some left_ =>
            if String.eqb (op argument) ">" then
              if SFleb left_ right_ then false else true
            else
              if SFleb right_ left_ then false else true
        end
    end.

Fixpoint matchAnds (l : list queryComparison) (doc : document) : bool :=
  match l with
  | [] => true
  | argument :: rest =>
      if matchArgument argument doc then matchAnds rest doc else false
  end.

(** [(q query) match(doc)] *)
Definition query_match (q : query) (doc : document) : bool :=
  matchAnds (ands q) doc.
End Match.

(** ** The lexer *)

Inductive lexError := ExpectedEndOfQuotedString | NoStringFound.

Section Lexer.
Context (L : GoLib).
Local Open Scope Z_scope.

(** The loop of the quoted case: [l] is [input[index:]], [s] the runes read
    so far, in reverse. *)
Fixpoint lexQuoted (l : list rune) (index : nat) (s : list rune)
  : string * nat * option lexError :=
  match l with
  | [] => ("", index, Some ExpectedEndOfQuotedString)
  | c :: t =>
      if c =? 34 then (stringOfRunes (rev s), S index, None)
      else lexQuoted t (S index) (c :: s)
  end.

(** The loop of the unquoted case. *)
Fixpoint lexBare (l : list rune) (index : nat) (s : list rune)
  : list rune * nat :=
  match l with
  | [] => (s, index)
  | c :: t =>
      if negb (IsLetter (unicodeTables L) c || IsDigit (unicodeTables L) c || (c =? 46))
      then (s, index)
      else lexBare t (S index) (c :: s)
  end.

Definition lexString (input : list rune) (index : nat)
  : string * nat * option lexError :=
  match drop index input with
  | [] => ("", index, None)
  | c :: t =>
      if c =? 34 then lexQuoted t (S index) []
      else
        let '(s, index) := lexBare (c :: t) index [] in
        match s with
        | [] => ("", index, Some NoStringFound)
        | _ => (stringOfRunes (rev s), index, None)
        end
  end.
End Lexer.

(** ** The parser *)

Inductive parseError :=
| ExpectedValidKey (e : lexError) (rest : string)
| ExpectedColon (at_ : nat) (rest : string)
| ExpectedValidValue (e : lexError) (rest : string).

(** What a call makes of its input: a value, a returned error, a run-time
    panic (an index out of range), or the recursion bound of the embedding
    being reached (excluded by [parseQuery_bounded] below). *)
Inductive outcome (A E : Type) :=
| Ok (a : A)
| Err (e : E)
| Panic
| OutOfFuel.
Arguments Ok {A E} a.
Arguments Err {A E} e.
Arguments Panic {A E}.
Arguments OutOfFuel {A E}.

(** [q[i]], a byte of the string; [None] is the out-of-range panic. *)
Definition byteAt (q : string) (i : nat) : option ascii := String.get i q.

(** [q[i:]]; [None] is the out-of-range panic. *)
Definition suffixFrom (q : string) (i : nat) : option string :=
  if (i <=? len q)%nat then Some (sliceFrom q i) else None.

Section Parser.
Context (L : GoLib).

(** [for unicode.IsSpace(qRune[i]) { i++ }], [l] being [qRune[i:]]. *)
Fixpoint eatWhitespace (l : list rune) (i : nat) : option nat :=
  match l with
  | [] => None
  | c :: t => if IsSpace (unicodeTables L) c then eatWhitespace t (S i) else Some i
  end.

(** The loop of [parseQuery]; each turn moves [i] forward, so
    [length qRune] turns are enough. *)
Fixpoint parseLoop (q : string) (qRune : list rune) (fuel : nat) (i : nat)
    (parsed : list queryComparison) : outcome query parseError :=
  if negb (i <? length qRune)%nat then Ok {| ands := parsed |}
  else
    match fuel with
    | O => OutOfFuel
    | S fuel =>
        match eatWhitespace (drop i qRune) i with
        | None => Panic
        | Some i =>
            let '(key, nextIndex, err) := lexString L qRune i in
            match err with
            | Some e =>
                match suffixFrom q nextIndex with
                | Some rest => Err (ExpectedValidKey e rest)
                | None => Panic
                end
            | None =>
                match byteAt q nextIndex with
                | None => Panic
                | Some c =>
                    if negb (Ascii.eqb c ":") then
                      match suffixFrom q nextIndex with
                      | Some rest => Err (ExpectedColon nextIndex rest)
                      | None => Panic
                      end
                    else
                      let i := (nextIndex + 1)%nat in
                      match byteAt q i with
                      | None => Panic
                      | Some c =>
                          let next :=
                            if Ascii.eqb c ">" || Ascii.eqb c "<" then
                              let i := S i in
                              match byteAt q i with
                              | None => None
                              | Some c' => Some (i, stringOfByte c')
                              end
                            else Some (i, "=") in
                          match next with
                          | None => Panic
                          | Some (i, op) =>
                              let '(value, nextIndex, err) := lexString L qRune i in
                              match err with
                              | Some e =>
                                  match suffixFrom q nextIndex with
                                  | Some rest => Err (ExpectedValidValue e rest)
                                  | None => Panic
                                  end
                              | None =>
                                  let argument :=
                                    {| key := Split key "."; value := value; op := op |} in
                                  parseLoop q qRune fuel nextIndex (parsed ++ [argument])
                              end
                          end
                      end
                end
            end
        end
    end.

Definition parseQuery (q : string) : outcome query parseError :=
  if String.eqb q "" then Ok {| ands := [] |}
  else
    let qRune := runes q in
    parseLoop q qRune (length qRune) 0 [].
End Parser.

(** ** The key-value stores

    A [pebble.DB] is a finite map from keys to values that an operation may
    fail on: [getFails] and [setFails] say for which keys a [Get] or a [Set]
    returns an I/O error.  The JSON codec is outside the embedding: a value of
    the primary store is written as what [json.Unmarshal] makes of it, a
    document or [None] when decoding fails. *)

Record DB (V : Type) := {
  cells : gmap string V;
  getFails : string -> bool;
  setFails : string -> bool
}.
Arguments cells {V} _.
Arguments getFails {V} _ _.
Arguments setFails {V} _ _.

Inductive getResult (V : Type) :=
| GetOk (v : V)
| GetNotFound
| GetError.
Arguments GetOk {V} v.
Arguments GetNotFound {V}.
Arguments GetError {V}.

Definition dbGet {V} (d : DB V) (k : string) : getResult V :=
  if getFails d k then GetError
  else match cells d !! k with
       | Some v => GetOk v
       | None => GetNotFound
       end.

(** The entries an iterator goes through ([First], [Next] until not
    [Valid]): all of them, in the order of their keys. *)
Definition dbEntries {V} (d : DB V) : list (string * V) :=
  foldr insertSorted [] (map_to_list (cells d)).

(** [Set]: the store after the call, and whether the call returned an error. *)
Definition dbSet {V} (d : DB V) (k : string) (v : V) : DB V * bool :=
  if setFails d k then (d, true)
  else ({| cells := <[k := v]> (cells d); getFails := getFails d; setFails := setFails d |},
        false).

Record server := {
  db : DB (option document);
  indexDb : DB string
}.

Inductive error :=
| ParseError (e : parseError)
| LookupError (pathValue : string)
| ErrNotFound
| IOError
| JsonError.

(** ** The index writer *)

Section Indexer.
Context (L : GoLib).

(** The body of the loop of [index] for one [pathValue]: the posting list
    written back. *)
Definition updatedIds (idsString id : string) : string :=
  if (len idsString =? 0)%nat then id
  else
    let ids := Split idsString "," in
    let found := existsb (String.eqb id) ids in
    if negb found then idsString ++ "," ++ id else idsString.

Fixpoint indexPathValues (idx : DB string) (id : string) (pv : list string)
  : DB string :=
  match pv with
  | [] => idx
  | pathValue :: rest =>
      let idsString :=
        match dbGet idx pathValue with
        | GetOk v => v
        | GetNotFound => ""
        | GetError => ""
        end in
      let idsString := updatedIds idsString id in
      indexPathValues (fst (dbSet idx pathValue idsString)) id rest
  end.

(** [(s server) index(id, document)] *)
Definition index (s : server) (id : string) (doc : document) : server :=
  let pv := getPathValues L doc "" in
  {| db := db s; indexDb := indexPathValues (indexDb s) id pv |}.
End Indexer.

(** ** Readers *)

(** [(s server) getDocumentById(id)] *)
Definition getDocumentById (s : server) (id : string) : document + error :=
  match dbGet (db s) id with
  | GetError => inr IOError
  | GetNotFound => inr ErrNotFound
  | GetOk None => inr JsonError
  | GetOk (Some document) => inl document
  end.

(** [(s server) lookup(pathValue)] *)
Definition lookup (s : server) (pathValue : string) : list string + error :=
  match dbGet (indexDb s) pathValue with
  | GetError => inr (LookupError pathValue)
  | GetNotFound => inl []
  | GetOk idsString =>
      if (len idsString =? 0)%nat then inl [] else inl (Split idsString ",")
  end.

(** ** The planner *)

Inductive response :=
| RespOk (documents : list (string * document)) (count : nat)
| RespError (e : error)
| RespPanic.

Section Planner.
Context (L : GoLib).

(** [idsArgumentCount[id]++] for each [id] of a posting list. *)
Fixpoint countIds (ids : list string) (idsArgumentCount : gmap string nat)
  : gmap string nat :=
  match ids with
  | [] => idsArgumentCount
  | id :: rest =>
      let n := match idsArgumentCount !! id with Some n => n | None => O end in
      countIds rest (<[id := S n]> idsArgumentCount)
  end.

(** The first loop of [searchDocuments]: [isRange], [idsArgumentCount] and
    [nonRangeArguments] after the arguments [l], or the error of a
    lookup. *)
Fixpoint gatherIds (s : server) (l : list queryComparison) (isRange : bool)
    (idsArgumentCount : gmap string nat) (nonRangeArguments : nat)
  : (bool * gmap string nat * nat) + error :=
  match l with
  | [] => inl (isRange, idsArgumentCount, nonRangeArguments)
  | argument :: rest =>
      if String.eqb (op argument) "=" then
        let nonRangeArguments := S nonRangeArguments in
        match lookup s (formatPathValue L (Join (key argument) ".")
                          (VString (value argument))) with
        | inr err => inr err
        | inl ids =>
            gatherIds s rest isRange (countIds ids idsArgumentCount) nonRangeArguments
        end
      else gatherIds s rest true idsArgumentCount nonRangeArguments
  end.

(** The second loop: the ids counted [nonRangeArguments] times. *)
Definition idsInAllOf (idsArgumentCount : gmap string nat) (nonRangeArguments : nat)
  : list string :=
  (filter (fun e => snd e = nonRangeArguments) (map_to_list idsArgumentCount)).*1.

(** The loop over [idsInAll]. *)
Fixpoint fromIndex (s : server) (q : query) (isRange : bool) (ids : list string)
    (documents : list (string * document)) : list (string * document) + error :=
  match ids with
  | [] => inl documents
  | id :: rest =>
      match getDocumentById s id with
      | inr err => inr err
      | inl document =>
          if negb isRange || query_match L q document
          then fromIndex s q isRange rest (documents ++ [(id, document)])
          else fromIndex s q isRange rest documents
      end
  end.

(** The loop over the iterator of the primary store. *)
Fixpoint fromScan (q : query) (entries : list (string * option document))
    (documents : list (string * document)) : list (string * document) + error :=
  match entries with
  | [] => inl documents
  | (k, v) :: rest =>
      match v with
      | None => inr JsonError
      | Some document =>
          if query_match L q document
          then fromScan q rest (documents ++ [(k, document)])
          else fromScan q rest documents
      end
  end.

Definition respond (r : list (string * document) + error) : response :=
  match r with
  | inl documents => RespOk documents (length documents)
  | inr err => RespError err
  end.

(** [(s server) searchDocuments]: [qParam] and [skipIndex] are the values
    of the URL parameters [q] and [skipIndex]. *)
Definition searchDocuments (s : server) (qParam skipIndex : string) : response :=
  match parseQuery L qParam with
  | Panic | OutOfFuel => RespPanic
  | Err e => RespError (ParseError e)
  | Ok q =>
      match gatherIds s (ands q) false ∅ 0 with
      | inr err => RespError err
      | inl (isRange, idsArgumentCount, nonRangeArguments) =>
          let idsInAll := idsInAllOf idsArgumentCount nonRangeArguments in
          let idsInAll := if String.eqb skipIndex "true" then [] else idsInAll in
          if (0 <? length idsInAll)%nat then
            respond (fromIndex s q isRange idsInAll [])
          else
            respond (fromScan q (dbEntries (db s)) [])
      end
  end.
End Planner.

(** ** An instance of the library, for closed examples

    [latin1Lib] answers exactly on the inputs the examples use: text within
    Latin-1 (the range tables are empty), decimal float literals and the
    special values [inf], [infinity], [nan] (hexadecimal literals are not
    read), and the rendering of the special values and of integral floats
    below [10^6] in magnitude (other floats are not rendered). *)

Section RefParseFloat.
Local Open Scope Z_scope.

Definition lower (a : ascii) : ascii :=
  let n := byteZ a in if inRange 65 90 n then Zbyte (n + 32) else a.

Definition isDigitByte (a : ascii) : bool := inRange 48 57 (byteZ a).

(** A run of decimal digits: the number read after [acc], how many digits
    were read, and what follows. *)
Fixpoint readDigits (s : list ascii) (acc : Z) (n : nat) : Z * nat * list ascii :=
  match s with
  | c :: t =>
      if isDigitByte c then readDigits t (10 * acc + (byteZ c - 48)) (S n)
      else (acc, n, s)
  | [] => (acc, n, [])
  end.

(** The digits of an exponent; the source stops adding at 10000. *)
Fixpoint readExponent (s : list ascii) (e : Z) : Z * list ascii :=
  match s with
  | c :: t =>
      if isDigitByte c
      then readExponent t (if e <? 10000 then 10 * e + (byteZ c - 48) else e)
      else (e, s)
  | [] => (e, [])
  end.

Definition readSign (s : list ascii) : bool * list ascii :=
  match s with
  | c :: t =>
      if Ascii.eqb c "-" then (true, t)
      else if Ascii.eqb c "+" then (false, t)
      else (false, s)
  | [] => (false, [])
  end.

(** The nearest [float64] of [(-1)^neg * m * 10^e], ties to even; [None]
    when it is out of range ([ErrRange]). *)
Definition roundDecimal (neg : bool) (m e : Z) : option float64 :=
  if m =? 0 then Some (S754_zero neg)
  else
    let f :=
      if 0 <=? e then binary_normalize 53 1024 ((if neg then - m else m) * 10 ^ e) 0 false
      else SFdiv 53 1024 (S754_finite neg (Z.to_pos m) 0)
                         (S754_finite false (Z.to_pos (10 ^ (- e))) 0) in
    match f with
    | S754_infinity _ => None
    | _ => Some f
    end.

Definition parseSpecial (s : list ascii) : option float64 :=
  let low := string_of_list_ascii (map lower s) in
  if String.eqb low "nan" then Some S754_nan
  else
    let '(neg, rest) := readSign s in
    let low := string_of_list_ascii (map lower rest) in
    if String.eqb low "inf" || String.eqb low "infinity"
    then Some (S754_infinity neg) else None.

Definition parseDecimal (s : list ascii) : option float64 :=
  let '(neg, s) := readSign s in
  let '(m, n1, s) := readDigits s 0 0 in
  let '(m, n2, s) :=
    match s with
    | c :: t => if Ascii.eqb c "." then readDigits t m 0 else (m, O, s)
    | [] => (m, O, s)
    end in
  if (n1 + n2 =? 0)%nat then None
  else
    match s with
    | [] => roundDecimal neg m (- Z.of_nat n2)
    | c :: t =>
        if Ascii.eqb (lower c) "e" then
          let '(eneg, t) := readSign t in
          match t with
          | d :: _ =>
              if isDigitByte d then
                match readExponent t 0 with
                | (e, []) => roundDecimal neg m ((if eneg then - e else e) - Z.of_nat n2)
                | _ => None
                end
              else None
          | [] => None
          end
        else None
    end.

Definition refParseFloat (s : string) : option float64 :=
  let l := list_ascii_of_string s in
  match parseSpecial l with
  | Some f => Some f
  | None => parseDecimal l
  end.

(** The integer a float is, when it is one. *)
Definition integral (f : float64) : option Z :=
  match f with
  | S754_zero _ => Some 0
  | S754_finite s m e =>
      let z := if s then Z.neg m else Z.pos m in
      if 0 <=? e then Some (z * 2 ^ e)
      else if Z.pos m mod 2 ^ (- e) =? 0 then Some (z / 2 ^ (- e)) else None
  | _ => None
  end.

Definition refFormatFloat (f : float64) : string :=
  match f with
  | S754_nan => "NaN"
  | S754_infinity s => if s then "-Inf" else "+Inf"
  | S754_zero s => if s then "-0" else "0"
  | _ =>
      match integral f with
      | Some z => if Z.abs z <? 1000000 then pretty z else ""
      | None => ""
      end
  end.
End RefParseFloat.

Definition latin1Lib : GoLib := {|
  unicodeTables := {| tableLetter := fun _ => false;
                      tableDigit := fun _ => false;
                      tableWhiteSpace := fun _ => false |};
  ParseFloat := refParseFloat;
  formatFloat64 := refFormatFloat;
  formatFloat32 := refFormatFloat
|}.

(** ** Notions used to state the properties *)

(** [reaches v parts w]: walking down [parts] from [v], through nested
    documents only, ends at [w]. *)
Inductive reaches : any -> list string -> any -> Prop :=
| reaches_here v : reaches v [] v
| reaches_step m part rest v w :
    mapGet m part = Some v -> reaches v rest w ->
    reaches (VMap m) (part :: rest) w.

(** [stuck v parts]: some step of [parts] from [v] meets a value that is not
    a document, or a document without the key. *)
Inductive stuck : any -> list string -> Prop :=
| stuck_not_document v part rest :
    (forall m, v <> VMap m) -> stuck v (part :: rest)
| stuck_missing m part rest :
    mapGet m part = None -> stuck (VMap m) (part :: rest)
| stuck_later m part rest v :
    mapGet m part = Some v -> stuck v rest -> stuck (VMap m) (part :: rest).

(** An empty store on which no operation fails. *)
Definition emptyDB {V} : DB V :=
  {| cells := ∅; getFails := fun _ => false; setFails := fun _ => false |}.

(** The posting list stored under a fingerprint, as [lookup] reads it. *)
Definition postings (idx : DB string) (pathValue : string) : list string :=
  match cells idx !! pathValue with
  | Some idsString => if (len idsString =? 0)%nat then [] else Split idsString ","
  | None => []
  end.

(** [id] is at most once in every posting list of the index store. *)
Definition atMostOnce (id : string) (idx : DB string) : Prop :=
  forall pathValue, count_occ string_dec (postings idx pathValue) id <= 1.

(** The fingerprint [searchDocuments] looks an equality argument up by. *)
Definition fingerprint (argument : queryComparison) : string :=
  Join (key argument) "." ++ "=" ++ value argument.

Definition isEquality (argument : queryComparison) : bool :=
  String.eqb (op argument) "=".

(** How many times [id] occurs in the posting lists of the equality
    arguments of [l]. *)
Fixpoint occurrences (idx : DB string) (l : list queryComparison) (id : string) : nat :=
  match l with
  | [] => 0
  | argument :: rest =>
      (if isEquality argument
       then count_occ string_dec (postings idx (fingerprint argument)) id
       else 0) + occurrences idx rest id
  end.

Fixpoint equalityCount (l : list queryComparison) : nat :=
  match l with
  | [] => 0
  | argument :: rest => (if isEquality argument then 1 else 0) + equalityCount rest
  end.

(** The count the planner holds for [id] ([0] when [id] is not a key). *)
Definition countOf (idsArgumentCount : gmap string nat) (id : string) : nat :=
  match idsArgumentCount !! id with Some n => n | None => O end.

(** A primary store with one document, [{"a":"1"}], and an index store
    that has no entry for it. *)
Definition unindexedServer : server :=
  {| db := {| cells := {[ "id1" := Some [("a", VString "1")] ]};
              getFails := fun _ => false;
              setFails := fun _ => false |};
     indexDb := emptyDB |}.

(** Two documents stored and indexed: [{"a":"1"}] under [id1] and
    [{"a":"1","b":"2"}] under [id2]. *)
Definition indexedServer : server :=
  index latin1Lib
    (index latin1Lib
       {| db := {| cells := {[ "id1" := Some [("a", VString "1")];
                               "id2" := Some [("a", VString "1"); ("b", VString "2")] ]};
                   getFails := fun _ => false;
                   setFails := fun _ => false |};
          indexDb := emptyDB |}
       "id1" [("a", VString "1")])
    "id2" [("a", VString "1"); ("b", VString "2")].

(** A server whose index store fails on the reads of [a=1]. *)
Definition faultyServer : server :=
  {| db := db unindexedServer;
     indexDb := {| cells := ∅;
                   getFails := fun k => String.eqb k "a=1";
                   setFails := fun _ => false |} |}.

Definition hasRange (l : list queryComparison) : bool :=
  existsb (fun a => negb (isEquality a)) l.

(** Loading the documents of a list of ids, none being filtered out. *)
Fixpoint loadAll (s : server) (ids : list string)
  : list (string * document) + error :=
  match ids with
  | [] => inl []
  | id :: rest =>
      match getDocumentById s id with
      | inr err => inr err
      | inl document =>
          match loadAll s rest with
          | inr err => inr err
          | inl l => inl ((id, document) :: l)
          end
      end
  end.


(** A text of ASCII bytes only. *)
Definition isAscii (q : string) : Prop :=
  Forall (fun b => (b < 128)%Z) (bytes q).

(** An ASCII white-space byte: tab, line feed, vertical tab, form feed,
    carriage return or space. *)
Definition isAsciiSpace (b : Z) : Prop := (9 <= b <= 13)%Z \/ b = 32%Z.

(** A non-empty text of ASCII white space only. *)
Definition isBlank (ws : string) : Prop :=
  ws <> "" /\ Forall isAsciiSpace (bytes ws).

(** The planner as the specification words it (C2): the primary store is iterated
    only when [skipIndex=true] is requested or the query has no equality
    predicate; otherwise the candidates are the ids counted as many times as
    there are equality predicates. *)
Definition claimedCandidates (idx : DB string) (l : list queryComparison)
  : list string :=
  filter (fun id => occurrences idx l id = equalityCount l)
    (remove_dups
       (flat_map (fun a => if isEquality a then postings idx (fingerprint a) else []) l)).

Definition claimedSearch (L : GoLib) (s : server) (q : query) (skipIndex : string)
  : response :=
  if String.eqb skipIndex "true" || (equalityCount (ands q) =? 0)%nat
  then respond (fromScan L q (dbEntries (db s)) [])
  else respond (fromIndex L s q (hasRange (ands q))
                    (claimedCandidates (indexDb s) (ands q)) []).

(** The operator of a predicate is neither [>] nor [<]. *)
Definition noAngle (p : queryComparison) : Prop := op p <> ">" /\ op p <> "<".


(** The posting list read back from a text under which it is stored. *)
Definition idsOf (idsString : string) : list string :=
  if (len idsString =? 0)%nat then [] else Split idsString ",".

(** An id without a comma, as the ids that [addDocument] draws are. *)
Definition commaFree (id : string) : Prop :=
  Forall (fun a => a <> ","%char) (list_ascii_of_string id).

(** The servers whose index store was built by the indexer alone, from an
    empty index store, under ids without a comma. *)
Inductive built (L : GoLib) : server -> Prop :=
| built_fresh s : cells (indexDb s) = ∅ -> built L s
| built_index s id doc : built L s -> commaFree id -> built L (index L s id doc).

(** Every count the planner holds is positive. *)
Definition positiveCounts (idsArgumentCount : gmap string nat) : Prop :=
  forall id c, idsArgumentCount !! id = Some c -> 0 < c.

(** ** More of the program, and notions for its properties *)

(** What [index] reads for one fingerprint: the stored text, or nothing when
    there is none or the read fails. *)
Definition readIds (idx : DB string) (pathValue : string) : string :=
  match dbGet idx pathValue with
  | GetOk v => v
  | GetNotFound => ""
  | GetError => ""
  end.

(** One turn of the loop of [index]. *)
Definition indexStep (idx : DB string) (id pathValue : string) : DB string :=
  fst (dbSet idx pathValue (updatedIds (readIds idx pathValue) id)).

(** [json.Marshal] is outside the embedding, as [json.Unmarshal] is: a codec
    says what is stored for a document, written as what decoding the stored
    bytes gives back; [None] when [Marshal] returns an error. *)
Record JsonCodec := { marshal : document -> option (option document) }.

(** A codec that stores every document and reads it back as it was. *)
Definition exactCodec : JsonCodec := {| marshal := fun d => Some (Some d) |}.

Inductive addResponse :=
| AddOk (id : string)
| AddError (e : error).

Inductive getResponse :=
| DocumentOk (document : document)
| DocumentError (e : error).

(** [(s server) addDocument]: [body] is what decoding the request body
    gives ([None] when it fails), [id] the identifier that [uuid.New] draws.
    The response, and the server after the call. *)
Definition addDocument (L : GoLib) (J : JsonCodec) (s : server)
    (body : option document) (id : string) : addResponse * server :=
  match body with
  | None => (AddError JsonError, s)
  | Some document =>
      let s := index L s id document in
      match marshal J document with
      | None => (AddError JsonError, s)
      | Some bs =>
          let '(d, failed) := dbSet (db s) id bs in
          (if failed then AddError IOError else AddOk id,
           {| db := d; indexDb := indexDb s |})
      end
  end.

(** [(s server) getDocument] *)
Definition getDocument (s : server) (id : string) : getResponse :=
  match getDocumentById s id with
  | inl document => DocumentOk document
  | inr err => DocumentError err
  end.

(** A rune that an unquoted atom may hold. *)
Definition isAtomRune (L : GoLib) (c : rune) : bool :=
  IsLetter (unicodeTables L) c || IsDigit (unicodeTables L) c || (c =? 46)%Z.

(** A value that is neither a nested document nor an array. *)
Definition isScalar (v : any) : bool :=
  match v with
  | VMap _ | VSlice _ => false
  | _ => true
  end.

(** A text without the byte [sep]. *)
Definition sepFree (sep : ascii) (s : string) : Prop :=
  Forall (fun a => a <> sep) (list_ascii_of_string s).

(** The documents of a list of store entries that match a query, with their
    keys. *)
Definition matching (L : GoLib) (q : query) (entries : list (string * option document))
  : list (string * document) :=
  flat_map (fun e => match snd e with
                     | Some d => if query_match L q d then [(fst e, d)] else []
                     | None => []
                     end) entries.


(** A server whose index store lists [id1] under [a=1] and fails on the reads
    of that key. *)
Definition readFaultServer : server :=
  {| db := db unindexedServer;
     indexDb := {| cells := {[ "a=1" := "id1" ]};
                   getFails := fun k => String.eqb k "a=1";
                   setFails := fun _ => false |} |}.

(** A server whose primary store refuses every write. *)
Definition readOnlyServer : server :=
  {| db := {| cells := ∅;
              getFails := fun _ => false;
              setFails := fun _ => true |};
     indexDb := emptyDB |}.

(** The order an iterator of the store follows: the order of the keys as
    byte strings. *)
Definition keyOrder (a b : string) : Prop := String.leb a b = true.

(** Every value of the store decodes. *)
Definition allDecode (d : DB (option document)) : Prop :=
  forall id, cells d !! id <> Some None.

(** A document whose values are scalars, whose keys are distinct (as the keys
    of a Go map are) and hold neither a dot nor an equals sign. *)
Definition flatDoc (d : document) : Prop :=
  NoDup d.*1 /\
  Forall (fun e => isScalar (snd e) = true /\
                   sepFree "." (fst e) /\ sepFree "=" (fst e)) d.

(** A server with nothing stored, on which no operation fails. *)
Definition emptyServer : server := {| db := emptyDB; indexDb := emptyDB |}.

(** The index store mirrors the primary store: no operation of either store
    fails, every stored value decodes, and the posting list of a fingerprint
    holds, each once, the ids of the stored documents that have the
    fingerprint. *)
Record consistent (L : GoLib) (s : server) : Prop := {
  consistent_db_get : forall k, getFails (db s) k = false;
  consistent_db_set : forall k, setFails (db s) k = false;
  consistent_index_get : forall k, getFails (indexDb s) k = false;
  consistent_index_set : forall k, setFails (indexDb s) k = false;
  consistent_decode : allDecode (db s);
  consistent_mirror :
    forall pathValue id,
      In id (postings (indexDb s) pathValue) <->
      exists d, cells (db s) !! id = Some (Some d) /\
                In pathValue (getPathValues L d "");
  consistent_once : forall id, atMostOnce id (indexDb s)
}.

(** The server after one document, [{"a":"1"}], was added to the empty
    server under [id1]. *)
Definition oneDocServer : server :=
  snd (addDocument latin1Lib exactCodec emptyServer (Some [("a", VString "1")]) "id1").

(** A byte of an unquoted ASCII atom: a letter, a digit or a dot. *)
Definition isAtomByte (a : ascii) : bool :=
  let n := byteZ a in
  (inRange 48 57 n || inRange 65 90 n || inRange 97 122 n || (n =? 46)%Z).

(** A non-empty text of such bytes. *)
Definition isAtomText (s : string) : Prop :=
  s <> "" /\ Forall (fun a => isAtomByte a = true) (list_ascii_of_string s).

(** The text of a query of equality predicates: [key:value], one space in
    between. *)
Definition render (preds : list (string * string)) : string :=
  Join (map (fun p => fst p ++ ":" ++ snd p) preds) " ".

(** The predicate that [key:value] stands for. *)
Definition equalityOf (p : string * string) : queryComparison :=
  {| key := Split (fst p) "."; value := snd p; op := "=" |}.

(** The field [key] of a document prints as [value]. *)
Definition holds (L : GoLib) (d : document) (p : string * string) : bool :=
  match mapGet d (fst p) with
  | Some x => String.eqb (formatV L x) (snd p)
  | None => false
  end.




(** A server with the content of [s] on which the reads and writes of the
    index store fail as [getFails'] and [setFails'] say: the faults of a later
    run need not be those of an earlier one. *)
Definition withIndexFaults (s : server) (getFails' setFails' : string -> bool)
  : server :=
  {| db := db s;
     indexDb := {| cells := cells (indexDb s);
                   getFails := getFails';
                   setFails := setFails' |} |}.

(** A server whose index store lists [id0] under [a=1]. *)
Definition listedServer : server :=
  {| db := db unindexedServer;
     indexDb := {| cells := {[ "a=1" := "id0" ]};
                   getFails := fun _ => false;
                   setFails := fun _ => false |} |}.

(** * Properties *)

(** ** [getPath] *)

Lemma getPathFrom_reaches (parts : list string) :
  forall v w, getPathFrom v parts = (w, true) <-> reaches v parts w.
Proof.
  induction parts as [|part rest IH]; intros v w; simpl.
  - split.
    + intros [= ->]. constructor.
    + inversion 1; subst. reflexivity.
  - split.
    + destruct v; try discriminate.
      destruct (mapGet m part) as [x|] eqn:E; try discriminate.
      intros H. apply IH in H. econstructor; eauto.
    + inversion 1 as [|m' p' r' x w' Hm Hr]; subst.
      rewrite Hm. apply IH. exact Hr.
Qed.

Lemma getPathFrom_stuck (parts : list string) :
  forall v, getPathFrom v parts = (VNil, false) <-> stuck v parts.
Proof.
  induction parts as [|part rest IH]; intros v; simpl.
  - split; [discriminate | inversion 1].
  - split.
    + destruct v; try (intros _; apply stuck_not_document; discriminate).
      destruct (mapGet m part) as [x|] eqn:E.
      * intros H. apply IH in H. eapply stuck_later; eauto.
      * intros _. apply stuck_missing. exact E.
    + inversion 1 as [v' p' r' Hn | m p' r' Hm | m p' r' x Hm Hs]; subst.
      * destruct v; try reflexivity. exfalso. eapply Hn. reflexivity.
      * rewrite Hm. reflexivity.
      * rewrite Hm. apply IH. exact Hs.
Qed.

Lemma getPathFrom_total (parts : list string) :
  forall v, getPathFrom v parts = (VNil, false) \/
            exists w, getPathFrom v parts = (w, true).
Proof.
  induction parts as [|part rest IH]; intros v; simpl.
  - right. eexists. reflexivity.
  - destruct v; auto.
    destruct (mapGet m part); auto.
Qed.

(** C10: [getPath doc []] is the whole document with [ok = true];
    [getPath] returns [(nil, false)] exactly when some step of the path meets
    a value that is not a document or a missing key, and otherwise returns the
    value at the path with [ok = true]. *)
Theorem getPath_resolves (doc : document) :
  getPath doc [] = (VMap doc, true) /\
  forall parts,
    (getPath doc parts = (VNil, false) <-> stuck (VMap doc) parts) /\
    (forall v, getPath doc parts = (v, true) <-> reaches (VMap doc) parts v) /\
    (stuck (VMap doc) parts \/ exists v, getPath doc parts = (v, true)).
Proof.
  split; [reflexivity|].
  intros parts. unfold getPath. split; [|split].
  - apply getPathFrom_stuck.
  - intros v. apply getPathFrom_reaches.
  - destruct (getPathFrom_total parts (VMap doc)) as [H|H]; [left|right; exact H].
    apply getPathFrom_stuck. exact H.
Qed.

(** The two cases of [Test_getPath]. *)
Example getPath_test :
  let object := [("a", VMap [("b", VInt KInt 1)])] in
  getPath object ["a"; "b"] = (VInt KInt 1, true) /\
  getPath object ["a"; "c"] = (VNil, false).
Proof. split; reflexivity. Qed.

(** ** The path flattener *)

(** C3: for a value that is a nested document the flattener recurses with
    the current key alone as prefix, whatever prefix had been accumulated; so
    the fingerprints of a nested document do not depend on the outer prefix,
    two levels down the outer key is lost, and [{"a":{"b":{"c":1}}}] gives the single fingerprint [b.c=1] (for the
    number read as an [int], or as the [float64] that the JSON decoder
    makes). *)
Theorem getPathValues_nested_prefix (L : GoLib) :
  (forall key t rest prefix,
      getPathValues L ((key, VMap t) :: rest) prefix
      = (getPathValues L t key ++ getPathValues L rest prefix)%list) /\
  (forall key t prefix prefix',
      getPathValues L [(key, VMap t)] prefix = getPathValues L [(key, VMap t)] prefix') /\
  (forall key key' t prefix,
      getPathValues L [(key, VMap [(key', VMap t)])] prefix = getPathValues L t key') /\
  getPathValues L [("a", VMap [("b", VMap [("c", VInt KInt 1)])])] "" = ["b.c=1"] /\
  getPathValues L [("a", VMap [("b", VMap [("c", VInt KInt 1)])])] "" <> ["a.b.c=1"] /\
  (forall f,
      getPathValues L [("a", VMap [("b", VMap [("c", VFloat64 f)])])] ""
      = ["b.c=" ++ formatFloat64 L f]).
Proof.
  split; [|split; [|split; [|split; [|split]]]].
  - intros key t rest prefix. reflexivity.
  - intros key t prefix prefix'. reflexivity.
  - intros key key' t prefix. unfold getPathValues. simpl.
    rewrite !app_nil_r. reflexivity.
  - vm_compute. reflexivity.
  - vm_compute. discriminate.
  - intros f. reflexivity.
Qed.

(** The cases of [Test_getPathValues] (in the order of the literals). *)
Example getPathValues_test (L : GoLib) :
  getPathValues L [("a", VInt KInt 2); ("b", VInt KInt 4); ("c", VString "hey im here")] ""
  = ["a=2"; "b=4"; "c=hey im here"] /\
  getPathValues L [("a", VMap [("12", VString "19")])] "" = ["a.12=19"].
Proof. split; reflexivity. Qed.

(** ** The lexer and the parser *)

(** The cases of [Test_lexString]. *)
Example lexString_test (L : GoLib) :
  lexString L (runes "a.b:c") 0 = ("a.b", 3, None) /\
  lexString L (runes (quote ++ "a b : . 2" ++ quote ++ ":12")) 0 = ("a b : . 2", 11, None) /\
  lexString L (runes " a:2") 0 = ("", 0, Some NoStringFound) /\
  lexString L (runes " a:2") 1 = ("a", 2, None).
Proof. repeat split; vm_compute; reflexivity. Qed.

Lemma eatWhitespace_ge (L : GoLib) (l : list rune) :
  forall i j, eatWhitespace L l i = Some j -> i <= j.
Proof.
  induction l as [|c t IH]; intros i j; simpl; [discriminate|].
  destruct (IsSpace _ c).
  - intros H. apply IH in H. lia.
  - intros [= ->]. lia.
Qed.

Lemma lexQuoted_ge (l : list rune) :
  forall index s r j e, lexQuoted l index s = (r, j, e) -> index <= j.
Proof.
  induction l as [|c t IH]; intros index s r j e; simpl.
  - intros [= _ <- _]. lia.
  - destruct (c =? 34)%Z.
    + intros [= _ <- _]. lia.
    + intros H. apply IH in H. lia.
Qed.

Lemma lexBare_ge (L : GoLib) (l : list rune) :
  forall index s s' j, lexBare L l index s = (s', j) -> index <= j.
Proof.
  induction l as [|c t IH]; intros index s s' j; simpl.
  - intros [= _ <-]. lia.
  - destruct (negb _).
    + intros [= _ <-]. lia.
    + intros H. apply IH in H. lia.
Qed.

Lemma lexString_ge (L : GoLib) (input : list rune) (index : nat) r j e :
  lexString L input index = (r, j, e) -> index <= j.
Proof.
  unfold lexString. destruct (drop index input) as [|c t].
  - intros [= _ <- _]. lia.
  - destruct (c =? 34)%Z.
    + intros H. apply lexQuoted_ge in H. lia.
    + destruct (lexBare L (c :: t) index []) as [s j'] eqn:E.
      apply lexBare_ge in E.
      destruct s; intros [= _ <- _]; lia.
Qed.

Lemma parseLoop_bounded (L : GoLib) (q : string) (qRune : list rune) (fuel : nat) :
  forall i parsed,
    length qRune <= fuel + i -> parseLoop L q qRune fuel i parsed <> OutOfFuel.
Proof.
  induction fuel as [|fuel IH]; intros i parsed Hf.
  - simpl. destruct (i <? length qRune)%nat eqn:E; simpl; [|discriminate].
    apply Nat.ltb_lt in E. lia.
  - simpl. destruct (i <? length qRune)%nat eqn:E; simpl; [|discriminate].
    destruct (eatWhitespace L (drop i qRune) i) as [i1|] eqn:Ew; [|discriminate].
    apply eatWhitespace_ge in Ew.
    destruct (lexString L qRune i1) as [[k n1] e1] eqn:E1.
    apply lexString_ge in E1.
    destruct e1; [destruct (suffixFrom q n1); discriminate|].
    destruct (byteAt q n1) as [c|]; [|discriminate].
    destruct (negb (Ascii.eqb c ":")); [destruct (suffixFrom q n1); discriminate|].
    destruct (byteAt q (n1 + 1)) as [c2|]; [|discriminate].
    destruct (Ascii.eqb c2 ">" || Ascii.eqb c2 "<").
    + destruct (byteAt q (S (n1 + 1))) as [c3|]; [|discriminate].
      destruct (lexString L qRune (S (n1 + 1))) as [[v n2] e2] eqn:E2.
      apply lexString_ge in E2.
      destruct e2; [destruct (suffixFrom q n2); discriminate|].
      apply IH. lia.
    + destruct (lexString L qRune (n1 + 1)) as [[v n2] e2] eqn:E2.
      apply lexString_ge in E2.
      destruct e2; [destruct (suffixFrom q n2); discriminate|].
      apply IH. lia.
Qed.

(** The recursion bound of [parseQuery] is never reached: every call ends
    with a query, a returned error or a panic. *)
Lemma parseQuery_bounded (L : GoLib) (q : string) : parseQuery L q <> OutOfFuel.
Proof.
  unfold parseQuery. destruct (String.eqb q ""); [discriminate|].
  apply parseLoop_bounded. lia.
Qed.

(** *** Facts on texts, bytes and runes *)

Lemma byteAt_lt (q : string) :
  forall n c, byteAt q n = Some c -> n < len q.
Proof.
  unfold byteAt, len.
  induction q as [|a t IH]; intros n c; simpl; [discriminate|].
  destruct n as [|n]; [lia|]. intros H. apply IH in H. lia.
Qed.

Lemma byteAt_app (q ws : string) :
  forall n c, byteAt q n = Some c -> byteAt (q ++ ws) n = Some c.
Proof.
  unfold byteAt.
  induction q as [|a t IH]; intros n c; simpl; [discriminate|].
  destruct n as [|n]; [trivial | apply IH].
Qed.

Lemma byteAt_drop (q : string) :
  forall n c, byteAt q n = Some c ->
              drop n (bytes q) = byteZ c :: drop (S n) (bytes q).
Proof.
  unfold byteAt, bytes.
  induction q as [|a t IH]; intros n c; simpl; [discriminate|].
  destruct n as [|n].
  - intros [= ->]. reflexivity.
  - intros H. apply IH in H. exact H.
Qed.

Lemma length_bytes (q : string) : length (bytes q) = len q.
Proof.
  unfold bytes, len. rewrite length_map.
  induction q as [|a t IH]; simpl; [reflexivity | rewrite IH; reflexivity].
Qed.

Lemma bytes_app (q ws : string) : bytes (q ++ ws) = (bytes q ++ bytes ws)%list.
Proof.
  unfold bytes. induction q as [|a t IH]; simpl; [reflexivity|].
  rewrite IH. reflexivity.
Qed.

Lemma decodeFrom_ascii (l : list Z) :
  Forall (fun b => (b < 128)%Z) l -> decodeFrom 0 l = l.
Proof.
  induction 1 as [|b t Hb Ht IH]; simpl; [reflexivity|].
  unfold decodeRune. rewrite (proj2 (Z.ltb_lt b 128) Hb). simpl.
  rewrite IH. reflexivity.
Qed.

(** The runes of an ASCII text are its bytes. *)
Lemma runes_ascii (q : string) : isAscii q -> runes q = bytes q.
Proof. apply decodeFrom_ascii. Qed.

Lemma stringOfByte_angle (c : ascii) :
  stringOfByte c = ">" \/ stringOfByte c = "<" ->
  byteZ c = 62%Z \/ byteZ c = 60%Z.
Proof.
  destruct c as [b0 b1 b2 b3 b4 b5 b6 b7].
  destruct b0, b1, b2, b3, b4, b5, b6, b7; vm_compute;
    intros [H | H]; try discriminate H; auto.
Qed.

(** *** One turn of the loop *)

(** An atom cannot start with [>] or [<]. *)
Lemma lexString_angle (L : GoLib) (input : list rune) (index : nat) (r : rune)
    (t : list rune) :
  drop index input = r :: t -> r = 62%Z \/ r = 60%Z ->
  lexString L input index = ("", index, Some NoStringFound).
Proof.
  intros Hd Hr. unfold lexString. rewrite Hd.
  destruct Hr as [-> | ->]; reflexivity.
Qed.

(** The colon check, at any turn of the loop: past the end of the input
    the call panics, on a byte other than [:] the error is returned with the
    offset and the rest of the input. *)
Lemma parseLoop_colon_check (L : GoLib) (q : string) (qRune : list rune)
    (fuel i : nat) (parsed : list queryComparison) (i' : nat) (k : string) (n : nat) :
  i < length qRune ->
  eatWhitespace L (drop i qRune) i = Some i' ->
  lexString L qRune i' = (k, n, None) ->
  (byteAt q n = None -> parseLoop L q qRune (S fuel) i parsed = Panic) /\
  (forall c, byteAt q n = Some c -> c <> ":"%char ->
             parseLoop L q qRune (S fuel) i parsed
             = Err (ExpectedColon n (sliceFrom q n))).
Proof.
  intros Hi Hw Hl. apply Nat.ltb_lt in Hi.
  split.
  - intros Hb. simpl. rewrite Hi, Hw, Hl, Hb. reflexivity.
  - intros c Hb Hc. simpl. rewrite Hi, Hw, Hl, Hb.
    apply Ascii.eqb_neq in Hc. rewrite Hc. simpl.
    unfold suffixFrom. apply byteAt_lt in Hb.
    rewrite (proj2 (Nat.leb_le n (len q))) by lia. reflexivity.
Qed.

(** *** The operator *)

(** On an ASCII query no turn of the loop records [>] or [<] as operator:
    the byte taken as operator is the one the value atom starts with, and an
    atom cannot start with [>] or [<]. *)
Lemma parseLoop_no_angle (L : GoLib) (q : string) (qRune : list rune) (fuel : nat) :
  qRune = bytes q ->
  forall i parsed r,
    Forall noAngle parsed ->
    parseLoop L q qRune fuel i parsed = Ok r ->
    Forall noAngle (ands r).
Proof.
  intros HR.
  induction fuel as [|fuel IH]; intros i parsed r Hparsed; simpl.
  - destruct (i <? length qRune)%nat; simpl; [intros [=]|].
    intros [= <-]. exact Hparsed.
  - destruct (i <? length qRune)%nat; simpl; [|intros [= <-]; exact Hparsed].
    destruct (eatWhitespace L (drop i qRune) i) as [i1|]; [|intros [=]].
    destruct (lexString L qRune i1) as [[k n1] e1].
    destruct e1; [destruct (suffixFrom q n1); intros [=]|].
    destruct (byteAt q n1) as [c|]; [|intros [=]].
    destruct (negb (Ascii.eqb c ":")); [destruct (suffixFrom q n1); intros [=]|].
    destruct (byteAt q (n1 + 1)) as [c2|]; [|intros [=]].
    destruct (Ascii.eqb c2 ">" || Ascii.eqb c2 "<").
    + destruct (byteAt q (S (n1 + 1))) as [c3|] eqn:E3; [|intros [=]].
      destruct (lexString L qRune (S (n1 + 1))) as [[v n2] e2] eqn:E2.
      destruct e2; [destruct (suffixFrom q n2); intros [=]|].
      apply IH. apply Forall_app. split; [exact Hparsed|].
      constructor; [|constructor].
      assert (Hn : ~ (stringOfByte c3 = ">" \/ stringOfByte c3 = "<")).
      { intros Ha. apply stringOfByte_angle in Ha.
        apply byteAt_drop in E3. rewrite <- HR in E3.
        rewrite (lexString_angle L _ _ _ _ E3 Ha) in E2.
        discriminate E2. }
      split; simpl; intros Ha; apply Hn; auto.
    + destruct (lexString L qRune (n1 + 1)) as [[v n2] e2].
      destruct e2; [destruct (suffixFrom q n2); intros [=]|].
      apply IH. apply Forall_app. split; [exact Hparsed|].
      constructor; [|constructor]. split; simpl; discriminate.
Qed.

(** C1: the parser does not take the consumed [>] or [<] as the operator:
    it moves past it first and takes the byte that follows.  On
    ["a.b:1 c:>2"] the operator recorded for [c] is ["2"], where
    [Test_parseQuery] expects [">"], and on ["a:<1"] it is ["1"], not ["<"];
    no ASCII query at all is parsed to a predicate of operator [>] or [<]. *)
Theorem parseQuery_operator_is_next_byte (L : GoLib) :
  parseQuery L "a.b:1 c:>2"
  = Ok {| ands := [ {| key := ["a"; "b"]; value := "1"; op := "=" |};
                    {| key := ["c"]; value := "2"; op := "2" |} ] |} /\
  parseQuery L "a:<1"
  = Ok {| ands := [ {| key := ["a"]; value := "1"; op := "1" |} ] |} /\
  (forall q r,
      isAscii q -> parseQuery L q = Ok r ->
      Forall (fun p => op p <> ">" /\ op p <> "<") (ands r)).
Proof.
  split; [vm_compute; reflexivity|]. split; [vm_compute; reflexivity|].
  intros q r Hq. unfold parseQuery.
  destruct (String.eqb q "").
  - intros [= <-]. constructor.
  - apply parseLoop_no_angle; [apply runes_ascii, Hq | constructor].
Qed.

(** The ASCII query ["c:>2"] parses, and not to the operator [>]. *)
Lemma parseQuery_operator_is_next_byte_witness :
  Forall (fun p => op p <> ">" /\ op p <> "<")
    [ {| key := ["c"]; value := "2"; op := "2" |} ].
Proof.
  apply (proj2 (proj2 (parseQuery_operator_is_next_byte latin1Lib)) "c:>2"
           {| ands := [ {| key := ["c"]; value := "2"; op := "2" |} ] |}).
  - unfold isAscii. vm_compute. repeat constructor.
  - vm_compute. reflexivity.
Defined.

(** C6: at any turn of the loop, when the input ends right after the key
    atom the parser indexes the string past its end and panics, where an
    expected-colon error was to be returned; when a byte other than [:]
    follows the key atom, the error is returned with the offset and the rest
    of the input. *)
Theorem parseQuery_missing_colon (L : GoLib) :
  parseQuery L "a" = Panic /\
  parseQuery L "a.b" = Panic /\
  parseQuery L "a:1 b" = Panic /\
  parseQuery L "a b" = Err (ExpectedColon 1 " b") /\
  parseQuery L "a.b=1" = Err (ExpectedColon 3 "=1") /\
  (forall q qRune fuel i parsed i' k n,
      i < length qRune ->
      eatWhitespace L (drop i qRune) i = Some i' ->
      lexString L qRune i' = (k, n, None) ->
      (byteAt q n = None -> parseLoop L q qRune (S fuel) i parsed = Panic) /\
      (forall c, byteAt q n = Some c -> c <> ":"%char ->
                 parseLoop L q qRune (S fuel) i parsed
                 = Err (ExpectedColon n (sliceFrom q n)))).
Proof.
  repeat (split; [vm_compute; reflexivity|]).
  intros q qRune fuel i parsed i' k n. apply parseLoop_colon_check.
Qed.

(** The second turn of the loop on ["a:1 b"]: the input ends after the key
    atom [b]. *)
Lemma parseQuery_missing_colon_witness :
  parseLoop latin1Lib "a:1 b" (runes "a:1 b") 4 3
    [ {| key := ["a"]; value := "1"; op := "=" |} ] = Panic.
Proof.
  apply (proj2 (proj2 (proj2 (proj2 (proj2 (parseQuery_missing_colon latin1Lib)))))
           "a:1 b" (runes "a:1 b") 3 3
           [ {| key := ["a"]; value := "1"; op := "=" |} ] 4 "b" 5).
  - vm_compute. lia.
  - vm_compute. reflexivity.
  - vm_compute. reflexivity.
  - vm_compute. reflexivity.
Defined.

(** The parser indexes the bytes of the query with positions counted in
    runes; past a character of more than one byte the two differ: the colon
    after the key is missed, or a colon inside a quoted key is taken for
    it (and then white space after the query is never looked at). *)
Example parseQuery_rune_positions (L : GoLib) :
  parseQuery L (eacute ++ ":1")
  = Err (ExpectedColon 1 (String (ascii_of_nat 169) ":1")) /\
  parseQuery L (quote ++ eacute ++ eacute ++ "a:" ++ quote ++ " ")
  = Ok {| ands := [ {| key := [eacute ++ eacute ++ "a:"]; value := ""; op := "=" |} ] |}.
Proof. split; vm_compute; reflexivity. Qed.

(** *** Trailing white space *)

Lemma isAsciiSpace_cases (b : Z) :
  isAsciiSpace b ->
  b = 9%Z \/ b = 10%Z \/ b = 11%Z \/ b = 12%Z \/ b = 13%Z \/ b = 32%Z.
Proof. unfold isAsciiSpace. lia. Qed.

Lemma IsSpace_blank (L : GoLib) (b : Z) :
  isAsciiSpace b -> IsSpace (unicodeTables L) b = true.
Proof.
  intros H. apply isAsciiSpace_cases in H.
  destruct H as [-> | [-> | [-> | [-> | [-> | ->]]]]]; reflexivity.
Qed.

Lemma not_atom_blank (L : GoLib) (b : Z) :
  isAsciiSpace b ->
  negb (IsLetter (unicodeTables L) b || IsDigit (unicodeTables L) b || (b =? 46)%Z)
  = true.
Proof.
  intros H. apply isAsciiSpace_cases in H.
  destruct H as [-> | [-> | [-> | [-> | [-> | ->]]]]]; reflexivity.
Qed.

Lemma eatWhitespace_blank (L : GoLib) (W : list rune) :
  Forall isAsciiSpace W -> forall i, eatWhitespace L W i = None.
Proof.
  induction 1 as [|b t Hb Ht IH]; intros i; simpl; [reflexivity|].
  rewrite (IsSpace_blank L b Hb). apply IH.
Qed.

Lemma eatWhitespace_app (L : GoLib) (W l : list rune) :
  forall i j, eatWhitespace L l i = Some j -> eatWhitespace L (l ++ W) i = Some j.
Proof.
  induction l as [|c t IH]; intros i j; simpl; [discriminate|].
  destruct (IsSpace _ c); [apply IH | trivial].
Qed.

Lemma eatWhitespace_lt (L : GoLib) (l : list rune) :
  forall i j, eatWhitespace L l i = Some j -> j < i + length l.
Proof.
  induction l as [|c t IH]; intros i j; simpl; [discriminate|].
  destruct (IsSpace _ c).
  - intros H. apply IH in H. lia.
  - intros [= ->]. lia.
Qed.

Lemma lexQuoted_app (W l : list rune) :
  forall index s k n,
    lexQuoted l index s = (k, n, None) -> lexQuoted (l ++ W) index s = (k, n, None).
Proof.
  induction l as [|c t IH]; intros index s k n; simpl; [discriminate|].
  destruct (c =? 34)%Z; [trivial | apply IH].
Qed.

Lemma lexBare_app (L : GoLib) (W l : list rune) :
  Forall isAsciiSpace W ->
  forall index s, lexBare L (l ++ W) index s = lexBare L l index s.
Proof.
  intros HW. induction l as [|c t IH]; intros index s; simpl.
  - destruct HW as [|b W' Hb HW']; simpl; [reflexivity|].
    rewrite (not_atom_blank L b Hb). reflexivity.
  - destruct (negb _); [reflexivity | apply IH].
Qed.

(** An atom read before the end of the input is read the same when white
    space is appended to the input. *)
Lemma lexString_app (L : GoLib) (W input : list rune) (index : nat) k n :
  Forall isAsciiSpace W ->
  index < length input ->
  lexString L input index = (k, n, None) ->
  lexString L (input ++ W) index = (k, n, None).
Proof.
  intros HW Hi. unfold lexString.
  rewrite drop_app_le by lia.
  destruct (drop index input) as [|c t] eqn:E.
  - apply (f_equal length) in E. rewrite length_drop in E. simpl in E. lia.
  - cbn [app]. destruct (c =? 34)%Z.
    + apply lexQuoted_app.
    + change (c :: t ++ W)%list with ((c :: t) ++ W)%list.
      rewrite (lexBare_app L W (c :: t) HW). trivial.
Qed.

Lemma lexQuoted_le (l : list rune) :
  forall index s k n e, lexQuoted l index s = (k, n, e) -> n <= index + length l.
Proof.
  induction l as [|c t IH]; intros index s k n e; simpl.
  - intros [= _ <- _]. lia.
  - destruct (c =? 34)%Z.
    + intros [= _ <- _]. lia.
    + intros H. apply IH in H. lia.
Qed.

Lemma lexBare_le (L : GoLib) (l : list rune) :
  forall index s s' n, lexBare L l index s = (s', n) -> n <= index + length l.
Proof.
  induction l as [|c t IH]; intros index s s' n; simpl.
  - intros [= _ <-]. lia.
  - destruct (negb _).
    + intros [= _ <-]. lia.
    + intros H. apply IH in H. lia.
Qed.

(** The lexer does not move past the end of the input. *)
Lemma lexString_le (L : GoLib) (input : list rune) (index : nat) k n e :
  index <= length input ->
  lexString L input index = (k, n, e) -> n <= length input.
Proof.
  intros Hi. unfold lexString.
  destruct (drop index input) as [|c t] eqn:E.
  - intros [= _ <- _]. exact Hi.
  - apply (f_equal length) in E. rewrite length_drop in E. simpl in E.
    destruct (c =? 34)%Z.
    + intros H. apply lexQuoted_le in H. lia.
    + destruct (lexBare L (c :: t) index []) as [s j] eqn:F.
      apply lexBare_le in F. simpl in F.
      destruct s; intros [= _ <- _]; lia.
Qed.

(** Entered at the end of the query proper, with white space left, the loop
    panics. *)
Lemma parseLoop_at_blank (L : GoLib) (q' : string) (R W : list rune) (fuel : nat)
    (parsed : list queryComparison) :
  Forall isAsciiSpace W -> W <> [] ->
  parseLoop L q' (R ++ W) (S fuel) (length R) parsed = Panic.
Proof.
  intros HW Hne. simpl.
  assert (Hlt : (length R <? length (R ++ W))%nat = true).
  { apply Nat.ltb_lt. rewrite length_app. destruct W; [congruence | simpl; lia]. }
  rewrite Hlt. simpl.
  rewrite drop_app_length, (eatWhitespace_blank L W HW). reflexivity.
Qed.

(** The run on a query followed by white space goes as the run on the query
    up to its end, where it panics. *)
Lemma parseLoop_blank_suffix (L : GoLib) (q ws : string) (R W : list rune)
    (fuel : nat) :
  R = bytes q -> Forall isAsciiSpace W -> W <> [] ->
  forall i parsed r,
    i <= length R ->
    parseLoop L q R fuel i parsed = Ok r ->
    parseLoop L (q ++ ws) (R ++ W) (fuel + length W) i parsed = Panic.
Proof.
  intros HR HW Hne.
  assert (HlenW : exists m, length W = S m).
  { destruct W; [congruence | eexists; reflexivity]. }
  destruct HlenW as [m Hm].
  assert (Hend : forall fuel i parsed,
             i <= length R -> (i <? length R)%nat = false ->
             parseLoop L (q ++ ws) (R ++ W) (fuel + length W) i parsed = Panic).
  { intros f i parsed Hi Hlt. apply Nat.ltb_ge in Hlt.
    assert (i = length R) as -> by lia.
    rewrite Hm, Nat.add_succ_r. apply parseLoop_at_blank; assumption. }
  induction fuel as [|fuel IH]; intros i parsed r Hi.
  - simpl parseLoop at 1. destruct (i <? length R)%nat eqn:Ei; simpl; [intros [=]|].
    intros _. apply (Hend 0); assumption.
  - simpl parseLoop at 1. destruct (i <? length R)%nat eqn:Ei; simpl;
      [|intros _; apply (Hend (S fuel)); assumption].
    apply Nat.ltb_lt in Ei.
    destruct (eatWhitespace L (drop i R) i) as [i1|] eqn:Ew; [|intros [=]].
    destruct (lexString L R i1) as [[k n1] e1] eqn:E1.
    destruct e1; [destruct (suffixFrom q n1); intros [=]|].
    destruct (byteAt q n1) as [c|] eqn:B1; [|intros [=]].
    destruct (Ascii.eqb c ":") eqn:Ec; simpl;
      [|destruct (suffixFrom q n1); intros [=]].
    destruct (byteAt q (n1 + 1)) as [c2|] eqn:B2; [|intros [=]].
    pose proof (eatWhitespace_lt L _ _ _ Ew) as Hi1. rewrite length_drop in Hi1.
    assert (Hhead :
      forall X : outcome query parseError,
        (match byteAt (q ++ ws) (n1 + 1) with
         | None => Panic
         | Some c =>
             match
               (if Ascii.eqb c ">" || Ascii.eqb c "<" then
                  match byteAt (q ++ ws) (S (n1 + 1)) with
                  | None => None
                  | Some c' => Some (S (n1 + 1), stringOfByte c')
                  end
                else Some ((n1 + 1)%nat, "="))
             with
             | None => Panic
             | Some (i, op) =>
                 let '(value, nextIndex, err) := lexString L (R ++ W) i in
                 match err with
                 | Some e =>
                     match suffixFrom (q ++ ws) nextIndex with
                     | Some rest => Err (ExpectedValidValue e rest)
                     | None => Panic
                     end
                 | None =>
                     parseLoop L (q ++ ws) (R ++ W) (fuel + length W) nextIndex
                       (parsed ++ [ {| key := Split k "."; value := value; op := op |} ])
                 end
             end
         end) = X ->
        parseLoop L (q ++ ws) (R ++ W) (S fuel + length W) i parsed = X).
    { intros X HX. simpl.
      assert (Hlt : (i <? length (R ++ W))%nat = true).
      { apply Nat.ltb_lt. rewrite length_app. lia. }
      rewrite Hlt. simpl.
      rewrite drop_app_le by lia. rewrite (eatWhitespace_app L W _ _ _ Ew).
      rewrite (lexString_app L W R i1 k n1 HW) by (lia || exact E1).
      rewrite (byteAt_app q ws _ _ B1), Ec. simpl. exact HX. }
    assert (Hlen : length R = len q) by (rewrite HR; apply length_bytes).
    destruct (Ascii.eqb c2 ">" || Ascii.eqb c2 "<") eqn:Eop.
    + destruct (byteAt q (S (n1 + 1))) as [c3|] eqn:B3; [|intros [=]].
      destruct (lexString L R (S (n1 + 1))) as [[v n2] e2] eqn:E2.
      destruct e2; [destruct (suffixFrom q n2); intros [=]|].
      intros Hrun. apply Hhead.
      rewrite (byteAt_app q ws _ _ B2), Eop, (byteAt_app q ws _ _ B3).
      pose proof (byteAt_lt q _ _ B3) as Hb3.
      rewrite (lexString_app L W R (S (n1 + 1)) v n2 HW) by (lia || exact E2).
      apply (IH n2 _ r); [|exact Hrun].
      apply (lexString_le L R (S (n1 + 1)) v n2 None); [lia | exact E2].
    + destruct (lexString L R (n1 + 1)) as [[v n2] e2] eqn:E2.
      destruct e2; [destruct (suffixFrom q n2); intros [=]|].
      intros Hrun. apply Hhead.
      rewrite (byteAt_app q ws _ _ B2), Eop.
      pose proof (byteAt_lt q _ _ B2) as Hb2.
      rewrite (lexString_app L W R (n1 + 1) v n2 HW) by (lia || exact E2).
      apply (IH n2 _ r); [|exact Hrun].
      apply (lexString_le L R (n1 + 1) v n2 None); [lia | exact E2].
Qed.

Lemma isAsciiSpace_ascii (W : list Z) :
  Forall isAsciiSpace W -> Forall (fun b => (b < 128)%Z) W.
Proof.
  induction 1 as [|b t Hb Ht IH]; constructor; [|exact IH].
  unfold isAsciiSpace in Hb. lia.
Qed.

(** C5: a query with trailing white space is not parsed.  For every ASCII
    query that is parsed, the same query followed by white space makes the
    call panic: after the last predicate the loop that skips white space
    runs past the end of the input.  The call panics too when white space is
    all there is. *)
Theorem parseQuery_trailing_whitespace_panics (L : GoLib) :
  parseQuery L "a:1" = Ok {| ands := [ {| key := ["a"]; value := "1"; op := "=" |} ] |} /\
  parseQuery L "a:1 " = Panic /\
  parseQuery L " " = Panic /\
  (forall q ws r,
      isAscii q -> isBlank ws ->
      parseQuery L q = Ok r -> parseQuery L (q ++ ws) = Panic).
Proof.
  repeat (split; [vm_compute; reflexivity|]).
  intros q ws r Hq [Hne HW] Hrun.
  assert (HneW : bytes ws <> []) by (destruct ws; [congruence | discriminate]).
  assert (Hrunes : runes (q ++ ws) = (bytes q ++ bytes ws)%list).
  { rewrite <- bytes_app. apply runes_ascii. unfold isAscii.
    rewrite bytes_app. apply Forall_app. split; [exact Hq|].
    apply isAsciiSpace_ascii, HW. }
  unfold parseQuery in *. rewrite Hrunes.
  assert (Hnz : String.eqb (q ++ ws) "" = false).
  { apply String.eqb_neq. destruct q; simpl; [exact Hne | discriminate]. }
  rewrite Hnz, length_app.
  destruct (String.eqb q "") eqn:Eq.
  - apply String.eqb_eq in Eq. subst q. simpl.
    destruct (bytes ws) as [|b W] eqn:EW; [congruence|].
    apply (parseLoop_at_blank L ws [] (b :: W) (length W) []); [exact HW | discriminate].
  - rewrite (runes_ascii q Hq) in Hrun.
    apply (parseLoop_blank_suffix L q ws (bytes q) (bytes ws) (length (bytes q))
             eq_refl HW HneW 0 [] r); [lia | exact Hrun].
Qed.

(** The query ["a:1"] followed by a space and a tab. *)
Lemma parseQuery_trailing_whitespace_panics_witness :
  parseQuery latin1Lib ("a:1" ++ String " " (String (ascii_of_nat 9) "")) = Panic.
Proof.
  apply (proj2 (proj2 (proj2 (parseQuery_trailing_whitespace_panics latin1Lib)))
           "a:1" (String " " (String (ascii_of_nat 9) ""))
           {| ands := [ {| key := ["a"]; value := "1"; op := "=" |} ] |}).
  - unfold isAscii. vm_compute. repeat constructor.
  - split; [discriminate|].
    change (Forall isAsciiSpace [32%Z; 9%Z]).
    repeat (apply List.Forall_cons; [unfold isAsciiSpace; lia|]).
    apply List.Forall_nil.
  - vm_compute. reflexivity.
Defined.

(** ** The match evaluator *)

Lemma SFcompare_antisym (x y : float64) :
  SFcompare y x = option_map CompOpp (SFcompare x y).
Proof.
  destruct x as [sx|sx| |sx mx ex], y as [sy|sy| |sy my ey]; simpl;
    try reflexivity;
    try (destruct sx; reflexivity); try (destruct sy; reflexivity);
    try (destruct sx, sy; reflexivity).
  destruct sx, sy; simpl; try reflexivity;
    rewrite (Z.compare_antisym ex ey); destruct (ex ?= ey)%Z; simpl;
    try reflexivity;
    rewrite (Pos.compare_cont_antisym mx my Eq); reflexivity.
Qed.

Lemma SFcompare_not_nan (x y : float64) :
  x <> S754_nan -> y <> S754_nan -> exists c, SFcompare x y = Some c.
Proof.
  intros Hx Hy.
  destruct x as [sx|sx| |sx mx ex], y as [sy|sy| |sy my ey]; simpl;
    try congruence; eexists; reflexivity.
Qed.

(** On numbers, "not [left <= right]" is "[left > right]", and "not
    [left >= right]" is "[left < right]". *)
Lemma not_SFleb_is_SFltb (x y : float64) :
  x <> S754_nan -> y <> S754_nan -> negb (SFleb x y) = SFltb y x.
Proof.
  intros Hx Hy. destruct (SFcompare_not_nan x y Hx Hy) as [c Hc].
  unfold SFleb, SFltb. rewrite (SFcompare_antisym x y), Hc.
  destruct c; reflexivity.
Qed.

(** With a [NaN] operand both [<=] and [<] are false. *)
Lemma SFleb_nan (x : float64) :
  SFleb S754_nan x = false /\ SFleb x S754_nan = false /\
  SFltb S754_nan x = false /\ SFltb x S754_nan = false.
Proof. destruct x; repeat split; reflexivity. Qed.


(** What a range predicate does: it fails when the path does not resolve,
    when the value of the predicate does not parse, when the value of the
    document is not a number or a string that parses; otherwise [>] passes
    unless [left <= right], and any other operator unless [left >= right]. *)
Lemma matchArgument_range (L : GoLib) (argument : queryComparison) (doc : document) :
  op argument <> "=" ->
  matchArgument L argument doc =
  match getPath doc (key argument) with
  | (_, false) => false
  | (v, true) =>
      match ParseFloat L (value argument), leftOperand L v with
      | Some right_, Some left_ =>
          if String.eqb (op argument) ">" then negb (SFleb left_ right_)
          else negb (SFleb right_ left_)
      | _, _ => false
      end
  end.
Proof.
  intros He. apply String.eqb_neq in He. unfold matchArgument.
  destruct (getPath doc (key argument)) as [v [|]]; simpl; [|reflexivity].
  rewrite He.
  destruct (ParseFloat L (value argument)); [|reflexivity].
  destruct (leftOperand L v); [|reflexivity].
  destruct (String.eqb (op argument) ">"), (SFleb _ _); reflexivity.
Qed.

(** On operands that are numbers, [>] passes exactly when [left > right] and
    [<] exactly when [left < right]; equal operands fail both. *)
Lemma matchArgument_range_numbers (L : GoLib) (argument : queryComparison)
    (doc : document) (v : any) (left_ right_ : float64) :
  getPath doc (key argument) = (v, true) ->
  ParseFloat L (value argument) = Some right_ ->
  leftOperand L v = Some left_ ->
  left_ <> S754_nan -> right_ <> S754_nan ->
  (op argument = ">" -> matchArgument L argument doc = SFltb right_ left_) /\
  (op argument = "<" -> matchArgument L argument doc = SFltb left_ right_) /\
  (SFeqb left_ right_ = true ->
   op argument = ">" \/ op argument = "<" -> matchArgument L argument doc = false).
Proof.
  intros Hp Hr Hl Hnl Hnr.
  assert (Hgt : op argument = ">" -> matchArgument L argument doc = SFltb right_ left_).
  { intros Ho. rewrite matchArgument_range by (rewrite Ho; discriminate).
    rewrite Hp, Hr, Hl, Ho. simpl. apply not_SFleb_is_SFltb; assumption. }
  assert (Hlt : op argument = "<" -> matchArgument L argument doc = SFltb left_ right_).
  { intros Ho. rewrite matchArgument_range by (rewrite Ho; discriminate).
    rewrite Hp, Hr, Hl, Ho. simpl. apply not_SFleb_is_SFltb; assumption. }
  split; [exact Hgt|split; [exact Hlt|]].
  intros Heq [Ho|Ho].
  - rewrite (Hgt Ho). unfold SFltb. unfold SFeqb in Heq.
    rewrite (SFcompare_antisym left_ right_).
    destruct (SFcompare left_ right_) as [[| |]|]; try discriminate. reflexivity.
  - rewrite (Hlt Ho). unfold SFltb. unfold SFeqb in Heq.
    destruct (SFcompare left_ right_) as [[| |]|]; try discriminate. reflexivity.
Qed.

(** C4: a range predicate on an operand that is not a number.  The value
    of the predicate is parsed first, and the value of the document coerced,
    as specified (see [matchArgument_range] and, for operands that are
    numbers, [matchArgument_range_numbers]); but the final tests are written
    as "fail if [left <= right]" and "fail if [left >= right]", which are both
    false when an operand is [NaN] ([ParseFloat] reads ["NaN"]): the predicate
    then passes though neither [left > right] nor [left < right] holds. *)
Theorem range_comparison_passes_on_nan (L : GoLib) (argument : queryComparison)
    (doc : document) (v : any) (left_ right_ : float64) :
  op argument <> "=" ->
  getPath doc (key argument) = (v, true) ->
  ParseFloat L (value argument) = Some right_ ->
  leftOperand L v = Some left_ ->
  left_ = S754_nan \/ right_ = S754_nan ->
  matchArgument L argument doc = true /\
  SFltb left_ right_ = false /\ SFltb right_ left_ = false.
Proof.
  intros He Hp Hr Hl Hnan.
  rewrite matchArgument_range by exact He. rewrite Hp, Hr, Hl.
  destruct Hnan as [-> | ->].
  - destruct (SFleb_nan right_) as (H1 & H2 & H3 & H4).
    rewrite H1, H2, H3, H4. destruct (String.eqb _ _); auto.
  - destruct (SFleb_nan left_) as (H1 & H2 & H3 & H4).
    rewrite H1, H2, H3, H4. destruct (String.eqb _ _); auto.
Qed.

(** The document [{"a":"NaN"}] passes [a < 5]. *)
Lemma range_comparison_passes_on_nan_witness :
  matchArgument latin1Lib {| key := ["a"]; value := "5"; op := "<" |}
    [("a", VString "NaN")] = true /\
  SFltb S754_nan (S754_finite false 5629499534213120 (-50)) = false /\
  SFltb (S754_finite false 5629499534213120 (-50)) S754_nan = false.
Proof.
  apply (range_comparison_passes_on_nan latin1Lib
           {| key := ["a"]; value := "5"; op := "<" |}
           [("a", VString "NaN")] (VString "NaN")
           S754_nan (S754_finite false 5629499534213120 (-50))).
  - discriminate.
  - reflexivity.
  - vm_compute. reflexivity.
  - vm_compute. reflexivity.
  - left. reflexivity.
Defined.






(** The same query on [{"c":1}] and on [{"c":3}]: the first matches, the
    second does not. *)
Example greater_than_query_on_1_and_3 :
  refParseFloat "1" = Some (S754_finite false 4503599627370496 (-52)) /\
  refParseFloat "3" = Some (S754_finite false 6755399441055744 (-51)) /\
  query_match latin1Lib {| ands := [ {| key := ["c"]; value := "2"; op := "2" |} ] |}
    [("c", VFloat64 (S754_finite false 4503599627370496 (-52)))] = true /\
  query_match latin1Lib {| ands := [ {| key := ["c"]; value := "2"; op := "2" |} ] |}
    [("c", VFloat64 (S754_finite false 6755399441055744 (-51)))] = false.
Proof. repeat split; vm_compute; reflexivity. Qed.

(** ** The index writer *)

Lemma length_string_of_list_ascii (l : list ascii) :
  String.length (string_of_list_ascii l) = length l.
Proof. induction l as [|c l IH]; simpl; [reflexivity | rewrite IH; reflexivity]. Qed.

(** No piece of a split is longer than the text that was split. *)
Lemma splitAcc_piece_length (sep : ascii) (s : string) :
  forall cur p, In p (splitAcc sep cur s) ->
                String.length p <= length cur + String.length s.
Proof.
  induction s as [|c t IH]; intros cur p; simpl.
  - intros [<- | []]. rewrite length_string_of_list_ascii, length_rev. lia.
  - destruct (Ascii.eqb c sep).
    + intros [<- | H].
      * rewrite length_string_of_list_ascii, length_rev. lia.
      * apply IH in H. simpl in H. lia.
    + intros H. apply IH in H. simpl in H. lia.
Qed.

(** A split is a single piece, or all its pieces are strictly shorter than
    the text. *)
Lemma splitAcc_single_or_shorter (sep : ascii) (s : string) :
  forall cur,
    (exists p, splitAcc sep cur s = [p]) \/
    (forall p, In p (splitAcc sep cur s) ->
               String.length p < length cur + String.length s).
Proof.
  induction s as [|c t IH]; intros cur; simpl.
  - left. eexists. reflexivity.
  - destruct (Ascii.eqb c sep).
    + right. intros p [<- | H].
      * rewrite length_string_of_list_ascii, length_rev. lia.
      * apply splitAcc_piece_length in H. simpl in H. lia.
    + destruct (IH (c :: cur)) as [H | H]; [left; exact H|].
      right. intros p Hp. apply H in Hp. simpl in Hp. lia.
Qed.

(** A text is at most once among its own pieces. *)
Lemma count_occ_Split_self (id : string) :
  count_occ string_dec (Split id ",") id <= 1.
Proof.
  unfold Split. destruct (splitAcc_single_or_shorter "," id []) as [[p Hp] | H].
  - rewrite Hp. simpl. destruct (string_dec p id); lia.
  - rewrite (proj1 (count_occ_not_In string_dec _ _)); [lia|].
    intros Hin. apply H in Hin. simpl in Hin. lia.
Qed.

Lemma splitAcc_app (sep : ascii) (a b : string) :
  forall cur,
    splitAcc sep cur (a ++ String sep b)
    = (splitAcc sep cur a ++ splitAcc sep [] b)%list.
Proof.
  induction a as [|c t IH]; intros cur; simpl.
  - rewrite Ascii.eqb_refl. reflexivity.
  - destruct (Ascii.eqb c sep); simpl; rewrite IH; reflexivity.
Qed.

Lemma Split_append_id (idsString id : string) :
  Split (idsString ++ "," ++ id) ","
  = (Split idsString "," ++ Split id ",")%list.
Proof. unfold Split. apply (splitAcc_app "," idsString id []). Qed.

Lemma existsb_eqb_count_occ (id : string) (ids : list string) :
  existsb (String.eqb id) ids = false -> count_occ string_dec ids id = 0.
Proof.
  induction ids as [|x t IH]; simpl; [reflexivity|].
  intros H. apply orb_false_iff in H as [Hx Ht].
  apply String.eqb_neq in Hx.
  destruct (string_dec x id); [congruence | auto].
Qed.

Lemma len_append_id (idsString id : string) :
  (len (idsString ++ "," ++ id) =? 0)%nat = false.
Proof.
  apply Nat.eqb_neq. unfold len.
  destruct idsString; simpl; lia.
Qed.

(** One turn of the loop of [index] keeps [id] at most once in the list it
    writes. *)
Lemma updatedIds_at_most_once (idsString id : string) :
  count_occ string_dec (idsOf idsString) id <= 1 ->
  count_occ string_dec (idsOf (updatedIds idsString id)) id <= 1.
Proof.
  intros H. unfold updatedIds.
  destruct (len idsString =? 0)%nat eqn:E.
  - unfold idsOf. destruct (len id =? 0)%nat; simpl; [lia|].
    apply count_occ_Split_self.
  - destruct (existsb (String.eqb id) (Split idsString ",")) eqn:F; simpl.
    + exact H.
    + unfold idsOf. rewrite len_append_id, Split_append_id, count_occ_app.
      rewrite (existsb_eqb_count_occ _ _ F).
      pose proof (count_occ_Split_self id). lia.
Qed.

Lemma postings_idsOf (idx : DB string) (pathValue : string) :
  postings idx pathValue
  = match cells idx !! pathValue with
    | Some v => idsOf v
    | None => []
    end.
Proof. reflexivity. Qed.

Lemma dbSet_at_most_once (idx : DB string) (id pathValue idsString : string) :
  atMostOnce id idx ->
  count_occ string_dec (idsOf idsString) id <= 1 ->
  atMostOnce id (fst (dbSet idx pathValue idsString)).
Proof.
  intros Hinv Hnew. unfold dbSet.
  destruct (setFails idx pathValue); simpl; [exact Hinv|].
  intros pv. rewrite postings_idsOf. simpl.
  destruct (decide (pathValue = pv)) as [-> | Hne].
  - rewrite lookup_insert_eq. exact Hnew.
  - rewrite lookup_insert_ne by exact Hne.
    specialize (Hinv pv). rewrite postings_idsOf in Hinv. exact Hinv.
Qed.

Lemma indexPathValues_preserves (id id' : string) (pv : list string) :
  (forall idsString,
      count_occ string_dec (idsOf idsString) id <= 1 ->
      count_occ string_dec (idsOf (updatedIds idsString id')) id <= 1) ->
  forall idx, atMostOnce id idx -> atMostOnce id (indexPathValues idx id' pv).
Proof.
  intros Hstep.
  induction pv as [|pathValue rest IH]; intros idx Hinv; simpl; [exact Hinv|].
  apply IH. apply dbSet_at_most_once; [exact Hinv|].
  apply Hstep.
  unfold dbGet. destruct (getFails idx pathValue); [simpl; lia|].
  specialize (Hinv pathValue). rewrite postings_idsOf in Hinv.
  destruct (cells idx !! pathValue); [exact Hinv | simpl; lia].
Qed.

Lemma indexPathValues_at_most_once (id : string) (pv : list string) :
  forall idx, atMostOnce id idx -> atMostOnce id (indexPathValues idx id pv).
Proof.
  apply indexPathValues_preserves.
  intros idsString. apply updatedIds_at_most_once.
Qed.

Lemma index_at_most_once (L : GoLib) (s : server) (id : string) (doc : document) :
  atMostOnce id (indexDb s) -> atMostOnce id (indexDb (index L s id doc)).
Proof. intros H. unfold index; simpl. apply indexPathValues_at_most_once, H. Qed.

(** C7: from an index store in which [id] is at most once in every posting
    list (the empty store is one), running [index(id, document)] any number
    of times leaves [id] at most once in every posting list; the same holds
    when the runs see the entries of the document in different orders, or
    get different documents.  It holds whichever reads and writes of the store
    fail. *)
Theorem index_posting_lists_deduplicated (L : GoLib) (s : server) (id : string)
    (doc : document) :
  atMostOnce id (indexDb s) ->
  (forall n, atMostOnce id (indexDb (Nat.iter n (fun s => index L s id doc) s))) /\
  (forall docs,
      atMostOnce id (indexDb (fold_left (fun s d => index L s id d) docs s))).
Proof.
  intros H. split.
  - induction n as [|n IH]; simpl; [exact H|].
    apply index_at_most_once, IH.
  - intros docs. revert s H.
    induction docs as [|d docs IH]; intros s H; simpl; [exact H|].
    apply IH. apply index_at_most_once, H.
Qed.

Lemma atMostOnce_empty (id : string) : atMostOnce id emptyDB.
Proof. intros pv. unfold postings; simpl. rewrite lookup_empty. simpl. lia. Qed.

(** Three runs for the document [{"a":"1","b":{"a":"1"}}] on an empty
    store. *)
Lemma index_posting_lists_deduplicated_witness :
  atMostOnce "id1"
    (indexDb (Nat.iter 3
                (fun s => index latin1Lib s "id1"
                            [("a", VString "1"); ("b", VMap [("a", VString "1")])])
                {| db := emptyDB; indexDb := emptyDB |})).
Proof.
  apply (index_posting_lists_deduplicated latin1Lib
           {| db := emptyDB; indexDb := emptyDB |} "id1"
           [("a", VString "1"); ("b", VMap [("a", VString "1")])]).
  intros pv. unfold postings; simpl. rewrite lookup_empty. simpl. lia.
Defined.

(** What the three runs leave in the store. *)
Example index_three_runs :
  map_to_list
    (cells (indexDb (Nat.iter 3
                (fun s => index latin1Lib s "id1"
                            [("a", VString "1"); ("b", VMap [("a", VString "1")])])
                {| db := emptyDB; indexDb := emptyDB |})))
  = [("a=1", "id1"); ("b.a=1", "id1")].
Proof. vm_compute. reflexivity. Qed.

Lemma string_of_list_ascii_snoc (l : list ascii) (c : ascii) (t : string) :
  string_of_list_ascii (l ++ [c]) ++ t = string_of_list_ascii l ++ String c t.
Proof.
  induction l as [|a l IH]; [reflexivity|].
  change (String a (string_of_list_ascii (l ++ [c]) ++ t)
          = String a (string_of_list_ascii l ++ String c t)).
  f_equal. exact IH.
Qed.

Lemma append_empty_r (s : string) : s ++ "" = s.
Proof.
  induction s as [|a s IH]; [reflexivity|].
  change (String a (s ++ "") = String a s). f_equal. exact IH.
Qed.

Lemma splitAcc_commaFree (s : string) :
  commaFree s ->
  forall cur, splitAcc "," cur s = [string_of_list_ascii (rev cur) ++ s].
Proof.
  unfold commaFree. induction s as [|c t IH]; simpl; intros H cur.
  - rewrite append_empty_r. reflexivity.
  - inversion H as [|c' t' Hc Ht]; subst.
    apply Ascii.eqb_neq in Hc. rewrite Hc.
    rewrite (IH Ht). simpl. rewrite string_of_list_ascii_snoc. reflexivity.
Qed.

(** An id without a comma is the only piece of its split. *)
Lemma Split_commaFree (id : string) : commaFree id -> Split id "," = [id].
Proof. intros H. unfold Split. rewrite (splitAcc_commaFree id H []). reflexivity. Qed.

(** Indexing under another id, one without a comma, does not add to the
    occurrences of [id]. *)
Lemma updatedIds_other_id (id id' idsString : string) :
  id <> id' -> commaFree id' ->
  count_occ string_dec (idsOf idsString) id <= 1 ->
  count_occ string_dec (idsOf (updatedIds idsString id')) id <= 1.
Proof.
  intros Hne Hc H. unfold updatedIds.
  destruct (len idsString =? 0)%nat eqn:E.
  - unfold idsOf. destruct (len id' =? 0)%nat; simpl; [lia|].
    rewrite (Split_commaFree id' Hc). simpl.
    destruct (string_dec id' id); [congruence | lia].
  - destruct (existsb (String.eqb id') (Split idsString ",")); simpl; [exact H|].
    unfold idsOf in *. rewrite E in H.
    rewrite len_append_id, Split_append_id, count_occ_app, (Split_commaFree id' Hc).
    simpl. destruct (string_dec id' id); [congruence | lia].
Qed.

(** In an index store built by the indexer under ids without a comma, every
    id is at most once in every posting list. *)
Lemma built_at_most_once (L : GoLib) (s : server) :
  built L s -> forall id, atMostOnce id (indexDb s).
Proof.
  induction 1 as [s Hs | s id' doc Hb IH Hc]; intros id.
  - intros pv. unfold postings. rewrite Hs, lookup_empty. simpl. lia.
  - destruct (string_dec id id') as [-> | Hne].
    + apply index_at_most_once, IH.
    + unfold index; simpl. apply indexPathValues_preserves; [|apply IH].
      intros idsString. apply updatedIds_other_id; assumption.
Qed.

(** ** The planner *)

Lemma lookup_ok (s : server) (pathValue : string) :
  getFails (indexDb s) pathValue = false ->
  lookup s pathValue = inl (postings (indexDb s) pathValue).
Proof.
  intros H. unfold lookup, dbGet, postings. rewrite H.
  destruct (cells (indexDb s) !! pathValue) as [v|]; [|reflexivity].
  destruct (len v =? 0)%nat; reflexivity.
Qed.

Lemma lookup_fails (s : server) (pathValue : string) :
  getFails (indexDb s) pathValue = true ->
  lookup s pathValue = inr (LookupError pathValue).
Proof. intros H. unfold lookup, dbGet. rewrite H. reflexivity. Qed.

Lemma formatPathValue_fingerprint (L : GoLib) (argument : queryComparison) :
  formatPathValue L (Join (key argument) ".") (VString (value argument))
  = fingerprint argument.
Proof. reflexivity. Qed.

(** The first loop stops at the first equality argument whose lookup
    fails. *)
Lemma gatherIds_lookup_fails (L : GoLib) (s : server) (l : list queryComparison) :
  forall isRange counts n argument,
    In argument l -> isEquality argument = true ->
    getFails (indexDb s) (fingerprint argument) = true ->
    exists argument',
      In argument' l /\ isEquality argument' = true /\
      getFails (indexDb s) (fingerprint argument') = true /\
      gatherIds L s l isRange counts n = inr (LookupError (fingerprint argument')).
Proof.
  induction l as [|a rest IH]; intros isRange counts n argument Hin He Hf; [destruct Hin|].
  simpl. rewrite formatPathValue_fingerprint.
  destruct (String.eqb (op a) "=") eqn:Ea.
  - destruct (getFails (indexDb s) (fingerprint a)) eqn:Fa.
    + exists a. rewrite (lookup_fails _ _ Fa). auto with datatypes.
    + rewrite (lookup_ok _ _ Fa).
      destruct Hin as [-> | Hin]; [congruence|].
      destruct (IH isRange (countIds (postings (indexDb s) (fingerprint a)) counts)
                  (S n) argument Hin He Hf) as (a' & H1 & H2 & H3 & H4).
      exists a'. auto with datatypes.
  - destruct Hin as [-> | Hin]; [unfold isEquality in He; congruence|].
    destruct (IH true counts n argument Hin He Hf) as (a' & H1 & H2 & H3 & H4).
    exists a'. auto with datatypes.
Qed.

(** C9: whatever [skipIndex] is, [true] included, the posting list of every
    equality predicate is looked up first; when the lookup of one of them
    fails the search answers with the error of a lookup, and nothing is
    scanned. *)
Theorem lookup_failure_aborts_search (L : GoLib) (s : server)
    (qParam skipIndex : string) (q : query) (argument : queryComparison) :
  parseQuery L qParam = Ok q ->
  In argument (ands q) ->
  op argument = "=" ->
  getFails (indexDb s) (fingerprint argument) = true ->
  exists argument',
    In argument' (ands q) /\ op argument' = "=" /\
    searchDocuments L s qParam skipIndex
    = RespError (LookupError (fingerprint argument')) /\
    searchDocuments L s qParam "true"
    = RespError (LookupError (fingerprint argument')).
Proof.
  intros Hp Hin Ho Hf.
  assert (He : isEquality argument = true) by (unfold isEquality; rewrite Ho; reflexivity).
  destruct (gatherIds_lookup_fails L s (ands q) false ∅ 0 argument Hin He Hf)
    as (a' & H1 & H2 & H3 & H4).
  exists a'. split; [exact H1|]. split; [apply String.eqb_eq; exact H2|].
  unfold searchDocuments. rewrite Hp, H4. split; reflexivity.
Qed.

(** The query ["a:1"] with [skipIndex=true] on a server whose index store
    fails on the reads of [a=1]. *)
Lemma lookup_failure_aborts_search_witness :
  exists argument',
    In argument' [ {| key := ["a"]; value := "1"; op := "=" |} ] /\
    op argument' = "=" /\
    searchDocuments latin1Lib faultyServer "a:1" "true"
    = RespError (LookupError (fingerprint argument')) /\
    searchDocuments latin1Lib faultyServer "a:1" "true"
    = RespError (LookupError (fingerprint argument')).
Proof.
  apply (lookup_failure_aborts_search latin1Lib faultyServer "a:1" "true"
           {| ands := [ {| key := ["a"]; value := "1"; op := "=" |} ] |}
           {| key := ["a"]; value := "1"; op := "=" |}).
  - vm_compute. reflexivity.
  - simpl. left. reflexivity.
  - reflexivity.
  - vm_compute. reflexivity.
Defined.

(** On the same server without the fault, [skipIndex=true] answers from the
    scan; with the fault the answer is the error. *)
Example search_skipIndex_with_and_without_fault :
  searchDocuments latin1Lib unindexedServer "a:1" "true"
  = RespOk [("id1", [("a", VString "1")])] 1 /\
  searchDocuments latin1Lib faultyServer "a:1" "true"
  = RespError (LookupError "a=1").
Proof. split; vm_compute; reflexivity. Qed.

Lemma countOf_insert (m : gmap string nat) (x id : string) (n : nat) :
  countOf (<[x := n]> m) id = if decide (x = id) then n else countOf m id.
Proof.
  unfold countOf. destruct (decide (x = id)) as [-> | Hne].
  - rewrite lookup_insert_eq. reflexivity.
  - rewrite lookup_insert_ne by exact Hne. reflexivity.
Qed.

Lemma countIds_count (ids : list string) :
  forall m id,
    countOf (countIds ids m) id = countOf m id + count_occ string_dec ids id.
Proof.
  induction ids as [|x rest IH]; intros m id; simpl; [lia|].
  rewrite IH, countOf_insert. fold (countOf m x).
  destruct (decide (x = id)) as [-> | Hne].
  - destruct (string_dec id id); [lia | congruence].
  - destruct (string_dec x id); [congruence | lia].
Qed.

Lemma countIds_positive (ids : list string) :
  forall m, positiveCounts m -> positiveCounts (countIds ids m).
Proof.
  induction ids as [|x rest IH]; intros m Hm; simpl; [exact Hm|].
  apply IH. intros id c.
  destruct (decide (x = id)) as [-> | Hne].
  - rewrite lookup_insert_eq. intros [= <-]. lia.
  - rewrite lookup_insert_ne by exact Hne. apply Hm.
Qed.

(** When no lookup fails the first loop ends with: [isRange] set when some
    argument is not an equality, [nonRangeArguments] the number of
    equalities, and for every id the number of its occurrences in the posting
    lists of the equalities. *)
Lemma gatherIds_ok (L : GoLib) (s : server) (l : list queryComparison) :
  forall isRange counts n,
    (forall a, In a l -> isEquality a = true ->
               getFails (indexDb s) (fingerprint a) = false) ->
    positiveCounts counts ->
    exists counts',
      gatherIds L s l isRange counts n
      = inl (isRange || hasRange l, counts', n + equalityCount l) /\
      positiveCounts counts' /\
      forall id, countOf counts' id = countOf counts id + occurrences (indexDb s) l id.
Proof.
  induction l as [|a rest IH]; intros isRange counts n Hok Hpos; simpl.
  - exists counts. rewrite orb_false_r, Nat.add_0_r.
    split; [reflexivity|]. split; [exact Hpos|]. intros id. lia.
  - rewrite formatPathValue_fingerprint.
    change (String.eqb (op a) "=") with (isEquality a).
    destruct (isEquality a) eqn:Ea; simpl.
    + rewrite lookup_ok by (apply Hok; [left; reflexivity | exact Ea]).
      destruct (IH isRange (countIds (postings (indexDb s) (fingerprint a)) counts)
                  (S n)) as (counts' & H1 & H2 & H3).
      * intros a' Hin. apply Hok. right. exact Hin.
      * apply countIds_positive, Hpos.
      * exists counts'. rewrite H1. split; [f_equal; f_equal; lia|].
        split; [exact H2|]. intros id. rewrite H3, countIds_count. lia.
    + destruct (IH true counts n) as (counts' & H1 & H2 & H3).
      * intros a' Hin. apply Hok. right. exact Hin.
      * exact Hpos.
      * exists counts'. rewrite H1, orb_true_r. split; [reflexivity|].
        split; [exact H2|]. intros id. rewrite H3. lia.
Qed.

(** The second loop keeps the ids counted [n] times, each once. *)
Lemma idsInAllOf_spec (m : gmap string nat) (n : nat) :
  NoDup (idsInAllOf m n) /\ forall id, id ∈ idsInAllOf m n <-> m !! id = Some n.
Proof.
  unfold idsInAllOf. split.
  - apply NoDup_fmap_fst.
    + intros x y1 y2 [_ H1]%list_elem_of_filter [_ H2]%list_elem_of_filter.
      apply elem_of_map_to_list in H1, H2. congruence.
    + apply NoDup_filter, NoDup_map_to_list.
  - intros id. rewrite list_elem_of_fmap. split.
    + intros [[id' c] [-> [Hc Hin]%list_elem_of_filter]]. simpl in *. subst c.
      apply elem_of_map_to_list. exact Hin.
    + intros H. exists (id, n). split; [reflexivity|].
      apply list_elem_of_filter. split; [reflexivity|].
      apply elem_of_map_to_list. exact H.
Qed.

(** Without a range predicate the loop over the candidates loads every
    candidate and keeps it, the query not being evaluated. *)
Lemma fromIndex_no_range (L : GoLib) (s : server) (q : query) (ids : list string) :
  forall documents,
    fromIndex L s q false ids documents
    = match loadAll s ids with
      | inl l => inl (documents ++ l)%list
      | inr err => inr err
      end.
Proof.
  induction ids as [|id rest IH]; intros documents; simpl.
  - rewrite app_nil_r. reflexivity.
  - destruct (getDocumentById s id) as [d|e]; [|reflexivity].
    rewrite IH. destruct (loadAll s rest); [|reflexivity].
    rewrite <- app_assoc. reflexivity.
Qed.

(** C2, as the code has it: the posting lists of the equality predicates
    are read (no read failing), and the candidates are the ids that occur in
    them as many times as there are equality predicates, each once.  The
    primary store is iterated in full when [skipIndex=true] is requested or
    when there is no such id (as when the query has no equality predicate);
    otherwise the candidates are loaded, and kept without the query being
    evaluated when the query has no range predicate. *)
Theorem search_plan (L : GoLib) (s : server) (qParam skipIndex : string) (q : query) :
  parseQuery L qParam = Ok q ->
  (forall a, In a (ands q) -> isEquality a = true ->
             getFails (indexDb s) (fingerprint a) = false) ->
  exists idsInAll,
    NoDup idsInAll /\
    (forall id, id ∈ idsInAll <->
                0 < occurrences (indexDb s) (ands q) id /\
                occurrences (indexDb s) (ands q) id = equalityCount (ands q)) /\
    (equalityCount (ands q) = 0 -> idsInAll = []) /\
    searchDocuments L s qParam skipIndex
    = (if String.eqb skipIndex "true" then
         respond (fromScan L q (dbEntries (db s)) [])
       else
         match idsInAll with
         | [] => respond (fromScan L q (dbEntries (db s)) [])
         | _ :: _ => respond (fromIndex L s q (hasRange (ands q)) idsInAll [])
         end) /\
    (hasRange (ands q) = false ->
     fromIndex L s q (hasRange (ands q)) idsInAll [] = loadAll s idsInAll).
Proof.
  intros Hp Hok.
  destruct (gatherIds_ok L s (ands q) false ∅ 0 Hok) as (counts & Hg & Hpos & Hcount).
  { intros id c. rewrite lookup_empty. discriminate. }
  simpl in Hg.
  destruct (idsInAllOf_spec counts (equalityCount (ands q))) as [Hnd Hin].
  assert (Hmem : forall id, id ∈ idsInAllOf counts (equalityCount (ands q)) <->
                 0 < occurrences (indexDb s) (ands q) id /\
                 occurrences (indexDb s) (ands q) id = equalityCount (ands q)).
  { intros id. rewrite Hin. specialize (Hcount id).
    unfold countOf in Hcount. rewrite lookup_empty in Hcount. simpl in Hcount.
    split.
    - intros H. rewrite H in Hcount. apply Hpos in H. lia.
    - intros [H1 H2]. destruct (counts !! id) as [c|]; [f_equal; lia | lia]. }
  exists (idsInAllOf counts (equalityCount (ands q))).
  split; [exact Hnd|]. split; [exact Hmem|]. split; [|split].
  - intros H0. destruct (idsInAllOf counts (equalityCount (ands q))) as [|id t] eqn:E;
      [reflexivity|].
    assert (Hid : id ∈ id :: t) by (left).
    apply Hmem in Hid. lia.
  - unfold searchDocuments. rewrite Hp, Hg.
    destruct (String.eqb skipIndex "true"); simpl; [reflexivity|].
    destruct (idsInAllOf counts (equalityCount (ands q))); reflexivity.
  - intros Hr. rewrite Hr, fromIndex_no_range.
    destruct (loadAll s _); reflexivity.
Qed.

(** The query ["a:1"] on a server with two indexed documents: both are
    candidates and both are returned. *)
Lemma search_plan_witness :
  exists idsInAll,
    NoDup idsInAll /\
    (forall id, id ∈ idsInAll <->
                0 < occurrences (indexDb indexedServer)
                      [ {| key := ["a"]; value := "1"; op := "=" |} ] id /\
                occurrences (indexDb indexedServer)
                  [ {| key := ["a"]; value := "1"; op := "=" |} ] id = 1) /\
    (1 = 0 -> idsInAll = []) /\
    searchDocuments latin1Lib indexedServer "a:1" ""
    = match idsInAll with
      | [] => respond
                (fromScan latin1Lib
                   {| ands := [ {| key := ["a"]; value := "1"; op := "=" |} ] |}
                   (dbEntries (db indexedServer)) [])
      | _ :: _ => respond
                    (fromIndex latin1Lib indexedServer
                       {| ands := [ {| key := ["a"]; value := "1"; op := "=" |} ] |}
                       false idsInAll [])
      end /\
    (false = false ->
     fromIndex latin1Lib indexedServer
       {| ands := [ {| key := ["a"]; value := "1"; op := "=" |} ] |} false idsInAll []
     = loadAll indexedServer idsInAll).
Proof.
  apply (search_plan latin1Lib indexedServer "a:1" ""
           {| ands := [ {| key := ["a"]; value := "1"; op := "=" |} ] |}).
  - vm_compute. reflexivity.
  - intros a Hin He. vm_compute. reflexivity.
Defined.

(** What that search and its scanning variant answer. *)
Example search_indexed :
  map_to_list (cells (indexDb indexedServer)) = [("a=1", "id1,id2"); ("b=2", "id2")] /\
  searchDocuments latin1Lib indexedServer "a:1 b:2" ""
  = RespOk [("id2", [("a", VString "1"); ("b", VString "2")])] 1 /\
  searchDocuments latin1Lib indexedServer "a:1 b:2" "true"
  = RespOk [("id2", [("a", VString "1"); ("b", VString "2")])] 1.
Proof. repeat split; vm_compute; reflexivity. Qed.

(** C2, as worded in the specification, fails: the query ["a:1"] has one equality predicate and
    [skipIndex] is not requested, the posting list of [a=1] is empty, so that
    the planner of the specification iterates nothing and answers no document; the code
    finds no candidate, falls back to the full iteration and answers the
    document [id1], which is in no posting list. *)
Lemma search_scans_without_candidate :
  parseQuery latin1Lib "a:1"
  = Ok {| ands := [ {| key := ["a"]; value := "1"; op := "=" |} ] |} /\
  equalityCount [ {| key := ["a"]; value := "1"; op := "=" |} ] = 1 /\
  lookup unindexedServer "a=1" = inl [] /\
  claimedSearch latin1Lib unindexedServer
    {| ands := [ {| key := ["a"]; value := "1"; op := "=" |} ] |} ""
  = RespOk [] 0 /\
  searchDocuments latin1Lib unindexedServer "a:1" ""
  = RespOk [("id1", [("a", VString "1")])] 1.
Proof. repeat split; vm_compute; reflexivity. Qed.

(** * Further properties *)

(** ** The index writer, turn by turn *)

Lemma indexPathValues_cons (idx : DB string) (id pathValue : string)
    (rest : list string) :
  indexPathValues idx id (pathValue :: rest)
  = indexPathValues (indexStep idx id pathValue) id rest.
Proof. reflexivity. Qed.

Lemma indexStep_unfold (idx : DB string) (id pathValue : string) :
  indexStep idx id pathValue
  = if setFails idx pathValue then idx
    else {| cells := <[pathValue := updatedIds (readIds idx pathValue) id]> (cells idx);
            getFails := getFails idx;
            setFails := setFails idx |}.
Proof.
  unfold indexStep, dbSet. destruct (setFails idx pathValue); reflexivity.
Qed.

Lemma indexStep_getFails (idx : DB string) (id pathValue k : string) :
  getFails (indexStep idx id pathValue) k = getFails idx k.
Proof. rewrite indexStep_unfold. destruct (setFails idx pathValue); reflexivity. Qed.

Lemma indexStep_setFails (idx : DB string) (id pathValue k : string) :
  setFails (indexStep idx id pathValue) k = setFails idx k.
Proof. rewrite indexStep_unfold. destruct (setFails idx pathValue); reflexivity. Qed.

Lemma indexStep_cells_ne (idx : DB string) (id pathValue k : string) :
  pathValue <> k ->
  cells (indexStep idx id pathValue) !! k = cells idx !! k.
Proof.
  intros Hne. rewrite indexStep_unfold.
  destruct (setFails idx pathValue); [reflexivity|]. simpl.
  apply lookup_insert_ne. exact Hne.
Qed.

Lemma readIds_indexStep_ne (idx : DB string) (id pathValue k : string) :
  pathValue <> k -> readIds (indexStep idx id pathValue) k = readIds idx k.
Proof.
  intros Hne. unfold readIds, dbGet.
  rewrite indexStep_getFails, indexStep_cells_ne by exact Hne. reflexivity.
Qed.

Lemma indexPathValues_getFails (id : string) (pv : list string) :
  forall idx k, getFails (indexPathValues idx id pv) k = getFails idx k.
Proof.
  induction pv as [|F rest IH]; intros idx k; [reflexivity|].
  rewrite indexPathValues_cons, IH. apply indexStep_getFails.
Qed.

Lemma indexPathValues_setFails (id : string) (pv : list string) :
  forall idx k, setFails (indexPathValues idx id pv) k = setFails idx k.
Proof.
  induction pv as [|F rest IH]; intros idx k; [reflexivity|].
  rewrite indexPathValues_cons, IH. apply indexStep_setFails.
Qed.

(** Two turns of the loop can be exchanged. *)
Lemma indexStep_commute (idx : DB string) (id F1 F2 : string) :
  indexStep (indexStep idx id F1) id F2 = indexStep (indexStep idx id F2) id F1.
Proof.
  destruct (decide (F1 = F2)) as [-> | Hne]; [reflexivity|].
  rewrite (indexStep_unfold (indexStep idx id F1)), (indexStep_unfold (indexStep idx id F2)).
  rewrite !indexStep_setFails.
  rewrite (readIds_indexStep_ne idx id F1 F2) by exact Hne.
  rewrite (readIds_indexStep_ne idx id F2 F1) by congruence.
  rewrite !indexStep_unfold.
  destruct (setFails idx F1), (setFails idx F2); simpl; try reflexivity.
  f_equal. apply insert_insert_ne. congruence.
Qed.

Lemma indexPathValues_step_commute (id F : string) (pv : list string) :
  forall idx,
    indexStep (indexPathValues idx id pv) id F
    = indexPathValues (indexStep idx id F) id pv.
Proof.
  induction pv as [|F0 rest IH]; intros idx; [reflexivity|].
  rewrite !indexPathValues_cons, IH, indexStep_commute. reflexivity.
Qed.

(** The order of the fingerprints does not matter to what is stored. *)
Lemma indexPathValues_Permutation (id : string) (pv pv' : list string) :
  Permutation pv pv' ->
  forall idx, indexPathValues idx id pv = indexPathValues idx id pv'.
Proof.
  induction 1 as [|x l l' Hp IH|x y l|l l' l'' H1 IH1 H2 IH2]; intros idx.
  - reflexivity.
  - rewrite !indexPathValues_cons. apply IH.
  - rewrite !indexPathValues_cons, indexStep_commute. reflexivity.
  - rewrite IH1. apply IH2.
Qed.

(** X1: the order in which the entries of the document are visited (Go
    leaves the order of a [range] over a map unspecified), at the top or in
    nested documents, does not change the index store that [index] leaves:
    two documents whose fingerprints are the same up to their order are
    indexed alike. *)
Theorem index_order_independent (L : GoLib) (s : server) (id : string)
    (doc doc' : document) :
  Permutation doc doc' \/
  Permutation (getPathValues L doc "") (getPathValues L doc' "") ->
  index L s id doc = index L s id doc'.
Proof.
  intros Hp. unfold index. f_equal.
  apply indexPathValues_Permutation.
  destruct Hp as [Hp | Hp]; [|exact Hp].
  unfold getPathValues. apply Permutation_flat_map. exact Hp.
Qed.

Lemma index_order_independent_witness :
  index latin1Lib unindexedServer "id1" [("a", VString "1"); ("b", VString "2")]
  = index latin1Lib unindexedServer "id1" [("b", VString "2"); ("a", VString "1")].
Proof.
  apply (index_order_independent latin1Lib unindexedServer "id1"
           [("a", VString "1"); ("b", VString "2")]
           [("b", VString "2"); ("a", VString "1")]).
  left. apply perm_swap.
Defined.

(** ** Indexing twice *)

Lemma existsb_eqb_In (id : string) (ids : list string) :
  existsb (String.eqb id) ids = true <-> In id ids.
Proof.
  rewrite existsb_exists. split.
  - intros (x & Hx & He). apply String.eqb_eq in He. subst x. exact Hx.
  - intros H. exists id. split; [exact H | apply String.eqb_refl].
Qed.

(** The text written for a fingerprint holds [id], when [id] is not empty
    and has no comma. *)
Lemma updatedIds_member (idsString id : string) :
  commaFree id -> id <> "" -> In id (idsOf (updatedIds idsString id)).
Proof.
  intros Hc Hne. unfold updatedIds.
  assert (Hlen : (len id =? 0)%nat = false).
  { apply Nat.eqb_neq. unfold len. destruct id; [congruence | simpl; lia]. }
  destruct (len idsString =? 0)%nat eqn:E.
  - unfold idsOf. rewrite Hlen, (Split_commaFree id Hc). left. reflexivity.
  - destruct (existsb (String.eqb id) (Split idsString ",")) eqn:F; simpl.
    + unfold idsOf. rewrite E. apply existsb_eqb_In. exact F.
    + unfold idsOf. rewrite len_append_id, Split_append_id, (Split_commaFree id Hc).
      apply in_or_app. right. left. reflexivity.
Qed.







(** Where a condition is not met the second run changes what is stored: a
    read that fails in the second run only makes of the list [id0,id1] the
    list [id1]; a write that failed in the first run only is made up for in
    the second. *)
Example index_second_run_faults :
  cells (indexDb (index latin1Lib listedServer "id1" [("a", VString "1")])) !! "a=1"
  = Some "id0,id1" /\
  cells (indexDb (index latin1Lib
                    (withIndexFaults
                       (index latin1Lib listedServer "id1" [("a", VString "1")])
                       (fun k => String.eqb k "a=1") (fun _ => false))
                    "id1" [("a", VString "1")])) !! "a=1"
  = Some "id1" /\
  cells (indexDb (index latin1Lib
                    (withIndexFaults listedServer (fun _ => false) (fun _ => true))
                    "id1" [("a", VString "1")])) !! "a=1"
  = Some "id0" /\
  cells (indexDb (index latin1Lib
                    (withIndexFaults
                       (index latin1Lib
                          (withIndexFaults listedServer (fun _ => false) (fun _ => true))
                          "id1" [("a", VString "1")])
                       (fun _ => false) (fun _ => false))
                    "id1" [("a", VString "1")])) !! "a=1"
  = Some "id0,id1".
Proof. repeat split; vm_compute; reflexivity. Qed.

(** With a comma in the id the second run appends again. *)
Example index_not_idempotent_with_comma :
  cells (indexDb (index latin1Lib unindexedServer "x,y" [("a", VString "1")]))
    !! "a=1" = Some "x,y" /\
  cells (indexDb (index latin1Lib
                    (index latin1Lib unindexedServer "x,y" [("a", VString "1")])
                    "x,y" [("a", VString "1")]))
    !! "a=1" = Some "x,y,x,y".
Proof. split; vm_compute; reflexivity. Qed.

(** ** What the index holds after a run *)

Lemma indexStep_holds (idx : DB string) (id F F' : string) :
  commaFree id -> id <> "" ->
  (exists v, cells idx !! F = Some v /\ In id (idsOf v)) ->
  exists v, cells (indexStep idx id F') !! F = Some v /\ In id (idsOf v).
Proof.
  intros Hc Hne H. rewrite indexStep_unfold.
  destruct (setFails idx F'); [exact H|]. simpl.
  destruct (decide (F' = F)) as [-> | Hd].
  - rewrite lookup_insert_eq. eexists. split; [reflexivity|].
    apply updatedIds_member; assumption.
  - rewrite lookup_insert_ne by exact Hd. exact H.
Qed.

Lemma indexPathValues_holds (id F : string) (pv : list string) :
  commaFree id -> id <> "" ->
  forall idx,
    (exists v, cells idx !! F = Some v /\ In id (idsOf v)) ->
    exists v, cells (indexPathValues idx id pv) !! F = Some v /\ In id (idsOf v).
Proof.
  intros Hc Hne. induction pv as [|F' rest IH]; intros idx H; [exact H|].
  rewrite indexPathValues_cons. apply IH, indexStep_holds; assumption.
Qed.

Lemma indexPathValues_member (id F : string) (pv : list string) :
  commaFree id -> id <> "" ->
  forall idx,
    In F pv -> setFails idx F = false ->
    exists v, cells (indexPathValues idx id pv) !! F = Some v /\ In id (idsOf v).
Proof.
  intros Hc Hne. induction pv as [|F' rest IH]; intros idx HF Hs; [destruct HF|].
  rewrite indexPathValues_cons. destruct HF as [-> | HF].
  - apply indexPathValues_holds; [assumption..|].
    rewrite indexStep_unfold, Hs. simpl. rewrite lookup_insert_eq.
    eexists. split; [reflexivity|]. apply updatedIds_member; assumption.
  - apply IH; [exact HF|]. rewrite indexStep_setFails. exact Hs.
Qed.

(** X3: after [index] ran for a document under an id that is not empty and
    has no comma, [lookup] of any fingerprint of the document whose write and
    read do not fail answers a posting list that holds the id. *)
Theorem index_then_lookup (L : GoLib) (s : server) (id : string) (doc : document)
    (pathValue : string) :
  commaFree id -> id <> "" ->
  In pathValue (getPathValues L doc "") ->
  setFails (indexDb s) pathValue = false ->
  getFails (indexDb s) pathValue = false ->
  exists ids, lookup (index L s id doc) pathValue = inl ids /\ In id ids.
Proof.
  intros Hc Hne HF Hs Hg.
  destruct (indexPathValues_member id pathValue (getPathValues L doc "") Hc Hne
              (indexDb s) HF Hs) as (v & Hv & Hin).
  exists (postings (indexDb (index L s id doc)) pathValue). split.
  - apply lookup_ok. unfold index; simpl. rewrite indexPathValues_getFails. exact Hg.
  - rewrite postings_idsOf. unfold index; simpl. rewrite Hv. exact Hin.
Qed.

Lemma index_then_lookup_witness :
  exists ids,
    lookup (index latin1Lib unindexedServer "id1" [("a", VString "1")]) "a=1" = inl ids
    /\ In "id1" ids.
Proof.
  apply (index_then_lookup latin1Lib unindexedServer "id1" [("a", VString "1")] "a=1").
  - unfold commaFree. simpl. repeat (apply List.Forall_cons; [discriminate|]).
    apply List.Forall_nil.
  - discriminate.
  - simpl. left. reflexivity.
  - reflexivity.
  - reflexivity.
Defined.

(** An empty id leaves no trace in a fresh posting list: the stored text is
    empty and [lookup] answers no id. *)
Example index_empty_id :
  cells (indexDb (index latin1Lib unindexedServer "" [("a", VString "1")])) !! "a=1"
  = Some "" /\
  lookup (index latin1Lib unindexedServer "" [("a", VString "1")]) "a=1" = inl [].
Proof. split; vm_compute; reflexivity. Qed.

(** ** What a run leaves alone *)

Lemma indexPathValues_frame (id F : string) (pv : list string) :
  forall idx, ~ In F pv -> cells (indexPathValues idx id pv) !! F = cells idx !! F.
Proof.
  induction pv as [|F' rest IH]; intros idx HF; [reflexivity|].
  rewrite indexPathValues_cons, IH by (intros H; apply HF; right; exact H).
  apply indexStep_cells_ne. intros ->. apply HF. left. reflexivity.
Qed.

(** An id listed in a text is listed in the text written back. *)
Lemma updatedIds_keeps (idsString id id' : string) :
  In id' (idsOf idsString) -> In id' (idsOf (updatedIds idsString id)).
Proof.
  unfold updatedIds, idsOf at 1.
  destruct (len idsString =? 0)%nat eqn:E; [intros []|]. intros H.
  destruct (existsb (String.eqb id) (Split idsString ",")); simpl.
  - unfold idsOf. rewrite E. exact H.
  - unfold idsOf. rewrite len_append_id, Split_append_id.
    apply in_or_app. left. exact H.
Qed.

Lemma indexStep_keeps (idx : DB string) (id id' F F' : string) :
  getFails idx F' = false ->
  In id' (postings idx F) -> In id' (postings (indexStep idx id F') F).
Proof.
  intros Hg H. rewrite indexStep_unfold.
  destruct (setFails idx F'); [exact H|].
  rewrite postings_idsOf in *. simpl.
  destruct (decide (F' = F)) as [-> | Hd].
  - rewrite lookup_insert_eq. apply updatedIds_keeps.
    unfold readIds, dbGet. rewrite Hg.
    destruct (cells idx !! F); [exact H | destruct H].
  - rewrite lookup_insert_ne by exact Hd. exact H.
Qed.

Lemma indexPathValues_keeps (id id' F : string) (pv : list string) :
  forall idx,
    (forall F', In F' pv -> getFails idx F' = false) ->
    In id' (postings idx F) -> In id' (postings (indexPathValues idx id pv) F).
Proof.
  induction pv as [|F' rest IH]; intros idx Hg H; [exact H|].
  rewrite indexPathValues_cons. apply IH.
  - intros F'' HF''. rewrite indexStep_getFails. apply Hg. right. exact HF''.
  - apply indexStep_keeps; [apply Hg; left; reflexivity | exact H].
Qed.

(** X4: [index] never touches the primary store, leaves the failure
    behaviour of the index store as it was, leaves every fingerprint that is
    not a fingerprint of the document with the text it had, and, when no read
    of the document's fingerprints fails, keeps every id that a posting list
    held. *)
Theorem index_frame (L : GoLib) (s : server) (id : string) (doc : document) :
  db (index L s id doc) = db s /\
  (forall k, getFails (indexDb (index L s id doc)) k = getFails (indexDb s) k) /\
  (forall k, setFails (indexDb (index L s id doc)) k = setFails (indexDb s) k) /\
  (forall pathValue,
      ~ In pathValue (getPathValues L doc "") ->
      cells (indexDb (index L s id doc)) !! pathValue
      = cells (indexDb s) !! pathValue) /\
  ((forall pathValue, In pathValue (getPathValues L doc "") ->
                      getFails (indexDb s) pathValue = false) ->
   forall pathValue id',
     In id' (postings (indexDb s) pathValue) ->
     In id' (postings (indexDb (index L s id doc)) pathValue)).
Proof.
  unfold index; simpl. split; [reflexivity|].
  split; [apply indexPathValues_getFails|].
  split; [apply indexPathValues_setFails|].
  split.
  - intros F HF. apply indexPathValues_frame, HF.
  - intros Hg F id' H. apply indexPathValues_keeps; assumption.
Qed.

(** ** A failing read *)

Lemma indexPathValues_read_fault (id F : string) :
  forall (pv : list string) idx,
    In F pv -> getFails idx F = true -> setFails idx F = false ->
    cells (indexPathValues idx id pv) !! F = Some id.
Proof.
  assert (Hstep : forall idx,
             getFails idx F = true -> setFails idx F = false ->
             cells (indexStep idx id F) !! F = Some id).
  { intros idx Hg Hs. rewrite indexStep_unfold, Hs. simpl.
    rewrite lookup_insert_eq. unfold readIds, dbGet. rewrite Hg. reflexivity. }
  assert (Hkeep : forall pv idx,
             getFails idx F = true -> setFails idx F = false ->
             cells idx !! F = Some id ->
             cells (indexPathValues idx id pv) !! F = Some id).
  { intros pv. induction pv as [|F' rest IH]; intros idx Hg Hs H; [exact H|].
    rewrite indexPathValues_cons. apply IH.
    - rewrite indexStep_getFails. exact Hg.
    - rewrite indexStep_setFails. exact Hs.
    - destruct (decide (F' = F)) as [-> | Hd]; [apply Hstep; assumption|].
      rewrite indexStep_cells_ne by exact Hd. exact H. }
  intros pv.
  induction pv as [|F' rest IH]; intros idx HF Hg Hs; [destruct HF|].
  rewrite indexPathValues_cons. destruct HF as [-> | HF].
  - apply Hkeep.
    + rewrite indexStep_getFails. exact Hg.
    + rewrite indexStep_setFails. exact Hs.
    + apply Hstep; assumption.
  - apply IH; [exact HF | |].
    + rewrite indexStep_getFails. exact Hg.
    + rewrite indexStep_setFails. exact Hs.
Qed.

(** X5: [index] takes a failing read of the index store for an absent
    entry (the error of [Get] is only compared with [ErrNotFound] after the
    value was used): when the read of a fingerprint of the document fails and
    its write does not, the posting list stored under the fingerprint is
    replaced by the id alone, whatever ids it held. *)
Theorem index_read_fault_overwrites (L : GoLib) (s : server) (id : string)
    (doc : document) (pathValue : string) :
  In pathValue (getPathValues L doc "") ->
  getFails (indexDb s) pathValue = true ->
  setFails (indexDb s) pathValue = false ->
  cells (indexDb (index L s id doc)) !! pathValue = Some id.
Proof.
  intros HF Hg Hs. unfold index; simpl.
  apply indexPathValues_read_fault; assumption.
Qed.

Lemma index_read_fault_overwrites_witness :
  cells (indexDb (index latin1Lib readFaultServer "id2" [("a", VString "1")])) !! "a=1"
  = Some "id2".
Proof.
  apply (index_read_fault_overwrites latin1Lib readFaultServer "id2"
           [("a", VString "1")] "a=1").
  - simpl. left. reflexivity.
  - reflexivity.
  - reflexivity.
Defined.

(** ** Adding and reading back *)

Lemma addDocument_indexDb (L : GoLib) (J : JsonCodec) (s : server)
    (doc : document) (id : string) :
  indexDb (snd (addDocument L J s (Some doc) id))
  = indexDb (index L s id doc).
Proof.
  unfold addDocument. destruct (marshal J doc) as [bs|]; [|reflexivity].
  unfold dbSet. simpl. destruct (setFails (db s) id); reflexivity.
Qed.

Lemma addDocument_stored (L : GoLib) (J : JsonCodec) (s : server)
    (doc : document) (id : string) (bs : option document) :
  marshal J doc = Some bs ->
  setFails (db s) id = false ->
  addDocument L J s (Some doc) id
  = (AddOk id,
     {| db := {| cells := <[id := bs]> (cells (db s));
                 getFails := getFails (db s);
                 setFails := setFails (db s) |};
        indexDb := indexDb (index L s id doc) |}).
Proof.
  intros Hm Hs. unfold addDocument. rewrite Hm. unfold dbSet. simpl.
  rewrite Hs. reflexivity.
Qed.

(** X6: a document that [addDocument] stored is the one [getDocument] reads
    back under the id of the response (as far as the JSON codec gives it
    back), and what [getDocument] answers for the other ids is as before. *)
Theorem addDocument_then_getDocument (L : GoLib) (J : JsonCodec) (s : server)
    (doc : document) (id : string) (bs : option document) :
  marshal J doc = Some bs ->
  setFails (db s) id = false ->
  getFails (db s) id = false ->
  fst (addDocument L J s (Some doc) id) = AddOk id /\
  getDocument (snd (addDocument L J s (Some doc) id)) id
  = match bs with
    | Some stored => DocumentOk stored
    | None => DocumentError JsonError
    end /\
  forall id', id' <> id ->
    getDocument (snd (addDocument L J s (Some doc) id)) id'
    = getDocument s id'.
Proof.
  intros Hm Hs Hg. rewrite (addDocument_stored L J s doc id bs Hm Hs). simpl.
  split; [reflexivity|]. split.
  - unfold getDocument, getDocumentById, dbGet. simpl. rewrite Hg, lookup_insert_eq.
    destruct bs; reflexivity.
  - intros id' Hne. unfold getDocument, getDocumentById, dbGet. simpl.
    rewrite lookup_insert_ne by congruence. reflexivity.
Qed.

Lemma addDocument_then_getDocument_witness :
  fst (addDocument latin1Lib exactCodec unindexedServer
         (Some [("b", VString "2")]) "id2") = AddOk "id2" /\
  getDocument (snd (addDocument latin1Lib exactCodec unindexedServer
                      (Some [("b", VString "2")]) "id2")) "id2"
  = DocumentOk [("b", VString "2")] /\
  forall id', id' <> "id2" ->
    getDocument (snd (addDocument latin1Lib exactCodec unindexedServer
                        (Some [("b", VString "2")]) "id2")) id'
    = getDocument unindexedServer id'.
Proof.
  apply (addDocument_then_getDocument latin1Lib exactCodec unindexedServer
           [("b", VString "2")] "id2" (Some [("b", VString "2")]));
    reflexivity.
Defined.

(** X7: [addDocument] writes the index before it stores the document: when
    [json.Marshal] or the write of the primary store fails, the response is
    an error and the primary store is as it was, yet the index store is the
    one [index] left, so that [lookup] of a fingerprint of the document
    answers the id of a document that was never stored. *)
Theorem addDocument_failure_leaves_index (L : GoLib) (J : JsonCodec) (s : server)
    (doc : document) (id : string) :
  marshal J doc = None \/ setFails (db s) id = true ->
  (exists e, fst (addDocument L J s (Some doc) id) = AddError e) /\
  db (snd (addDocument L J s (Some doc) id)) = db s /\
  indexDb (snd (addDocument L J s (Some doc) id))
  = indexDb (index L s id doc) /\
  (commaFree id -> id <> "" ->
   forall pathValue,
     In pathValue (getPathValues L doc "") ->
     setFails (indexDb s) pathValue = false ->
     getFails (indexDb s) pathValue = false ->
     exists ids,
       lookup (snd (addDocument L J s (Some doc) id)) pathValue = inl ids
       /\ In id ids).
Proof.
  intros Hf.
  assert (H3 := addDocument_indexDb L J s doc id).
  split; [|split; [|split; [exact H3|]]].
  - unfold addDocument. destruct (marshal J doc) as [bs|]; [|eauto].
    destruct Hf as [Hf | Hf]; [discriminate|].
    unfold dbSet. simpl. rewrite Hf. simpl. eauto.
  - unfold addDocument. destruct (marshal J doc) as [bs|]; [|reflexivity].
    destruct Hf as [Hf | Hf]; [discriminate|].
    unfold dbSet. simpl. rewrite Hf. reflexivity.
  - intros Hc Hne F HF Hs Hg.
    destruct (indexPathValues_member id F (getPathValues L doc "") Hc Hne
                (indexDb s) HF Hs) as (v & Hv & Hin).
    exists (postings (indexDb (index L s id doc)) F). split.
    + unfold lookup. rewrite H3. fold (lookup (index L s id doc) F).
      apply lookup_ok. unfold index; simpl. rewrite indexPathValues_getFails. exact Hg.
    + rewrite postings_idsOf. unfold index; simpl. rewrite Hv. exact Hin.
Qed.

Lemma addDocument_failure_leaves_index_witness :
  (exists e, fst (addDocument latin1Lib exactCodec readOnlyServer
                    (Some [("b", VString "2")]) "id2") = AddError e) /\
  db (snd (addDocument latin1Lib exactCodec readOnlyServer
             (Some [("b", VString "2")]) "id2")) = db readOnlyServer /\
  indexDb (snd (addDocument latin1Lib exactCodec readOnlyServer
                  (Some [("b", VString "2")]) "id2"))
  = indexDb (index latin1Lib readOnlyServer "id2" [("b", VString "2")]) /\
  (commaFree "id2" -> "id2" <> "" ->
   forall pathValue,
     In pathValue (getPathValues latin1Lib [("b", VString "2")] "") ->
     setFails (indexDb readOnlyServer) pathValue = false ->
     getFails (indexDb readOnlyServer) pathValue = false ->
     exists ids,
       lookup (snd (addDocument latin1Lib exactCodec readOnlyServer
                      (Some [("b", VString "2")]) "id2")) pathValue = inl ids
       /\ In "id2" ids).
Proof.
  apply (addDocument_failure_leaves_index latin1Lib exactCodec readOnlyServer
           [("b", VString "2")] "id2").
  right. reflexivity.
Defined.

(** ** The iterator of the store *)

Lemma insertSorted_Permutation {V} (e : string * V) (l : list (string * V)) :
  Permutation (insertSorted e l) (e :: l).
Proof.
  induction l as [|e' t IH]; simpl; [reflexivity|].
  destruct (String.leb (fst e) (fst e')); [reflexivity|].
  rewrite IH. apply perm_swap.
Qed.

Lemma dbEntries_Permutation {V} (d : DB V) :
  Permutation (dbEntries d) (map_to_list (cells d)).
Proof.
  unfold dbEntries. induction (map_to_list (cells d)) as [|e t IH]; simpl; [reflexivity|].
  rewrite insertSorted_Permutation, IH. reflexivity.
Qed.

Lemma dbEntries_In {V} (d : DB V) (k : string) (v : V) :
  In (k, v) (dbEntries d) <-> cells d !! k = Some v.
Proof.
  rewrite <- elem_of_map_to_list, <- list_elem_of_In.
  rewrite (dbEntries_Permutation d). reflexivity.
Qed.

Lemma dbEntries_NoDup {V} (d : DB V) : NoDup (dbEntries d).*1.
Proof.
  rewrite (dbEntries_Permutation d). apply NoDup_fst_map_to_list.
Qed.

Lemma ascii_compare_N (a b : ascii) :
  Ascii.compare a b = N.compare (N_of_ascii a) (N_of_ascii b).
Proof. reflexivity. Qed.

Lemma string_compare_trans (a : string) :
  forall b c,
    String.compare a b <> Gt -> String.compare b c <> Gt -> String.compare a c <> Gt.
Proof.
  induction a as [|x a IH]; intros [|y b] [|z c]; simpl; try congruence.
  rewrite !ascii_compare_N.
  destruct (N.compare_spec (N_of_ascii x) (N_of_ascii y)) as [Exy | Lxy | Gxy];
    destruct (N.compare_spec (N_of_ascii y) (N_of_ascii z)) as [Eyz | Lyz | Gyz];
    destruct (N.compare_spec (N_of_ascii x) (N_of_ascii z)) as [Exz | Lxz | Gxz];
    intros H1 H2; try congruence; try lia.
  apply (IH b c); assumption.
Qed.

Lemma keyOrder_trans (a b c : string) : keyOrder a b -> keyOrder b c -> keyOrder a c.
Proof.
  unfold keyOrder, String.leb. intros H1 H2.
  assert (H := string_compare_trans a b c).
  destruct (String.compare a b), (String.compare b c), (String.compare a c);
    try reflexivity; try discriminate; exfalso; apply H; congruence.
Qed.

Lemma insertSorted_sorted {V} (e : string * V) (l : list (string * V)) :
  StronglySorted keyOrder l.*1 -> StronglySorted keyOrder (insertSorted e l).*1.
Proof.
  induction l as [|e' t IH]; simpl; intros Hs.
  - apply SSorted_cons; [apply SSorted_nil | apply List.Forall_nil].
  - apply StronglySorted_inv in Hs. destruct Hs as [Ht He'].
    destruct (String.leb (fst e) (fst e')) eqn:E; simpl.
    + apply SSorted_cons; [apply SSorted_cons; assumption|].
      apply List.Forall_cons; [exact E|].
      revert He'. apply List.Forall_impl. intros k Hk.
      apply (keyOrder_trans _ (fst e')); [exact E | exact Hk].
    + apply SSorted_cons; [apply IH, Ht|].
      assert (Hp := insertSorted_Permutation e t).
      apply (Permutation_map fst) in Hp. simpl in Hp.
      apply List.Forall_forall. intros k Hk.
      apply (Permutation_in _ Hp) in Hk. destruct Hk as [<- | Hk].
      * destruct (String.leb_total (fst e) (fst e')) as [H | H]; [congruence | exact H].
      * rewrite List.Forall_forall in He'. apply He', Hk.
Qed.

Lemma dbEntries_sorted {V} (d : DB V) : StronglySorted keyOrder (dbEntries d).*1.
Proof.
  unfold dbEntries. induction (map_to_list (cells d)) as [|e t IH]; simpl.
  - apply SSorted_nil.
  - apply insertSorted_sorted, IH.
Qed.

Lemma sublist_sorted (l1 l2 : list string) :
  sublist l1 l2 -> StronglySorted keyOrder l2 -> StronglySorted keyOrder l1.
Proof.
  induction 1 as [|x l1 l2 Hs IH | x l1 l2 Hs IH]; intros H2.
  - apply SSorted_nil.
  - apply StronglySorted_inv in H2. destruct H2 as [H2 Hx].
    apply SSorted_cons; [apply IH, H2|].
    apply List.Forall_forall. intros k Hk.
    rewrite List.Forall_forall in Hx. apply Hx.
    apply list_elem_of_In. apply (sublist_subseteq _ _ Hs). apply list_elem_of_In, Hk.
  - apply StronglySorted_inv in H2. apply IH, H2.
Qed.

(** ** The scan *)

Lemma matching_app (L : GoLib) (q : query) (l1 l2 : list (string * option document)) :
  matching L q (l1 ++ l2) = (matching L q l1 ++ matching L q l2)%list.
Proof. unfold matching. apply flat_map_app. Qed.

Lemma matching_In (L : GoLib) (q : query) (entries : list (string * option document))
    (id : string) (d : document) :
  In (id, d) (matching L q entries)
  <-> In (id, Some d) entries /\ query_match L q d = true.
Proof.
  unfold matching. rewrite in_flat_map. split.
  - intros ([k [d'|]] & Hin & H); simpl in H; [|destruct H].
    destruct (query_match L q d') eqn:M; [|destruct H].
    destruct H as [[= <- <-] | []]. split; assumption.
  - intros [Hin M]. exists (id, Some d). split; [exact Hin|].
    simpl. rewrite M. left. reflexivity.
Qed.

Lemma matching_sublist (L : GoLib) (q : query) (entries : list (string * option document)) :
  sublist (matching L q entries).*1 entries.*1.
Proof.
  induction entries as [|[k [d|]] t IH]; simpl.
  - apply sublist_nil.
  - destruct (query_match L q d); simpl.
    + apply sublist_skip, IH.
    + apply sublist_cons, IH.
  - apply sublist_cons, IH.
Qed.

Lemma fromScan_decoded (L : GoLib) (q : query) (entries : list (string * option document)) :
  (forall k, ~ In (k, None) entries) ->
  forall documents,
    fromScan L q entries documents = inl (documents ++ matching L q entries)%list.
Proof.
  induction entries as [|[k [d|]] t IH]; intros Hd documents; simpl.
  - rewrite app_nil_r. reflexivity.
  - assert (Ht : forall k', ~ In (k', None) t).
    { intros k' H. apply (Hd k'). right. exact H. }
    destruct (query_match L q d); simpl.
    + rewrite (IH Ht), <- app_assoc. reflexivity.
    + apply (IH Ht).
  - exfalso. apply (Hd k). left. reflexivity.
Qed.

Lemma fromScan_undecoded (L : GoLib) (q : query) (entries : list (string * option document))
    (k : string) :
  In (k, None) entries ->
  forall documents, fromScan L q entries documents = inr JsonError.
Proof.
  induction entries as [|[k' [d|]] t IH]; intros Hin documents; simpl.
  - destruct Hin.
  - destruct Hin as [[=] | Hin].
    destruct (query_match L q d); apply IH, Hin.
  - reflexivity.
Qed.

Lemma undecoded_dec (entries : list (string * option document)) :
  (forall k, ~ In (k, None) entries) \/ (exists k, In (k, None) entries).
Proof.
  induction entries as [|[k [d|]] t IH].
  - left. intros k [].
  - destruct IH as [IH | [k' IH]].
    + left. intros k' [[=] | H]. apply (IH k'), H.
    + right. exists k'. right. exact IH.
  - right. exists k. left. reflexivity.
Qed.

Lemma fromScan_inl (L : GoLib) (q : query) (entries : list (string * option document))
    (documents result : list (string * document)) :
  fromScan L q entries documents = inl result ->
  result = (documents ++ matching L q entries)%list.
Proof.
  intros H.
  destruct (undecoded_dec entries) as [Hd | [k Hk]].
  - rewrite (fromScan_decoded L q entries Hd) in H. congruence.
  - rewrite (fromScan_undecoded L q entries k Hk) in H. discriminate.
Qed.

(** ** The candidates and their documents *)

Lemma getDocumentById_inl (s : server) (id : string) (d : document) :
  getDocumentById s id = inl d <->
  getFails (db s) id = false /\ cells (db s) !! id = Some (Some d).
Proof.
  unfold getDocumentById, dbGet.
  destruct (getFails (db s) id); [split; [intros [=] | intros [[=] _]]|].
  destruct (cells (db s) !! id) as [[d'|]|].
  - split; [intros [= ->]; auto | intros [_ [= ->]]; reflexivity].
  - split; [intros [=] | intros [_ [=]]].
  - split; [intros [=] | intros [_ [=]]].
Qed.

Lemma gatherIds_inl (L : GoLib) (s : server) (l : list queryComparison) :
  forall isRange counts n isRange' counts' n',
    gatherIds L s l isRange counts n = inl (isRange', counts', n') ->
    isRange' = isRange || hasRange l /\
    n' = n + equalityCount l /\
    (positiveCounts counts -> positiveCounts counts').
Proof.
  induction l as [|a rest IH]; intros isRange counts n isRange' counts' n'; simpl.
  - intros [= <- <- <-]. rewrite orb_false_r, Nat.add_0_r. auto.
  - change (String.eqb (op a) "=") with (isEquality a).
    destruct (isEquality a) eqn:Ea; simpl.
    + destruct (lookup s _) as [ids|e]; [|intros [=]].
      intros H. apply IH in H. destruct H as (-> & -> & Hpos).
      split; [reflexivity|]. split; [lia|].
      intros Hc. apply Hpos, countIds_positive, Hc.
    + intros H. apply IH in H. destruct H as (-> & -> & Hpos).
      split; [destruct isRange; reflexivity|]. split; [lia | exact Hpos].
Qed.

Lemma idsInAllOf_zero (counts : gmap string nat) :
  positiveCounts counts -> idsInAllOf counts 0 = [].
Proof.
  intros Hpos. destruct (idsInAllOf counts 0) as [|id t] eqn:E; [reflexivity|].
  assert (H : id ∈ idsInAllOf counts 0) by (rewrite E; left).
  apply (proj2 (idsInAllOf_spec counts 0)) in H. apply Hpos in H. lia.
Qed.

Lemma fromIndex_inl (L : GoLib) (s : server) (q : query) (isRange : bool)
    (ids : list string) :
  forall documents result,
    fromIndex L s q isRange ids documents = inl result ->
    exists l,
      result = (documents ++ l)%list /\
      sublist l.*1 ids /\
      (forall id d, In (id, d) l ->
                    getDocumentById s id = inl d /\
                    (isRange = true -> query_match L q d = true)) /\
      (forall id, In id ids ->
                  exists d, getDocumentById s id = inl d /\
                            (negb isRange || query_match L q d = true ->
                             In (id, d) l)).
Proof.
  induction ids as [|id rest IH]; intros documents result; simpl.
  - intros [= <-]. exists []. rewrite app_nil_r.
    split; [reflexivity|]. split; [apply sublist_nil|].
    split; [intros id d [] | intros id []].
  - destruct (getDocumentById s id) as [d|e] eqn:G; [|intros [=]].
    destruct (negb isRange || query_match L q d) eqn:K; intros H;
      apply IH in H; destruct H as (l & -> & Hsub & Hsound & Hall).
    + exists ((id, d) :: l). rewrite <- app_assoc.
      split; [reflexivity|]. split; [apply sublist_skip, Hsub|]. split.
      * intros id' d' [[= <- <-] | Hin]; [|apply Hsound, Hin].
        split; [exact G|]. intros ->. exact K.
      * intros id' [<- | Hin].
        -- exists d. split; [exact G|]. intros _. left. reflexivity.
        -- destruct (Hall id' Hin) as (d' & Hd' & Hl).
           exists d'. split; [exact Hd'|]. intros Hk. right. apply Hl, Hk.
    + exists l. split; [reflexivity|]. split; [apply sublist_cons, Hsub|].
      split; [exact Hsound|].
      intros id' [<- | Hin].
      * exists d. split; [exact G|]. rewrite K. intros [=].
      * apply Hall, Hin.
Qed.

Lemma fromIndex_inr (L : GoLib) (s : server) (q : query) (isRange : bool)
    (ids : list string) (id : string) (e : error) :
  In id ids -> getDocumentById s id = inr e ->
  forall documents,
    exists id' e', In id' ids /\ getDocumentById s id' = inr e' /\
                   fromIndex L s q isRange ids documents = inr e'.
Proof.
  induction ids as [|id0 rest IH]; intros Hin He documents; [destruct Hin|].
  simpl. destruct (getDocumentById s id0) as [d|e0] eqn:G.
  - destruct Hin as [-> | Hin]; [congruence|].
    destruct (negb isRange || query_match L q d);
      [destruct (IH Hin He (documents ++ [(id0, d)])%list) as (id' & e' & H1 & H2 & H3)
      |destruct (IH Hin He documents) as (id' & e' & H1 & H2 & H3)];
      exists id', e'; (split; [right; exact H1 | split; assumption]).
  - exists id0, e0. split; [left; reflexivity | split; [exact G | reflexivity]].
Qed.

(** The plan of a search whose lookups do not fail. *)
Lemma searchDocuments_planned (L : GoLib) (s : server) (qParam skipIndex : string)
    (q : query) :
  parseQuery L qParam = Ok q ->
  (forall a, In a (ands q) -> isEquality a = true ->
             getFails (indexDb s) (fingerprint a) = false) ->
  exists idsInAll,
    NoDup idsInAll /\
    (forall id, id ∈ idsInAll <->
                0 < occurrences (indexDb s) (ands q) id /\
                occurrences (indexDb s) (ands q) id = equalityCount (ands q)) /\
    searchDocuments L s qParam skipIndex
    = (if String.eqb skipIndex "true" then
         respond (fromScan L q (dbEntries (db s)) [])
       else
         match idsInAll with
         | [] => respond (fromScan L q (dbEntries (db s)) [])
         | _ :: _ => respond (fromIndex L s q (hasRange (ands q)) idsInAll [])
         end).
Proof.
  intros Hp Hok.
  destruct (gatherIds_ok L s (ands q) false ∅ 0 Hok) as (counts & Hg & Hpos & Hcount).
  { intros id c. rewrite lookup_empty. discriminate. }
  simpl in Hg.
  destruct (idsInAllOf_spec counts (equalityCount (ands q))) as [Hnd Hin].
  exists (idsInAllOf counts (equalityCount (ands q))).
  split; [exact Hnd|]. split.
  - intros id. rewrite Hin. specialize (Hcount id).
    unfold countOf in Hcount. rewrite lookup_empty in Hcount. simpl in Hcount.
    split.
    + intros H. rewrite H in Hcount. apply Hpos in H. lia.
    + intros [H1 H2]. destruct (counts !! id) as [c|]; [f_equal; lia | lia].
  - unfold searchDocuments. rewrite Hp, Hg.
    destruct (String.eqb skipIndex "true"); simpl; [reflexivity|].
    destruct (idsInAllOf counts (equalityCount (ands q))); reflexivity.
Qed.

(** X8: what a search answers is in the store.  When [searchDocuments]
    answers documents, the query was parsed, the count is the number of
    documents, no id comes twice, every document is the one stored under its
    id, and every document matches the query when the store was scanned on
    request or for want of an equality predicate, or when the query has a
    range predicate. *)
Theorem search_sound (L : GoLib) (s : server) (qParam skipIndex : string)
    (documents : list (string * document)) (count : nat) :
  searchDocuments L s qParam skipIndex = RespOk documents count ->
  exists q,
    parseQuery L qParam = Ok q /\
    count = length documents /\
    NoDup documents.*1 /\
    forall id d,
      In (id, d) documents ->
      cells (db s) !! id = Some (Some d) /\
      (skipIndex = "true" \/ hasRange (ands q) = true \/ equalityCount (ands q) = 0 ->
       query_match L q d = true).
Proof.
  unfold searchDocuments.
  destruct (parseQuery L qParam) as [q|e| |] eqn:Hp;
    try (intros Habs; discriminate Habs).
  destruct (gatherIds L s (ands q) false ∅ 0) as [[[isRange counts] n]|e] eqn:Hg;
    [|intros [=]].
  apply gatherIds_inl in Hg. simpl in Hg. destruct Hg as (-> & -> & Hpos).
  assert (Hpos' : positiveCounts counts).
  { apply Hpos. intros id c. rewrite lookup_empty. discriminate. }
  clear Hpos.
  assert (Hscan :
            respond (fromScan L q (dbEntries (db s)) []) = RespOk documents count ->
            count = length documents /\ NoDup documents.*1 /\
            forall id d, In (id, d) documents ->
                         cells (db s) !! id = Some (Some d) /\ query_match L q d = true).
  { unfold respond. destruct (fromScan L q (dbEntries (db s)) []) as [r|e] eqn:F;
      [|intros [=]].
    intros [= <- <-]. apply fromScan_inl in F. simpl in F. subst r.
    split; [reflexivity|]. split.
    - apply (sublist_NoDup _ (dbEntries (db s)).*1);
        [apply dbEntries_NoDup | apply matching_sublist].
    - intros id d Hin. apply matching_In in Hin. destruct Hin as [Hin M].
      apply dbEntries_In in Hin. auto. }
  intros H. exists q. split; [reflexivity|].
  destruct (String.eqb skipIndex "true") eqn:Sk; simpl in H.
  { destruct (Hscan H) as (H1 & H2 & H3).
    split; [exact H1|]. split; [exact H2|].
    intros id d Hin. destruct (H3 id d Hin). auto. }
  destruct (idsInAllOf counts (equalityCount (ands q))) as [|id0 t] eqn:E;
    [simpl in H | change (0 <? length (id0 :: t))%nat with true in H; cbv iota in H].
  { destruct (Hscan H) as (H1 & H2 & H3).
    split; [exact H1|]. split; [exact H2|].
    intros id d Hin. destruct (H3 id d Hin). auto. }
  unfold respond in H.
  destruct (fromIndex L s q (hasRange (ands q)) (id0 :: t) []) as [r|e] eqn:F;
    [|discriminate].
  injection H as <- <-.
  apply fromIndex_inl in F. destruct F as (l & -> & Hsub & Hsnd & _). simpl.
  split; [reflexivity|]. split.
  - apply (sublist_NoDup _ (id0 :: t)); [|exact Hsub].
    rewrite <- E. apply idsInAllOf_spec.
  - intros id d Hin. destruct (Hsnd id d Hin) as [G M].
    apply getDocumentById_inl in G. split; [apply G|].
    intros [Hs | [Hr | H0]].
    + apply String.eqb_neq in Sk. congruence.
    + apply M, Hr.
    + rewrite H0, (idsInAllOf_zero counts Hpos') in E. discriminate.
Qed.

Lemma search_sound_witness :
  exists q,
    parseQuery latin1Lib "a:1" = Ok q /\
    2 = length [("id1", [("a", VString "1")]);
                ("id2", [("a", VString "1"); ("b", VString "2")])] /\
    NoDup [("id1", [("a", VString "1")]);
           ("id2", [("a", VString "1"); ("b", VString "2")])].*1 /\
    forall id d,
      In (id, d) [("id1", [("a", VString "1")]);
                  ("id2", [("a", VString "1"); ("b", VString "2")])] ->
      cells (db indexedServer) !! id = Some (Some d) /\
      ("true" = "true" \/ hasRange (ands q) = true \/ equalityCount (ands q) = 0 ->
       query_match latin1Lib q d = true).
Proof.
  apply (search_sound latin1Lib indexedServer "a:1" "true").
  vm_compute. reflexivity.
Defined.

Lemma allDecode_entries (d : DB (option document)) :
  allDecode d <-> forall k, ~ In (k, None) (dbEntries d).
Proof.
  unfold allDecode. split; intros H k; [rewrite dbEntries_In | rewrite <- dbEntries_In];
    apply H.
Qed.

(** X9: a search that scans the store ([skipIndex=true], or a query without
    equality predicate), its lookups not failing, answers exactly the stored
    documents that match the query, in the order of their ids, when every
    stored value decodes, and the decoding error when one does not. *)
Theorem search_scan (L : GoLib) (s : server) (qParam skipIndex : string) (q : query) :
  parseQuery L qParam = Ok q ->
  (forall a, In a (ands q) -> isEquality a = true ->
             getFails (indexDb s) (fingerprint a) = false) ->
  skipIndex = "true" \/ equalityCount (ands q) = 0 ->
  (allDecode (db s) ->
   exists documents,
     searchDocuments L s qParam skipIndex = RespOk documents (length documents) /\
     (forall id d, In (id, d) documents <->
                   cells (db s) !! id = Some (Some d) /\ query_match L q d = true) /\
     StronglySorted keyOrder documents.*1) /\
  (~ allDecode (db s) ->
   searchDocuments L s qParam skipIndex = RespError JsonError).
Proof.
  intros Hp Hok Hmode.
  destruct (searchDocuments_planned L s qParam skipIndex q Hp Hok)
    as (idsInAll & _ & Hmem & Hs).
  assert (Hscan : searchDocuments L s qParam skipIndex
                  = respond (fromScan L q (dbEntries (db s)) [])).
  { rewrite Hs. destruct Hmode as [-> | H0]; [reflexivity|].
    destruct (String.eqb skipIndex "true"); [reflexivity|].
    destruct idsInAll as [|id t]; [reflexivity|].
    assert (Hid : id ∈ id :: t) by left.
    apply Hmem in Hid. lia. }
  rewrite Hscan. split.
  - intros Hd. assert (Hd' := proj1 (allDecode_entries (db s)) Hd).
    rewrite (fromScan_decoded L q _ Hd'). simpl.
    exists (matching L q (dbEntries (db s))). split; [reflexivity|]. split.
    + intros id d. rewrite matching_In, dbEntries_In. reflexivity.
    + apply (sublist_sorted _ (dbEntries (db s)).*1);
        [apply matching_sublist | apply dbEntries_sorted].
  - intros Hn. destruct (undecoded_dec (dbEntries (db s))) as [Hd | [k Hk]].
    + exfalso. apply Hn. exact (proj2 (allDecode_entries (db s)) Hd).
    + rewrite (fromScan_undecoded L q _ k Hk). reflexivity.
Qed.

Lemma search_scan_witness :
  (allDecode (db indexedServer) ->
   exists documents,
     searchDocuments latin1Lib indexedServer "b:2" "true"
     = RespOk documents (length documents) /\
     (forall id d, In (id, d) documents <->
                   cells (db indexedServer) !! id = Some (Some d) /\
                   query_match latin1Lib
                     {| ands := [ {| key := ["b"]; value := "2"; op := "=" |} ] |} d
                   = true) /\
     StronglySorted keyOrder documents.*1) /\
  (~ allDecode (db indexedServer) ->
   searchDocuments latin1Lib indexedServer "b:2" "true" = RespError JsonError).
Proof.
  apply (search_scan latin1Lib indexedServer "b:2" "true"
           {| ands := [ {| key := ["b"]; value := "2"; op := "=" |} ] |}).
  - vm_compute. reflexivity.
  - intros a _ _. reflexivity.
  - left. reflexivity.
Defined.

(** X10: a candidate of the index whose document cannot be read makes the
    whole search fail: when an id is listed under every equality predicate of
    the query (there is one) and [getDocumentById] fails on it, a search that
    does not skip the index answers the error of such an id, whatever else
    the store holds. *)
Theorem search_fails_on_unreadable_candidate (L : GoLib) (s : server)
    (qParam skipIndex : string) (q : query) (id : string) (e : error) :
  parseQuery L qParam = Ok q ->
  (forall a, In a (ands q) -> isEquality a = true ->
             getFails (indexDb s) (fingerprint a) = false) ->
  skipIndex <> "true" ->
  0 < occurrences (indexDb s) (ands q) id ->
  occurrences (indexDb s) (ands q) id = equalityCount (ands q) ->
  getDocumentById s id = inr e ->
  exists id' e',
    occurrences (indexDb s) (ands q) id' = equalityCount (ands q) /\
    getDocumentById s id' = inr e' /\
    searchDocuments L s qParam skipIndex = RespError e'.
Proof.
  intros Hp Hok Hsk H0 Hocc He.
  destruct (searchDocuments_planned L s qParam skipIndex q Hp Hok)
    as (idsInAll & _ & Hmem & Hs).
  assert (Hid : id ∈ idsInAll) by (apply Hmem; auto).
  apply String.eqb_neq in Hsk. rewrite Hsk in Hs.
  destruct idsInAll as [|id0 t] eqn:E; [inversion Hid|].
  apply list_elem_of_In in Hid.
  destruct (fromIndex_inr L s q (hasRange (ands q)) (id0 :: t) id e Hid He [])
    as (id' & e' & Hin' & He' & Hf).
  exists id', e'. split; [|split; [exact He'|]].
  - apply list_elem_of_In in Hin'. apply Hmem in Hin'. apply Hin'.
  - rewrite Hs, Hf. reflexivity.
Qed.

Lemma search_fails_on_unreadable_candidate_witness :
  exists id' e',
    occurrences
      (indexDb (snd (addDocument latin1Lib exactCodec readOnlyServer
                       (Some [("b", VString "2")]) "id2")))
      [ {| key := ["b"]; value := "2"; op := "=" |} ] id' = 1 /\
    getDocumentById (snd (addDocument latin1Lib exactCodec readOnlyServer
                            (Some [("b", VString "2")]) "id2")) id' = inr e' /\
    searchDocuments latin1Lib
      (snd (addDocument latin1Lib exactCodec readOnlyServer
              (Some [("b", VString "2")]) "id2")) "b:2" ""
    = RespError e'.
Proof.
  apply (search_fails_on_unreadable_candidate latin1Lib
           (snd (addDocument latin1Lib exactCodec readOnlyServer
                   (Some [("b", VString "2")]) "id2"))
           "b:2" "" {| ands := [ {| key := ["b"]; value := "2"; op := "=" |} ] |}
           "id2" ErrNotFound).
  - vm_compute. reflexivity.
  - intros a _ _. reflexivity.
  - discriminate.
  - vm_compute. lia.
  - vm_compute. reflexivity.
  - vm_compute. reflexivity.
Defined.

(** ** [Split] and [Join] *)

Lemma splitAcc_nonempty (sep : ascii) (s : string) :
  forall cur, splitAcc sep cur s <> [].
Proof.
  induction s as [|c t IH]; intros cur; simpl; [discriminate|].
  destruct (Ascii.eqb c sep); [discriminate | apply IH].
Qed.

Lemma Join_cons2 (x y : string) (l : list string) (sep : string) :
  Join (x :: y :: l) sep = x ++ sep ++ Join (y :: l) sep.
Proof. reflexivity. Qed.

Lemma Join_splitAcc (sep : ascii) (s : string) :
  forall cur,
    Join (splitAcc sep cur s) (String sep "") = string_of_list_ascii (rev cur) ++ s.
Proof.
  induction s as [|c t IH]; intros cur; simpl.
  - rewrite append_empty_r. reflexivity.
  - destruct (Ascii.eqb c sep) eqn:E.
    + apply Ascii.eqb_eq in E. subst c.
      specialize (IH []). simpl in IH.
      destruct (splitAcc sep [] t) as [|y l] eqn:S;
        [exfalso; apply (splitAcc_nonempty sep t [] S)|].
      rewrite Join_cons2, IH. reflexivity.
    + rewrite IH. simpl. apply string_of_list_ascii_snoc.
Qed.

Lemma sepFree_string_of_list_ascii (sep : ascii) (l : list ascii) :
  Forall (fun a => a <> sep) l -> sepFree sep (string_of_list_ascii l).
Proof.
  unfold sepFree. rewrite list_ascii_of_string_of_list_ascii. auto.
Qed.

Lemma splitAcc_sepFree (sep : ascii) (s : string) :
  forall cur,
    Forall (fun a => a <> sep) cur -> Forall (sepFree sep) (splitAcc sep cur s).
Proof.
  induction s as [|c t IH]; intros cur Hcur; simpl.
  - constructor; [|constructor].
    apply sepFree_string_of_list_ascii, Forall_rev, Hcur.
  - destruct (Ascii.eqb c sep) eqn:E.
    + constructor; [|apply IH; constructor].
      apply sepFree_string_of_list_ascii, Forall_rev, Hcur.
    + apply IH. constructor; [|exact Hcur].
      apply Ascii.eqb_neq, E.
Qed.

Lemma not_sepFree_append (c : ascii) (x z : string) : ~ sepFree c (x ++ String c z).
Proof.
  unfold sepFree. induction x as [|a x IH]; intros H.
  - change ("" ++ String c z) with (String c z) in H. simpl in H.
    inversion H as [|? ? Hc _]. apply Hc. reflexivity.
  - change (String a x ++ String c z) with (String a (x ++ String c z)) in H.
    simpl in H. inversion H as [|? ? _ Ht]. apply IH, Ht.
Qed.

Lemma sepFree_append_inj (c : ascii) (k : string) :
  forall k' v v',
    sepFree c k -> sepFree c k' ->
    k ++ String c v = k' ++ String c v' -> k = k' /\ v = v'.
Proof.
  unfold sepFree. induction k as [|a k IH]; intros [|a' k'] v v' Hk Hk' H.
  - change (String c v = String c v') in H. injection H as ->. auto.
  - change (String c v = String a' (k' ++ String c v')) in H. injection H as <- _.
    simpl in Hk'. inversion Hk' as [|? ? Hc _]. exfalso. apply Hc. reflexivity.
  - change (String a (k ++ String c v) = String c v') in H. injection H as -> _.
    simpl in Hk. inversion Hk as [|? ? Hc _]. exfalso. apply Hc. reflexivity.
  - change (String a (k ++ String c v) = String a' (k' ++ String c v')) in H.
    injection H as -> H. simpl in Hk, Hk'.
    inversion Hk as [|? ? _ Hk1]. inversion Hk' as [|? ? _ Hk1'].
    destruct (IH k' v v' Hk1 Hk1' H) as [-> ->]. auto.
Qed.

Lemma Join_Split_parts (s : string) :
  Split s "." <> [] /\ Forall (sepFree ".") (Split s ".").
Proof.
  unfold Split. split; [apply splitAcc_nonempty | apply splitAcc_sepFree; constructor].
Qed.

(** [strings.Join] undoes [strings.Split] on the same one-byte separator;
    the pieces of a split are never none and none of them holds the
    separator. *)
Lemma Join_Split (s : string) (sep : ascii) :
  Join (Split s sep) (String sep "") = s /\
  Split s sep <> [] /\
  Forall (sepFree sep) (Split s sep).
Proof.
  unfold Split. split; [|split].
  - apply (Join_splitAcc sep s []).
  - apply splitAcc_nonempty.
  - apply splitAcc_sepFree. constructor.
Qed.

(** ** What the parser records *)

(** A property of predicates built from two atoms holds of every predicate
    of a parsed query. *)
Lemma parseLoop_each (L : GoLib) (q : string) (qRune : list rune)
    (P : queryComparison -> Prop) :
  (forall k v o i n i' n',
      lexString L qRune i = (k, n, None) ->
      lexString L qRune i' = (v, n', None) ->
      P {| key := Split k "."; value := v; op := o |}) ->
  forall fuel i parsed r,
    Forall P parsed ->
    parseLoop L q qRune fuel i parsed = Ok r ->
    Forall P (ands r).
Proof.
  intros HP.
  induction fuel as [|fuel IH]; intros i parsed r Hparsed; simpl.
  - destruct (i <? length qRune)%nat; simpl; [intros [=]|].
    intros [= <-]. exact Hparsed.
  - destruct (i <? length qRune)%nat; simpl; [|intros [= <-]; exact Hparsed].
    destruct (eatWhitespace L (drop i qRune) i) as [i1|]; [|intros [=]].
    destruct (lexString L qRune i1) as [[k n1] e1] eqn:E1.
    destruct e1; [destruct (suffixFrom q n1); intros [=]|].
    destruct (byteAt q n1) as [c|]; [|intros [=]].
    destruct (negb (Ascii.eqb c ":")); [destruct (suffixFrom q n1); intros [=]|].
    destruct (byteAt q (n1 + 1)) as [c2|]; [|intros [=]].
    destruct (Ascii.eqb c2 ">" || Ascii.eqb c2 "<").
    + destruct (byteAt q (S (n1 + 1))) as [c3|] eqn:E3; [|intros [=]].
      destruct (lexString L qRune (S (n1 + 1))) as [[v n2] e2] eqn:E2.
      destruct e2; [destruct (suffixFrom q n2); intros [=]|].
      apply IH. apply Forall_app. split; [exact Hparsed|].
      constructor; [|constructor]. apply (HP _ _ _ _ _ _ _ E1 E2).
    + destruct (lexString L qRune (n1 + 1)) as [[v n2] e2] eqn:E2.
      destruct e2; [destruct (suffixFrom q n2); intros [=]|].
      apply IH. apply Forall_app. split; [exact Hparsed|].
      constructor; [|constructor]. apply (HP _ _ _ _ _ _ _ E1 E2).
Qed.

Lemma parseQuery_each (L : GoLib) (qParam : string) (q : query)
    (P : queryComparison -> Prop) :
  (forall k v o, P {| key := Split k "."; value := v; op := o |}) ->
  parseQuery L qParam = Ok q -> Forall P (ands q).
Proof.
  intros HP. unfold parseQuery. destruct (String.eqb qParam "").
  - intros [= <-]. constructor.
  - apply parseLoop_each; [|constructor].
    intros k v o i n i' n' _ _. apply HP.
Qed.

(** X11: the key of a predicate that [parseQuery] returns is never empty,
    none of its parts holds a dot, quoted or not (a key of a document that
    holds a dot cannot be named by a query), and joining the parts with dots,
    as [searchDocuments] does for its lookups, gives a text that splits into
    the same parts. *)
Theorem parseQuery_key_parts (L : GoLib) (qParam : string) (q : query) :
  parseQuery L qParam = Ok q ->
  Forall (fun a => key a <> [] /\
                   Forall (sepFree ".") (key a) /\
                   Split (Join (key a) ".") "." = key a) (ands q).
Proof.
  apply parseQuery_each. intros k v o. simpl.
  destruct (Join_Split_parts k) as [H1 H2]. split; [exact H1|]. split; [exact H2|].
  f_equal. apply (Join_splitAcc "." k []).
Qed.

Lemma parseQuery_key_parts_witness :
  Forall (fun a => key a <> [] /\
                   Forall (sepFree ".") (key a) /\
                   Split (Join (key a) ".") "." = key a)
    (ands {| ands := [ {| key := ["a"; "b"]; value := "1"; op := "=" |} ] |}).
Proof.
  apply (parseQuery_key_parts latin1Lib (quote ++ "a.b" ++ quote ++ ":1")).
  vm_compute. reflexivity.
Defined.

(** ** The index mirrors the store *)

Lemma updatedIds_only (idsString id id' : string) :
  commaFree id ->
  In id' (idsOf (updatedIds idsString id)) -> In id' (idsOf idsString) \/ id' = id.
Proof.
  intros Hc. unfold updatedIds.
  destruct (len idsString =? 0)%nat eqn:E.
  - unfold idsOf at 1. destruct (len id =? 0)%nat; [intros []|].
    rewrite (Split_commaFree id Hc). intros [<- | []]. right. reflexivity.
  - destruct (existsb (String.eqb id) (Split idsString ",")); simpl; [auto|].
    unfold idsOf at 1. rewrite len_append_id, Split_append_id, (Split_commaFree id Hc).
    intros H. apply in_app_or in H. destruct H as [H | [<- | []]].
    + left. unfold idsOf. rewrite E. exact H.
    + right. reflexivity.
Qed.

Lemma indexStep_only (idx : DB string) (id id' F F' : string) :
  commaFree id ->
  In id' (postings (indexStep idx id F') F) ->
  In id' (postings idx F) \/ (id' = id /\ F' = F).
Proof.
  intros Hc. rewrite indexStep_unfold.
  destruct (setFails idx F'); [auto|].
  rewrite !postings_idsOf. simpl.
  destruct (decide (F' = F)) as [-> | Hd].
  - rewrite lookup_insert_eq. intros H. apply (updatedIds_only _ _ _ Hc) in H.
    destruct H as [H | ->]; [|auto].
    left. unfold readIds, dbGet in H.
    destruct (getFails idx F); [destruct H|].
    destruct (cells idx !! F); [exact H | destruct H].
  - rewrite lookup_insert_ne by exact Hd. auto.
Qed.

Lemma indexPathValues_only (id id' F : string) (pv : list string) :
  commaFree id ->
  forall idx,
    In id' (postings (indexPathValues idx id pv) F) ->
    In id' (postings idx F) \/ (id' = id /\ In F pv).
Proof.
  intros Hc. induction pv as [|F' rest IH]; intros idx H; [auto|].
  rewrite indexPathValues_cons in H. apply IH in H.
  destruct H as [H | [-> H]]; [|right; split; [reflexivity | right; exact H]].
  apply (indexStep_only _ _ _ _ _ Hc) in H.
  destruct H as [H | [-> ->]]; [auto|].
  right. split; [reflexivity | left; reflexivity].
Qed.

(** The posting lists after a run on a store without faults. *)
Lemma indexPathValues_postings (id id' F : string) (pv : list string) (idx : DB string) :
  commaFree id -> id <> "" ->
  (forall k, getFails idx k = false) -> (forall k, setFails idx k = false) ->
  In id' (postings (indexPathValues idx id pv) F)
  <-> In id' (postings idx F) \/ (id' = id /\ In F pv).
Proof.
  intros Hc Hne Hg Hs. split; [apply indexPathValues_only, Hc|].
  intros [H | [-> H]].
  - apply indexPathValues_keeps; [intros; apply Hg | exact H].
  - destruct (indexPathValues_member id F pv Hc Hne idx H (Hs F)) as (v & Hv & Hin).
    rewrite postings_idsOf, Hv. exact Hin.
Qed.

Lemma consistent_empty (L : GoLib) : consistent L emptyServer.
Proof.
  split; try (intros k; reflexivity).
  - intros id. simpl. rewrite lookup_empty. discriminate.
  - intros F id. unfold postings. simpl. rewrite lookup_empty. split; [intros []|].
    intros (d & Hd & _). rewrite lookup_empty in Hd. discriminate.
  - intros id F. unfold postings. simpl. rewrite lookup_empty. simpl. lia.
Qed.

Lemma addDocument_consistent (L : GoLib) (J : JsonCodec) (s : server)
    (doc : document) (id : string) :
  consistent L s ->
  marshal J doc = Some (Some doc) ->
  commaFree id -> id <> "" ->
  cells (db s) !! id = None ->
  consistent L (snd (addDocument L J s (Some doc) id)).
Proof.
  intros [Hdg Hds Hig His Hdec Hmir Honce] HJ Hc Hne Hfresh.
  rewrite (addDocument_stored L J s doc id (Some doc) HJ (Hds id)).
  simpl. split; simpl.
  - exact Hdg.
  - exact Hds.
  - intros k. rewrite indexPathValues_getFails. apply Hig.
  - intros k. rewrite indexPathValues_setFails. apply His.
  - intros id'. simpl. destruct (decide (id = id')) as [<- | Hd].
    + rewrite lookup_insert_eq. discriminate.
    + rewrite lookup_insert_ne by exact Hd. apply Hdec.
  - intros F id'.
    rewrite (indexPathValues_postings id id' F _ (indexDb s) Hc Hne Hig His).
    rewrite Hmir. split.
    + intros [(d & Hd & HF) | [-> HF]].
      * exists d. split; [|exact HF].
        rewrite lookup_insert_ne; [exact Hd|]. intros <-. congruence.
      * exists doc. split; [apply lookup_insert_eq | exact HF].
    + intros (d & Hd & HF). destruct (decide (id = id')) as [<- | Hdiff].
      * rewrite lookup_insert_eq in Hd. injection Hd as <-. right. auto.
      * rewrite lookup_insert_ne in Hd by exact Hdiff. left. eauto.
  - intros id'. destruct (string_dec id' id) as [-> | Hdiff].
    + apply indexPathValues_at_most_once, Honce.
    + apply indexPathValues_preserves; [|apply Honce].
      intros idsString. apply updatedIds_other_id; assumption.
Qed.

Lemma commaFree_id1 : commaFree "id1".
Proof.
  unfold commaFree. simpl. repeat (apply List.Forall_cons; [discriminate|]).
  apply List.Forall_nil.
Qed.

Lemma consistent_oneDocServer : consistent latin1Lib oneDocServer.
Proof.
  apply addDocument_consistent;
    [apply consistent_empty | reflexivity | apply commaFree_id1 | discriminate
    | reflexivity].
Qed.

(** X12: [addDocument] keeps the index store a mirror of the primary store.
    On a consistent server, adding a document that the codec reads back as it
    was, under a fresh id that is not empty and has no comma, succeeds and
    leaves a consistent server: the posting lists hold exactly the ids of the
    stored documents with the fingerprint, each once; the documents stored
    are the ones that were, and the new one. *)
Theorem addDocument_keeps_consistent (L : GoLib) (J : JsonCodec) (s : server)
    (doc : document) (id : string) :
  consistent L s ->
  marshal J doc = Some (Some doc) ->
  commaFree id -> id <> "" ->
  cells (db s) !! id = None ->
  fst (addDocument L J s (Some doc) id) = AddOk id /\
  consistent L (snd (addDocument L J s (Some doc) id)) /\
  cells (db (snd (addDocument L J s (Some doc) id)))
  = <[id := Some doc]> (cells (db s)).
Proof.
  intros Hcons HJ Hc Hne Hfresh.
  split; [|split; [apply addDocument_consistent; assumption|]];
    rewrite (addDocument_stored L J s doc id (Some doc) HJ
               (consistent_db_set L s Hcons id)); reflexivity.
Qed.

Lemma addDocument_keeps_consistent_witness :
  fst (addDocument latin1Lib exactCodec emptyServer (Some [("a", VString "1")]) "id1")
  = AddOk "id1" /\
  consistent latin1Lib
    (snd (addDocument latin1Lib exactCodec emptyServer
            (Some [("a", VString "1")]) "id1")) /\
  cells (db (snd (addDocument latin1Lib exactCodec emptyServer
                    (Some [("a", VString "1")]) "id1")))
  = <["id1" := Some [("a", VString "1")]]> (cells (db emptyServer)).
Proof.
  apply (addDocument_keeps_consistent latin1Lib exactCodec emptyServer
           [("a", VString "1")] "id1").
  - apply consistent_empty.
  - reflexivity.
  - apply commaFree_id1.
  - discriminate.
  - reflexivity.
Defined.

(** ** The index and the scan on flat documents *)

Lemma getPathValues_scalars (L : GoLib) (d : document) :
  Forall (fun e => isScalar (snd e) = true) d ->
  getPathValues L d "" = map (fun e => fst e ++ "=" ++ formatV L (snd e)) d.
Proof.
  unfold getPathValues. induction 1 as [|[k v] t Hv Ht IH]; [reflexivity|].
  simpl in *. rewrite IH. destruct v; try discriminate Hv; reflexivity.
Qed.

Lemma mapGet_In (m : document) (k : string) (v : any) :
  mapGet m k = Some v -> In (k, v) m.
Proof.
  induction m as [|[k' v'] t IH]; simpl; [discriminate|].
  destruct (String.eqb k' k) eqn:E.
  - apply String.eqb_eq in E. intros [= ->]. left. congruence.
  - intros H. right. apply IH, H.
Qed.

Lemma In_mapGet (m : document) (k : string) (v : any) :
  NoDup m.*1 -> In (k, v) m -> mapGet m k = Some v.
Proof.
  induction m as [|[k' v'] t IH]; simpl; intros Hnd Hin; [destruct Hin|].
  apply NoDup_cons in Hnd. destruct Hnd as [Hk' Hnd].
  destruct Hin as [[= -> ->] | Hin].
  - rewrite String.eqb_refl. reflexivity.
  - destruct (String.eqb k' k) eqn:E; [|apply IH; assumption].
    apply String.eqb_eq in E. subst k'. exfalso. apply Hk'.
    apply list_elem_of_In. apply (in_map fst) in Hin. exact Hin.
Qed.

Lemma getPathFrom_scalar (v : any) (parts : list string) (w : any) :
  isScalar v = true -> getPathFrom v parts = (w, true) -> parts = [] /\ w = v.
Proof.
  destruct parts as [|p rest]; simpl.
  - intros _ [= <-]. auto.
  - destruct v; simpl; try discriminate; intros _ [=].
Qed.

Lemma Join_single_or_dotted (parts : list string) :
  parts <> [] -> sepFree "." (Join parts ".") -> exists k, parts = [k].
Proof.
  destruct parts as [|x [|y l]]; [congruence | eauto |].
  intros _ H. exfalso. rewrite Join_cons2 in H.
  apply (not_sepFree_append "." x (Join (y :: l) ".")). exact H.
Qed.

(** On a flat document, a fingerprint of the document is what an equality
    predicate matches. *)
Lemma flat_fingerprint_match (L : GoLib) (d : document) (a : queryComparison) :
  flatDoc d ->
  key a <> [] -> sepFree "=" (Join (key a) ".") -> isEquality a = true ->
  In (fingerprint a) (getPathValues L d "") <-> matchArgument L a d = true.
Proof.
  intros [Hnd Hflat] Hk He Heq.
  assert (Hsc : Forall (fun e => isScalar (snd e) = true) d).
  { revert Hflat. apply List.Forall_impl. intros e H. apply H. }
  rewrite (getPathValues_scalars L d Hsc), in_map_iff.
  unfold matchArgument, getPath. unfold isEquality in Heq. split.
  - intros ([k v] & HF & Hin). simpl in HF. unfold fingerprint in HF.
    rewrite List.Forall_forall in Hflat.
    destruct (Hflat _ Hin) as (Hs & Hdot & Heqk). simpl in Hs, Hdot, Heqk.
    destruct (sepFree_append_inj "=" k (Join (key a) ".") (formatV L v) (value a)
                Heqk He HF) as [Hkey Hval].
    rewrite <- Hkey in He.
    destruct (Join_single_or_dotted (key a) Hk) as [k0 Hk0].
    { rewrite <- Hkey. exact Hdot. }
    rewrite Hk0 in Hkey |- *. simpl in Hkey. subst k0.
    simpl. rewrite (In_mapGet d k v Hnd Hin). simpl.
    rewrite Heq. apply String.eqb_eq. exact Hval.
  - destruct (key a) as [|p rest] eqn:Ek; [congruence|]. simpl.
    destruct (mapGet d p) as [v0|] eqn:G; [|simpl; discriminate].
    apply mapGet_In in G.
    rewrite List.Forall_forall in Hsc. assert (Hs := Hsc _ G). simpl in Hs.
    destruct (getPathFrom v0 rest) as [w ok] eqn:P.
    destruct ok; simpl; [|discriminate].
    destruct (getPathFrom_scalar v0 rest w Hs P) as [-> ->].
    rewrite Heq. intros Hv. apply String.eqb_eq in Hv.
    exists (p, v0). split; [|exact G].
    simpl. unfold fingerprint. rewrite Ek, Hv. reflexivity.
Qed.

Lemma occurrences_le (idx : DB string) (id : string) (l : list queryComparison) :
  atMostOnce id idx -> occurrences idx l id <= equalityCount l.
Proof.
  intros H1. induction l as [|a rest IH]; simpl; [lia|].
  destruct (isEquality a); [|lia]. specialize (H1 (fingerprint a)). lia.
Qed.

Lemma occurrences_full (idx : DB string) (id : string) (l : list queryComparison) :
  atMostOnce id idx ->
  occurrences idx l id = equalityCount l <->
  forall a, In a l -> isEquality a = true -> In id (postings idx (fingerprint a)).
Proof.
  intros H1. induction l as [|a rest IH]; simpl.
  - split; [intros _ a [] | reflexivity].
  - assert (Hle := occurrences_le idx id rest H1).
    assert (Ha := H1 (fingerprint a)).
    destruct (isEquality a) eqn:Ea.
    + split.
      * intros H b [<- | Hb] Hbe.
        -- apply (count_occ_In string_dec). lia.
        -- apply IH; [lia | exact Hb | exact Hbe].
      * intros H.
        assert (H0 : In id (postings idx (fingerprint a))) by (apply H; auto).
        apply (count_occ_In string_dec) in H0.
        assert (Hr : occurrences idx rest id = equalityCount rest).
        { apply IH. intros b Hb. apply H. right. exact Hb. }
        lia.
    + rewrite IH. split.
      * intros H b [<- | Hb] Hbe; [congruence | apply H; assumption].
      * intros H b Hb. apply H. right. exact Hb.
Qed.

Lemma occurrences_positive (idx : DB string) (id : string) (l : list queryComparison) :
  0 < occurrences idx l id ->
  exists a, In a l /\ isEquality a = true /\ In id (postings idx (fingerprint a)).
Proof.
  induction l as [|a rest IH]; simpl; [lia|].
  destruct (isEquality a) eqn:Ea.
  - destruct (count_occ string_dec (postings idx (fingerprint a)) id) eqn:C.
    + simpl. intros H. destruct (IH H) as (b & Hb & Hbe & Hin).
      exists b. auto.
    + intros _. exists a. split; [auto|]. split; [exact Ea|].
      apply (count_occ_In string_dec). lia.
  - simpl. intros H. destruct (IH H) as (b & Hb & Hbe & Hin). exists b. auto.
Qed.

Lemma matchAnds_all (L : GoLib) (l : list queryComparison) (d : document) :
  matchAnds L l d = true <-> forall a, In a l -> matchArgument L a d = true.
Proof.
  induction l as [|a rest IH]; simpl.
  - split; [intros _ a [] | reflexivity].
  - destruct (matchArgument L a d) eqn:M.
    + rewrite IH. split.
      * intros H b [<- | Hb]; [exact M | apply H, Hb].
      * intros H b Hb. apply H. right. exact Hb.
    + split; [discriminate|]. intros H. rewrite <- M. apply H. left. reflexivity.
Qed.

Lemma hasRange_false (l : list queryComparison) :
  hasRange l = false -> forall a, In a l -> isEquality a = true.
Proof.
  unfold hasRange. induction l as [|b rest IH]; simpl; [intros _ a []|].
  destruct (isEquality b) eqn:E; simpl; [|discriminate].
  intros H a [<- | Ha]; [exact E | apply IH; assumption].
Qed.

Lemma fromIndex_loads (L : GoLib) (s : server) (q : query) (isRange : bool)
    (ids : list string) :
  (forall id, In id ids -> exists d, getDocumentById s id = inl d) ->
  forall documents, exists result,
    fromIndex L s q isRange ids documents = inl result.
Proof.
  induction ids as [|id rest IH]; intros Hall documents; simpl; [eauto|].
  destruct (Hall id) as (d & ->); [left; reflexivity|].
  destruct (negb isRange || query_match L q d); apply IH;
    intros id' H; apply Hall; right; exact H.
Qed.

Lemma searchDocuments_flat (L : GoLib) (s : server)
    (qParam skipIndex : string) (q : query) :
  consistent L s ->
  (forall id d, cells (db s) !! id = Some (Some d) -> flatDoc d) ->
  parseQuery L qParam = Ok q ->
  (forall a, In a (ands q) -> isEquality a = true ->
             sepFree "=" (Join (key a) ".")) ->
  exists documents,
    searchDocuments L s qParam skipIndex = RespOk documents (length documents) /\
    NoDup documents.*1 /\
    forall id d,
      In (id, d) documents <->
      cells (db s) !! id = Some (Some d) /\ query_match L q d = true.
Proof.
  intros [Hdg Hds Hig His Hdec Hmir Honce] Hflat Hp Hkeys.
  assert (Hne : Forall (fun a => key a <> []) (ands q)).
  { apply (parseQuery_each L qParam q); [|exact Hp].
    intros k v o. simpl. apply Join_Split_parts. }
  rewrite List.Forall_forall in Hne.
  destruct (searchDocuments_planned L s qParam skipIndex q Hp)
    as (idsInAll & Hnd & Hmem & Hs); [intros; apply Hig|].
  assert (Hd' := proj1 (allDecode_entries (db s)) Hdec).
  assert (Hscan :
            exists documents,
              respond (fromScan L q (dbEntries (db s)) [])
              = RespOk documents (length documents) /\
              NoDup documents.*1 /\
              forall id d,
                In (id, d) documents <->
                cells (db s) !! id = Some (Some d) /\ query_match L q d = true).
  { rewrite (fromScan_decoded L q _ Hd'). simpl.
    exists (matching L q (dbEntries (db s))). split; [reflexivity|]. split.
    - apply (sublist_NoDup _ (dbEntries (db s)).*1);
        [apply dbEntries_NoDup | apply matching_sublist].
    - intros id d. rewrite matching_In, dbEntries_In. reflexivity. }
  rewrite Hs. destruct (String.eqb skipIndex "true"); [exact Hscan|].
  destruct idsInAll as [|id0 t] eqn:E; [exact Hscan|]. clear Hscan.
  rewrite <- E in *.
  assert (Hcount : 0 < equalityCount (ands q)).
  { assert (H0 : id0 ∈ idsInAll) by (rewrite E; left).
    apply Hmem in H0. lia. }
  (* what the equality predicates say of a stored document *)
  assert (Hlisted : forall id d,
             cells (db s) !! id = Some (Some d) ->
             (id ∈ idsInAll <->
              forall a, In a (ands q) -> isEquality a = true ->
                        matchArgument L a d = true)).
  { intros id d Hd. rewrite Hmem. split.
    - intros [_ Hocc] a Ha Hae.
      assert (Hpost := proj1 (occurrences_full _ _ _ (Honce id)) Hocc a Ha Hae).
      apply Hmir in Hpost.
      destruct Hpost as (d' & Hd'' & HF).
      assert (d' = d) by congruence. subst d'.
      apply (flat_fingerprint_match L d a); auto. apply (Hflat id), Hd.
    - intros Hall.
      assert (Hocc : occurrences (indexDb s) (ands q) id = equalityCount (ands q)).
      { apply (occurrences_full _ _ _ (Honce id)). intros a Ha Hae.
        apply Hmir. exists d. split; [exact Hd|].
        apply (flat_fingerprint_match L d a); auto. apply (Hflat id), Hd. }
      split; [lia | exact Hocc]. }
  assert (Hload : forall id, In id idsInAll -> exists d, getDocumentById s id = inl d).
  { intros id Hin. apply list_elem_of_In in Hin. apply Hmem in Hin.
    destruct Hin as [Hpos _]. apply occurrences_positive in Hpos.
    destruct Hpos as (a & _ & _ & Hin). apply Hmir in Hin.
    destruct Hin as (d & Hd & _). exists d.
    apply getDocumentById_inl. auto. }
  destruct (fromIndex_loads L s q (hasRange (ands q)) idsInAll Hload [])
    as (result & Hres).
  rewrite Hres. destruct (fromIndex_inl L s q _ _ _ _ Hres)
    as (l & -> & Hsub & Hsnd & Hall).
  simpl. exists l. split; [reflexivity|]. split.
  { apply (sublist_NoDup _ idsInAll); assumption. }
  intros id d. split.
  - intros Hin. destruct (Hsnd id d Hin) as [G M].
    apply getDocumentById_inl in G. destruct G as [_ G].
    split; [exact G|].
    destruct (hasRange (ands q)) eqn:R; [apply M; reflexivity|].
    unfold query_match. apply matchAnds_all. intros a Ha.
    assert (Hid : id ∈ idsInAll).
    { apply (sublist_subseteq _ _ Hsub). apply list_elem_of_In.
      apply (in_map fst) in Hin. exact Hin. }
    apply (proj1 (Hlisted id d G) Hid a Ha).
    apply (hasRange_false _ R a Ha).
  - intros [Hd M].
    assert (Hid : id ∈ idsInAll).
    { apply (Hlisted id d Hd). intros a Ha _.
      unfold query_match in M. apply (proj1 (matchAnds_all L _ d) M a Ha). }
    apply list_elem_of_In in Hid.
    destruct (Hall id Hid) as (d' & G & Hl).
    apply getDocumentById_inl in G. destruct G as [_ G].
    assert (d' = d) by congruence. subst d'.
    apply Hl. rewrite M. apply orb_true_r.
Qed.

(** X13: on a consistent server whose documents are flat, the index never
    changes the answer.  For a query that parses and whose equality
    predicates have a key without an equals sign, [searchDocuments] answers,
    with or without [skipIndex], exactly the stored documents that match the
    query, each once. *)
Theorem search_answers_matching_documents (L : GoLib) (s : server)
    (qParam skipIndex : string) (q : query) :
  consistent L s ->
  (forall id d, cells (db s) !! id = Some (Some d) -> flatDoc d) ->
  parseQuery L qParam = Ok q ->
  (forall a, In a (ands q) -> isEquality a = true ->
             sepFree "=" (Join (key a) ".")) ->
  exists documents,
    searchDocuments L s qParam skipIndex = RespOk documents (length documents) /\
    NoDup documents.*1 /\
    forall id d,
      In (id, d) documents <->
      cells (db s) !! id = Some (Some d) /\ query_match L q d = true.
Proof. apply searchDocuments_flat. Qed.


Lemma flat_oneDocServer :
  forall id d, cells (db oneDocServer) !! id = Some (Some d) -> flatDoc d.
Proof.
  intros id d. change (cells (db oneDocServer))
    with (<["id1" := Some [("a", VString "1")]]> (∅ : gmap string (option document))).
  destruct (decide ("id1" = id)) as [<- | Hd].
  - rewrite lookup_insert_eq. intros [= <-]. split.
    + simpl. apply NoDup_singleton.
    + repeat constructor; discriminate.
  - rewrite lookup_insert_ne by exact Hd. rewrite lookup_empty. discriminate.
Qed.

Lemma search_answers_matching_documents_witness :
  exists documents,
    searchDocuments latin1Lib oneDocServer "a:1" ""
    = RespOk documents (length documents) /\
    NoDup documents.*1 /\
    forall id d,
      In (id, d) documents <->
      cells (db oneDocServer) !! id = Some (Some d) /\
      query_match latin1Lib
        {| ands := [ {| key := ["a"]; value := "1"; op := "=" |} ] |} d = true.
Proof.
  apply (search_answers_matching_documents latin1Lib oneDocServer "a:1" ""
           {| ands := [ {| key := ["a"]; value := "1"; op := "=" |} ] |}).
  - apply consistent_oneDocServer.
  - apply flat_oneDocServer.
  - vm_compute. reflexivity.
  - intros a [<- | []] _. simpl. repeat constructor; discriminate.
Defined.

(** ** The lexer, atom by atom *)

Lemma lexQuoted_closed (body post : list rune) :
  Forall (fun c => c <> 34%Z) body ->
  forall index s,
    lexQuoted (body ++ 34%Z :: post) index s
    = (stringOfRunes (rev s ++ body), S (index + length body), None).
Proof.
  induction 1 as [|c t Hc Ht IH]; intros index s; simpl.
  - rewrite app_nil_r, Nat.add_0_r. reflexivity.
  - apply Z.eqb_neq in Hc. rewrite Hc, IH. simpl.
    rewrite <- app_assoc. simpl. f_equal. f_equal. lia.
Qed.

Lemma lexQuoted_open (body : list rune) :
  Forall (fun c => c <> 34%Z) body ->
  forall index s,
    lexQuoted body index s
    = ("", index + length body, Some ExpectedEndOfQuotedString).
Proof.
  induction 1 as [|c t Hc Ht IH]; intros index s; simpl.
  - rewrite Nat.add_0_r. reflexivity.
  - apply Z.eqb_neq in Hc. rewrite Hc, IH. f_equal. f_equal. lia.
Qed.

Lemma lexBare_atom (L : GoLib) (atom rest : list rune) :
  Forall (fun c => isAtomRune L c = true) atom ->
  (forall c t, rest = c :: t -> isAtomRune L c = false) ->
  forall index s,
    lexBare L (atom ++ rest) index s = ((rev atom ++ s)%list, index + length atom).
Proof.
  intros Ha Hr. induction Ha as [|c t Hc Ht IH]; intros index s; simpl.
  - rewrite Nat.add_0_r. destruct rest as [|c t]; [reflexivity|].
    simpl. unfold isAtomRune in Hr. rewrite (Hr c t eq_refl). reflexivity.
  - unfold isAtomRune in Hc. rewrite Hc. simpl. rewrite IH, <- app_assoc. simpl.
    f_equal. lia.
Qed.

Lemma isAtomRune_not_quote (L : GoLib) (c : rune) :
  isAtomRune L c = true -> (c =? 34)%Z = false.
Proof.
  intros H. destruct (c =? 34)%Z eqn:E; [|reflexivity].
  apply Z.eqb_eq in E. subst c. discriminate H.
Qed.

(** An unquoted atom read where it stands. *)
Lemma lexString_atom (L : GoLib) (input : list rune) (index : nat)
    (atom rest : list rune) :
  drop index input = (atom ++ rest)%list ->
  atom <> [] ->
  Forall (fun c => isAtomRune L c = true) atom ->
  (forall c t, rest = c :: t -> isAtomRune L c = false) ->
  lexString L input index = (stringOfRunes atom, index + length atom, None).
Proof.
  intros Hd Hne Ha Hr. unfold lexString. rewrite Hd.
  destruct atom as [|c t]; [congruence|].
  assert (Hc : isAtomRune L c = true) by (inversion Ha; assumption).
  cbn [app]. rewrite (isAtomRune_not_quote L c Hc).
  change (c :: t ++ rest)%list with ((c :: t) ++ rest)%list.
  rewrite (lexBare_atom L (c :: t) rest Ha Hr), app_nil_r.
  destruct (rev (c :: t)) as [|x l] eqn:R.
  - apply (f_equal (@rev _)) in R. rewrite rev_involutive in R. discriminate R.
  - rewrite <- R, rev_involutive. reflexivity.
Qed.

(** X14: a quoted atom ends at the first double quote that follows, no
    character escaping it: [lexString] returns the runes between the two
    quotes and the index after the closing one, and an error with the index
    at the end of the input when no quote follows. *)
Theorem lexString_quoted (L : GoLib) (pre body post : list rune) :
  Forall (fun c => c <> 34%Z) body ->
  lexString L (pre ++ 34%Z :: body ++ 34%Z :: post) (length pre)
  = (stringOfRunes body, length pre + length body + 2, None) /\
  lexString L (pre ++ 34%Z :: body) (length pre)
  = ("", length pre + length body + 1, Some ExpectedEndOfQuotedString).
Proof.
  intros Hb. unfold lexString. rewrite !drop_app_length. simpl. split.
  - rewrite (lexQuoted_closed body post Hb). simpl. f_equal. f_equal. lia.
  - rewrite (lexQuoted_open body Hb). f_equal. f_equal. lia.
Qed.

Lemma lexString_quoted_witness :
  lexString latin1Lib ([97; 58] ++ 34 :: [92; 120] ++ 34 :: [32])%list%Z (length [97; 58]%Z)
  = (stringOfRunes [92; 120]%Z, length [97; 58]%Z + length [92; 120]%Z + 2, None) /\
  lexString latin1Lib ([97; 58] ++ 34 :: [92; 120])%list%Z (length [97; 58]%Z)
  = ("", length [97; 58]%Z + length [92; 120]%Z + 1, Some ExpectedEndOfQuotedString).
Proof.
  apply (lexString_quoted latin1Lib [97; 58]%Z [92; 120]%Z [32]%Z).
  repeat (apply List.Forall_cons; [discriminate|]). apply List.Forall_nil.
Defined.

(** X15: an unquoted atom is the longest run of letters, digits and dots
    from the index on: [lexString] returns it and the index after it; when
    the run is empty and a rune other than a quote stands there, it returns
    the error [NoStringFound] and the index unchanged. *)
Theorem lexString_bare (L : GoLib) (pre atom rest : list rune) :
  Forall (fun c => isAtomRune L c = true) atom ->
  (forall c t, rest = c :: t -> isAtomRune L c = false) ->
  (forall t, atom = [] -> rest <> 34%Z :: t) ->
  lexString L (pre ++ atom ++ rest) (length pre)
  = (stringOfRunes atom, length pre + length atom,
     match atom, rest with
     | [], _ :: _ => Some NoStringFound
     | _, _ => None
     end).
Proof.
  intros Ha Hr Hq. destruct atom as [|c t] eqn:E.
  - unfold lexString. rewrite drop_app_length. simpl.
    destruct rest as [|c t]; [rewrite Nat.add_0_r; reflexivity|].
    destruct (c =? 34)%Z eqn:Q.
    { apply Z.eqb_eq in Q. subst c. exfalso. apply (Hq t); reflexivity. }
    simpl. unfold isAtomRune in Hr. rewrite (Hr c t eq_refl). simpl.
    rewrite Nat.add_0_r. reflexivity.
  - rewrite <- E in *. 
    rewrite (lexString_atom L _ _ atom rest); [rewrite E; reflexivity | | | | ]; auto.
    + apply drop_app_length.
    + rewrite E. discriminate.
Qed.

Lemma lexString_bare_witness :
  lexString latin1Lib ([32] ++ [97; 46; 98] ++ [58; 49])%list%Z (length [32]%Z)
  = (stringOfRunes [97; 46; 98]%Z, length [32]%Z + length [97; 46; 98]%Z, None).
Proof.
  apply (lexString_bare latin1Lib [32]%Z [97; 46; 98]%Z [58; 49]%Z).
  - repeat (apply List.Forall_cons; [reflexivity|]). apply List.Forall_nil.
  - intros c t [= <- _]. reflexivity.
  - discriminate.
Defined.

(** ** The parser ends *)

Lemma parseLoop_fuel (L : GoLib) (q : string) (qRune : list rune) (fuel : nat) :
  forall i parsed fuel',
    length qRune <= fuel + i -> fuel <= fuel' ->
    parseLoop L q qRune fuel' i parsed = parseLoop L q qRune fuel i parsed.
Proof.
  induction fuel as [|fuel IH]; intros i parsed fuel' Hf Hle.
  - assert (E : (i <? length qRune)%nat = false) by (apply Nat.ltb_ge; lia).
    destruct fuel'; simpl; rewrite E; reflexivity.
  - destruct fuel' as [|fuel']; [lia|]. simpl.
    destruct (i <? length qRune)%nat eqn:E; simpl; [|reflexivity].
    destruct (eatWhitespace L (drop i qRune) i) as [i1|] eqn:Ew; [|reflexivity].
    apply eatWhitespace_ge in Ew.
    destruct (lexString L qRune i1) as [[k n1] e1] eqn:E1.
    apply lexString_ge in E1.
    destruct e1; [reflexivity|].
    destruct (byteAt q n1) as [c|]; [|reflexivity].
    destruct (negb (Ascii.eqb c ":")); [reflexivity|].
    destruct (byteAt q (n1 + 1)) as [c2|]; [|reflexivity].
    destruct (Ascii.eqb c2 ">" || Ascii.eqb c2 "<").
    + destruct (byteAt q (S (n1 + 1))) as [c3|]; [|reflexivity].
      destruct (lexString L qRune (S (n1 + 1))) as [[v n2] e2] eqn:E2.
      apply lexString_ge in E2.
      destruct e2; [reflexivity|]. apply IH; lia.
    + destruct (lexString L qRune (n1 + 1)) as [[v n2] e2] eqn:E2.
      apply lexString_ge in E2.
      destruct e2; [reflexivity|]. apply IH; lia.
Qed.

(** X16: [parseQuery] ends on every input, with a query, an error or a
    panic: each turn of its loop moves the index forward, so that the number
    of runes of the input bounds the number of turns, and a larger bound
    gives the same outcome. *)
Theorem parseQuery_terminates (L : GoLib) (q : string) :
  parseQuery L q <> OutOfFuel /\
  forall fuel,
    length (runes q) <= fuel ->
    parseLoop L q (runes q) fuel 0 []
    = if String.eqb q "" then Ok {| ands := [] |} else parseQuery L q.
Proof.
  split.
  - unfold parseQuery. destruct (String.eqb q ""); [discriminate|].
    apply parseLoop_bounded. lia.
  - intros fuel Hf. unfold parseQuery. destruct (String.eqb q "") eqn:E.
    + apply String.eqb_eq in E. subst q. destruct fuel; reflexivity.
    + apply parseLoop_fuel; lia.
Qed.

(** ** Parsing what was written *)

Lemma atomByte_facts (L : GoLib) (a : ascii) :
  isAtomByte a = true ->
  isAtomRune L (byteZ a) = true /\
  IsSpace (unicodeTables L) (byteZ a) = false /\
  (byteZ a < 128)%Z /\
  encodeRune (byteZ a) = [byteZ a] /\
  (Ascii.eqb a ">" || Ascii.eqb a "<") = false.
Proof.
  destruct a as [[] [] [] [] [] [] [] []]; intros H; try discriminate H;
    repeat split; reflexivity.
Qed.

Lemma Zbyte_byteZ (a : ascii) : Zbyte (byteZ a) = a.
Proof. unfold Zbyte, byteZ. rewrite N2Z.id. apply ascii_N_embedding. Qed.

Lemma stringOfRunes_atomText (s : string) :
  Forall (fun a => isAtomByte a = true) (list_ascii_of_string s) ->
  stringOfRunes (bytes s) = s.
Proof.
  unfold stringOfRunes, bytes, ofBytes.
  induction s as [|a t IH]; simpl; intros H; [reflexivity|].
  inversion H as [|? ? Ha Ht]; subst.
  destruct (atomByte_facts latin1Lib a Ha) as (_ & _ & _ & He & _).
  rewrite He. simpl. rewrite Zbyte_byteZ. f_equal. apply IH, Ht.
Qed.

Lemma atomText_runes (L : GoLib) (s : string) :
  Forall (fun a => isAtomByte a = true) (list_ascii_of_string s) ->
  Forall (fun c => isAtomRune L c = true) (bytes s).
Proof.
  unfold bytes. induction 1 as [|a t Ha Ht IH]; simpl; constructor; [|exact IH].
  apply (atomByte_facts L a Ha).
Qed.

Lemma atomText_ascii (s : string) :
  Forall (fun a => isAtomByte a = true) (list_ascii_of_string s) ->
  Forall (fun b => (b < 128)%Z) (bytes s).
Proof.
  unfold bytes. induction 1 as [|a t Ha Ht IH]; simpl; constructor; [|exact IH].
  apply (atomByte_facts latin1Lib a Ha).
Qed.

Lemma byteAt_of_drop (q : string) :
  forall n b t, drop n (bytes q) = b :: t ->
                exists c, byteAt q n = Some c /\ byteZ c = b.
Proof.
  unfold byteAt, bytes. induction q as [|a q IH]; intros n b t H.
  - destruct n; discriminate H.
  - destruct n as [|n]; simpl in *.
    + injection H as <- _. eauto.
    + apply (IH n b t H).
Qed.

Lemma drop_more {A} (l : list A) (i : nat) (W X : list A) :
  drop i l = (W ++ X)%list -> drop (i + length W) l = X.
Proof.
  intros H. rewrite <- drop_drop, H. apply drop_app_length.
Qed.

Lemma drop_lt {A} (l : list A) (i : nat) (x : A) (t : list A) :
  drop i l = x :: t -> i < length l.
Proof.
  intros H. destruct (Nat.lt_ge_cases i (length l)) as [Hlt | Hge]; [exact Hlt|].
  rewrite (drop_ge l i Hge) in H. discriminate.
Qed.

Lemma eatWhitespace_skip (L : GoLib) (W : list rune) (c : rune) (t : list rune) :
  Forall isAsciiSpace W -> IsSpace (unicodeTables L) c = false ->
  forall i, eatWhitespace L (W ++ c :: t) i = Some (i + length W).
Proof.
  intros HW Hc. induction HW as [|w W Hw HW IH]; intros i; simpl.
  - rewrite Hc, Nat.add_0_r. reflexivity.
  - rewrite (IsSpace_blank L w Hw), IH. f_equal. lia.
Qed.

(** One turn of the loop of the parser on [key:value]. *)
Lemma parseLoop_turn (L : GoLib) (q : string) (qRune : list rune) (fuel i : nat)
    (parsed : list queryComparison) (W rest : list rune) (k v : string) :
  qRune = bytes q ->
  drop i qRune = (W ++ bytes k ++ 58%Z :: bytes v ++ rest)%list ->
  Forall isAsciiSpace W ->
  isAtomText k -> isAtomText v ->
  (forall c t, rest = c :: t -> isAtomRune L c = false) ->
  parseLoop L q qRune (S fuel) i parsed
  = parseLoop L q qRune fuel (i + length W + len k + 1 + len v)
      (parsed ++ [equalityOf (k, v)]).
Proof.
  intros HR Hd HW [Hkne Hk] [Hvne Hv] Hrest.
  assert (Hkb : exists a kt, k = String a kt /\ isAtomByte a = true).
  { destruct k as [|a kt]; [congruence|]. inversion Hk. eauto. }
  destruct Hkb as (a & kt & Ek & Ha).
  assert (Hvb : exists b vt, v = String b vt /\ isAtomByte b = true).
  { destruct v as [|b vt]; [congruence|]. inversion Hv. eauto. }
  destruct Hvb as (b & vt & Ev & Hb).
  assert (Hi : (i <? length qRune)%nat = true).
  { apply Nat.ltb_lt. destruct W as [|w W'].
    - rewrite Ek in Hd. apply (drop_lt _ _ _ _ Hd).
    - apply (drop_lt _ _ _ _ Hd). }
  (* the white space *)
  assert (Hw : eatWhitespace L (drop i qRune) i = Some (i + length W)).
  { rewrite Hd, Ek. apply eatWhitespace_skip; [exact HW|].
    apply (atomByte_facts L a Ha). }
  (* the key *)
  assert (Hd1 := drop_more _ _ _ _ Hd).
  assert (Hkey : lexString L qRune (i + length W)
                 = (k, i + length W + len k, None)).
  { rewrite (lexString_atom L qRune _ (bytes k) (58%Z :: bytes v ++ rest) Hd1).
    - rewrite (stringOfRunes_atomText k Hk), length_bytes. reflexivity.
    - rewrite Ek. discriminate.
    - apply atomText_runes, Hk.
    - intros c t [= <- _]. reflexivity. }
  (* the colon *)
  assert (Hd2 := drop_more _ _ _ _ Hd1). rewrite length_bytes in Hd2.
  assert (Hcolon : byteAt q (i + length W + len k) = Some ":"%char).
  { rewrite HR in Hd2. destruct (byteAt_of_drop q _ _ _ Hd2) as (c & Hc & Hz).
    rewrite Hc. f_equal. rewrite <- (Zbyte_byteZ c), Hz. reflexivity. }
  (* the value *)
  assert (Hd3 : drop (i + length W + len k + 1) qRune = (bytes v ++ rest)%list).
  { apply (drop_more _ _ [58%Z] _ Hd2). }
  assert (Hfirst : byteAt q (i + length W + len k + 1) = Some b).
  { rewrite HR, Ev in Hd3. destruct (byteAt_of_drop q _ _ _ Hd3) as (c & Hc & Hz).
    rewrite Hc. f_equal. rewrite <- (Zbyte_byteZ c), Hz. apply Zbyte_byteZ. }
  assert (Hval : lexString L qRune (i + length W + len k + 1)
                 = (v, i + length W + len k + 1 + len v, None)).
  { rewrite (lexString_atom L qRune _ (bytes v) rest Hd3).
    - rewrite (stringOfRunes_atomText v Hv), length_bytes. reflexivity.
    - rewrite Ev. discriminate.
    - apply atomText_runes, Hv.
    - exact Hrest. }
  assert (Hop : (Ascii.eqb b ">" || Ascii.eqb b "<") = false)
    by apply (atomByte_facts L b Hb).
  simpl. rewrite Hi. simpl. rewrite Hw, Hkey, Hcolon. simpl.
  rewrite Hfirst, Hop, Hval. reflexivity.
Qed.

Lemma bytes_colon (v : string) : bytes (":" ++ v) = 58%Z :: bytes v.
Proof. reflexivity. Qed.

Lemma bytes_space (s : string) : bytes (" " ++ s) = 32%Z :: bytes s.
Proof. reflexivity. Qed.

Lemma render_cons2 (p p' : string * string) (ps : list (string * string)) :
  render (p :: p' :: ps) = (fst p ++ ":" ++ snd p) ++ " " ++ render (p' :: ps).
Proof. reflexivity. Qed.

Lemma bytes_render (p : string * string) (ps : list (string * string)) :
  bytes (render (p :: ps))
  = (bytes (fst p) ++ 58%Z :: bytes (snd p)
     ++ flat_map (fun p => 32%Z :: bytes (fst p) ++ 58%Z :: bytes (snd p)) ps)%list.
Proof.
  revert p. induction ps as [|p' ps IH]; intros p.
  - unfold render. simpl. rewrite bytes_app, bytes_colon, app_nil_r. reflexivity.
  - rewrite render_cons2.
    rewrite bytes_app, bytes_space, IH, bytes_app, bytes_colon.
    cbn [flat_map]. rewrite <- !app_assoc. simpl. rewrite <- !app_assoc. reflexivity.
Qed.

Lemma parseLoop_rest (L : GoLib) (q : string) (qRune : list rune) :
  qRune = bytes q ->
  forall ps fuel i parsed,
    Forall (fun p => isAtomText (fst p) /\ isAtomText (snd p)) ps ->
    drop i qRune
    = flat_map (fun p => 32%Z :: bytes (fst p) ++ 58%Z :: bytes (snd p)) ps ->
    length qRune <= fuel + i ->
    parseLoop L q qRune fuel i parsed
    = Ok {| ands := (parsed ++ map equalityOf ps)%list |}.
Proof.
  intros HR. induction ps as [|[k v] ps IH]; intros fuel i parsed Hps Hd Hf.
  - simpl in Hd. apply drop_nil_inv in Hd.
    assert (E : (i <? length qRune)%nat = false) by (apply Nat.ltb_ge; lia).
    simpl. rewrite app_nil_r. destruct fuel; simpl; rewrite E; reflexivity.
  - destruct (List.Forall_inv Hps) as [Hk Hv].
    assert (Hps' := List.Forall_inv_tail Hps). simpl in Hk, Hv.
    cbn [flat_map fst snd] in Hd.
    assert (Hlt := drop_lt _ _ _ _ Hd).
    destruct fuel as [|fuel]; [lia|].
    set (rest := flat_map (fun p => 32%Z :: bytes (fst p) ++ 58%Z :: bytes (snd p)) ps)
      in *.
    assert (Hd' : drop i qRune = ([32%Z] ++ bytes k ++ 58%Z :: bytes v ++ rest)%list).
    { rewrite Hd. simpl. rewrite <- app_assoc. reflexivity. }
    rewrite (parseLoop_turn L q qRune fuel i parsed [32%Z] rest k v HR Hd');
      [| repeat constructor; unfold isAsciiSpace; lia | exact Hk | exact Hv |].
    + rewrite (IH fuel _ (parsed ++ [equalityOf (k, v)])%list Hps').
      * rewrite <- app_assoc. reflexivity.
      * assert (H1 := drop_more _ _ _ _ Hd').
        assert (H2 := drop_more _ _ _ _ H1). rewrite length_bytes in H2.
        assert (H3 := drop_more _ _ [58%Z] _ H2).
        assert (H4 := drop_more _ _ _ _ H3). rewrite length_bytes in H4.
        exact H4.
      * simpl. lia.
    + intros c t Hc. unfold rest in Hc. destruct ps as [|p ps']; [discriminate|].
      simpl in Hc. injection Hc as <- _. reflexivity.
Qed.

Lemma parseQuery_of_render (L : GoLib) (preds : list (string * string)) :
  Forall (fun p => isAtomText (fst p) /\ isAtomText (snd p)) preds ->
  parseQuery L (render preds) = Ok {| ands := map equalityOf preds |}.
Proof.
  intros Hps. destruct preds as [|[k v] ps]; [reflexivity|].
  destruct (List.Forall_inv Hps) as [Hk Hv].
  assert (Hps' := List.Forall_inv_tail Hps). simpl in Hk, Hv.
  set (q := render ((k, v) :: ps)).
  assert (Hb := bytes_render (k, v) ps). fold q in Hb. cbn [fst snd] in Hb.
  set (rest := flat_map (fun p => 32%Z :: bytes (fst p) ++ 58%Z :: bytes (snd p)) ps)
    in *.
  assert (Hascii : isAscii q).
  { unfold isAscii. rewrite Hb.
    apply Forall_app. split; [apply atomText_ascii, (proj2 Hk)|].
    constructor; [lia|].
    apply Forall_app. split; [apply atomText_ascii, (proj2 Hv)|].
    unfold rest. clear -Hps'. induction Hps' as [|[k' v'] t [Hk' Hv'] Ht IH]; simpl.
    - constructor.
    - constructor; [lia|]. rewrite <- app_assoc.
      apply Forall_app. split; [apply atomText_ascii, (proj2 Hk')|].
      simpl. constructor; [lia|].
      apply Forall_app. split; [apply atomText_ascii, (proj2 Hv') | exact IH]. }
  assert (Hne : String.eqb q "" = false).
  { destruct q as [|c t] eqn:E; [|reflexivity].
    destruct Hk as [Hkne _]. destruct k; [congruence | discriminate Hb]. }
  unfold parseQuery. rewrite Hne, (runes_ascii q Hascii).
  assert (Hd : drop 0 (bytes q) = ([] ++ bytes k ++ 58%Z :: bytes v ++ rest)%list)
    by exact Hb.
  unfold rune in *.
  destruct (length (bytes q)) as [|fuel] eqn:Elen.
  { destruct Hk as [Hkne _]. rewrite Hb in Elen. destruct k; [congruence | discriminate Elen]. }
  rewrite (parseLoop_turn L q (bytes q) fuel 0 [] [] rest k v eq_refl Hd);
    [| constructor | exact Hk | exact Hv |].
  - rewrite (parseLoop_rest L q (bytes q) eq_refl ps fuel _ [equalityOf (k, v)] Hps').
    + reflexivity.
    + assert (H1 := drop_more _ _ _ _ Hd).
      assert (H2 := drop_more _ _ _ _ H1). rewrite length_bytes in H2.
      assert (H3 := drop_more _ _ [58%Z] _ H2).
      assert (H4 := drop_more _ _ _ _ H3). rewrite length_bytes in H4.
      exact H4.
    + unfold rune. rewrite Elen. simpl. lia.
  - intros c t Hc. unfold rest in Hc. destruct ps as [|p ps']; [discriminate|].
    simpl in Hc. injection Hc as <- _. reflexivity.
Qed.

(** X17: [parseQuery] reads back what was written.  The text of a list of
    equality predicates, each [key:value] with a key and a value of ASCII
    letters, digits and dots and one space in between, is parsed to exactly
    these predicates, in order, the key split at its dots. *)
Theorem parseQuery_render (L : GoLib) (preds : list (string * string)) :
  Forall (fun p => isAtomText (fst p) /\ isAtomText (snd p)) preds ->
  parseQuery L (render preds) = Ok {| ands := map equalityOf preds |}.
Proof. apply parseQuery_of_render. Qed.


Lemma parseQuery_render_witness :
  parseQuery latin1Lib (render [("a.b", "1"); ("c", "x2")])
  = Ok {| ands := map equalityOf [("a.b", "1"); ("c", "x2")] |}.
Proof.
  apply (parseQuery_render latin1Lib [("a.b", "1"); ("c", "x2")]).
  repeat constructor; simpl; discriminate.
Defined.

(** ** Searching by fields *)

Lemma atomByte_not_equals (a : ascii) : isAtomByte a = true -> a <> "="%char.
Proof.
  destruct a as [[] [] [] [] [] [] [] []]; intros H; try discriminate H; discriminate.
Qed.

Lemma atomText_no_equals (s : string) : isAtomText s -> sepFree "=" s.
Proof.
  intros [_ H]. unfold sepFree. revert H. apply List.Forall_impl.
  intros a. apply atomByte_not_equals.
Qed.

Lemma Join_Split_dot (k : string) : Join (Split k ".") "." = k.
Proof. apply (Join_splitAcc "." k []). Qed.

Lemma Split_single (k x : string) : Split k "." = [x] -> x = k /\ sepFree "." k.
Proof.
  intros H. assert (HJ := Join_Split_dot k).
  rewrite H in HJ. simpl in HJ. subst x. split; [reflexivity|].
  destruct (Join_Split_parts k) as [_ HF]. rewrite H in HF.
  inversion HF. assumption.
Qed.

Lemma Split_dotted (k x y : string) (l : list string) :
  Split k "." = x :: y :: l -> ~ sepFree "." k.
Proof.
  intros H. assert (HJ := Join_Split_dot k).
  rewrite H, Join_cons2 in HJ. rewrite <- HJ.
  apply (not_sepFree_append "." x (Join (y :: l) ".")).
Qed.

(** On a flat document an equality predicate is a test of one field. *)
Lemma flat_field_match (L : GoLib) (d : document) (p : string * string) :
  flatDoc d -> matchArgument L (equalityOf p) d = holds L d p.
Proof.
  intros [Hnd Hflat]. rewrite List.Forall_forall in Hflat.
  destruct p as [k v]. unfold matchArgument, holds, getPath, equalityOf. simpl.
  destruct (Split k ".") as [|x [|y l]] eqn:E.
  - exfalso. apply (proj1 (Join_Split_parts k)), E.
  - apply Split_single in E. destruct E as [-> _]. simpl.
    destruct (mapGet d k); reflexivity.
  - apply Split_dotted in E. simpl.
    assert (Hk : mapGet d k = None).
    { destruct (mapGet d k) as [v0|] eqn:G; [|reflexivity].
      apply mapGet_In in G. exfalso. apply E. apply (Hflat _ G). }
    rewrite Hk.
    destruct (mapGet d x) as [v0|] eqn:G; [|reflexivity].
    apply mapGet_In in G. destruct (Hflat _ G) as [Hs _]. simpl in Hs.
    destruct v0; try discriminate Hs; reflexivity.
Qed.

Lemma matchAnds_fields (L : GoLib) (d : document) (preds : list (string * string)) :
  flatDoc d ->
  matchAnds L (map equalityOf preds) d = forallb (holds L d) preds.
Proof.
  intros Hf. induction preds as [|p t IH]; simpl; [reflexivity|].
  rewrite (flat_field_match L d p Hf), IH.
  destruct (holds L d p); reflexivity.
Qed.

(** X18: what a search by fields answers.  On a consistent server whose
    documents are flat, the query [k1:v1 k2:v2 ...] of keys and values of
    ASCII letters, digits and dots is answered, with or without [skipIndex],
    by exactly the stored documents in which every field [ki] prints as
    [vi], each once. *)
Theorem search_by_fields (L : GoLib) (s : server) (skipIndex : string)
    (preds : list (string * string)) :
  consistent L s ->
  (forall id d, cells (db s) !! id = Some (Some d) -> flatDoc d) ->
  Forall (fun p => isAtomText (fst p) /\ isAtomText (snd p)) preds ->
  exists documents,
    searchDocuments L s (render preds) skipIndex
    = RespOk documents (length documents) /\
    NoDup documents.*1 /\
    forall id d,
      In (id, d) documents <->
      cells (db s) !! id = Some (Some d) /\ forallb (holds L d) preds = true.
Proof.
  intros Hcons Hflat Hps.
  destruct (searchDocuments_flat L s (render preds) skipIndex
              {| ands := map equalityOf preds |} Hcons Hflat
              (parseQuery_of_render L preds Hps))
    as (documents & Hs & Hnd & Hin).
  - intros a Ha _. simpl in Ha. apply in_map_iff in Ha.
    destruct Ha as ([k v] & <- & Hp). simpl.
    rewrite Join_Split_dot. apply atomText_no_equals.
    rewrite List.Forall_forall in Hps. apply (Hps _ Hp).
  - exists documents. split; [exact Hs|]. split; [exact Hnd|].
    intros id d. rewrite Hin. unfold query_match. simpl. split.
    + intros [Hd M]. split; [exact Hd|].
      rewrite <- (matchAnds_fields L d preds (Hflat id d Hd)). exact M.
    + intros [Hd M]. split; [exact Hd|].
      rewrite (matchAnds_fields L d preds (Hflat id d Hd)). exact M.
Qed.

Lemma search_by_fields_witness :
  exists documents,
    searchDocuments latin1Lib oneDocServer (render [("a", "1")]) ""
    = RespOk documents (length documents) /\
    NoDup documents.*1 /\
    forall id d,
      In (id, d) documents <->
      cells (db oneDocServer) !! id = Some (Some d) /\
      forallb (holds latin1Lib d) [("a", "1")] = true.
Proof.
  apply (search_by_fields latin1Lib oneDocServer "" [("a", "1")]).
  - apply consistent_oneDocServer.
  - apply flat_oneDocServer.
  - repeat constructor; simpl; discriminate.
Defined.

(** Where the documents are not flat, the index and the scan part: a key
    with a dot, a value reached three levels down, a key with an equals
    sign. *)
Example index_and_scan_part_on_dotted_key :
  let s := snd (addDocument latin1Lib exactCodec emptyServer
                  (Some [("a.b", VString "1")]) "id1") in
  searchDocuments latin1Lib s "a.b:1" ""
  = RespOk [("id1", [("a.b", VString "1")])] 1 /\
  searchDocuments latin1Lib s "a.b:1" "true" = RespOk [] 0.
Proof. split; vm_compute; reflexivity. Qed.

Example index_and_scan_part_three_levels_down :
  let doc := [("a", VMap [("b", VMap [("c", VString "1")])])] in
  let s := snd (addDocument latin1Lib exactCodec emptyServer (Some doc) "id1") in
  searchDocuments latin1Lib s "b.c:1" "" = RespOk [("id1", doc)] 1 /\
  searchDocuments latin1Lib s "b.c:1" "true" = RespOk [] 0 /\
  searchDocuments latin1Lib s "a.b.c:1" "" = RespOk [("id1", doc)] 1.
Proof. repeat split; vm_compute; reflexivity. Qed.

Example index_and_scan_part_on_equals_sign :
  let s := snd (addDocument latin1Lib exactCodec emptyServer
                  (Some [("a", VString "b=c")]) "id1") in
  searchDocuments latin1Lib s (quote ++ "a=b" ++ quote ++ ":c") ""
  = RespOk [("id1", [("a", VString "b=c")])] 1 /\
  searchDocuments latin1Lib s (quote ++ "a=b" ++ quote ++ ":c") "true" = RespOk [] 0.
Proof. split; vm_compute; reflexivity. Qed.
